(** * Chunked audio pipeline: upload sequencing, reassembly, local cache

    A shallow embedding of the chunk pipeline of the recorder:
    - the [POST] handler of [/api/sessions/[id]/chunks] (the upload of one
      chunk; its source sits next to the transcript route under
      [app/api/sessions/[id]/chunks]),
    - [app/api/sessions/[id]/transcribe/route.ts], up to the combined buffer,
    - [lib/chunk-playback.ts], [lib/chunk-validation.ts], [lib/indexeddb.ts],
    - [hooks/useAudioRecorder.ts] (the [stop] callback).

    Numbers of the source are JavaScript numbers.  Chunk indices are kept as
    [jsnum] (an integer or NaN, what [parseInt] produces); durations are kept
    abstract behind the [Float64] interface, which assumes nothing about
    addition (in particular not associativity).  Promises are kept as the
    way they settle ([Resolved] or [Rejected]); the browser's IndexedDB and
    the clock are explicit arguments of the functions that use them. *)

From Stdlib Require Import ZArith Lia Strings.Byte Strings.Ascii.
From stdpp Require Import gmap strings list fin_maps pretty sorting.

Set Warnings "-clear-no-such-hyp".

Open Scope string_scope.
Open Scope list_scope.
Open Scope Z_scope.

(** ** JavaScript numbers as far as the handlers use them *)

Module JS.

(** What [parseInt(s, 10)] returns: an integer or NaN.  Integers are kept
    exact ([Z]); the rounding of a double above 2^53 is not modelled. *)
Inductive jsnum : Type :=
  | NaN
  | Int (z : Z).

#[global] Instance jsnum_eq_dec : EqDecision jsnum.
Proof. solve_decision. Defined.

(** [a + b] *)
Definition js_add (a b : jsnum) : jsnum :=
  match a, b with
  | Int x, Int y => Int (x + y)
  | _, _ => NaN
  end.

(** [a - b] *)
Definition js_sub (a b : jsnum) : jsnum :=
  match a, b with
  | Int x, Int y => Int (x - y)
  | _, _ => NaN
  end.

(** [a < b]: false as soon as one side is NaN *)
Definition js_lt (a b : jsnum) : bool :=
  match a, b with
  | Int x, Int y => bool_decide (x < y)
  | _, _ => false
  end.

(** [a > b] *)
Definition js_gt (a b : jsnum) : bool := js_lt b a.

(** [a !== b]: NaN differs from everything, itself included *)
Definition js_strict_ne (a b : jsnum) : bool :=
  match a, b with
  | Int x, Int y => negb (bool_decide (x = y))
  | _, _ => true
  end.

(** [isNaN(a)] *)
Definition isNaN (a : jsnum) : bool :=
  match a with NaN => true | Int _ => false end.

(** Template-literal conversion [`${a}`] *)
Definition show (a : jsnum) : string :=
  match a with
  | NaN => "NaN"
  | Int z => pretty z
  end.

(** White space skipped by [parseInt] (the ASCII part of StrWhiteSpaceChar):
    space, tab, line feed, vertical tab, form feed, carriage return. *)
Definition isWhite (a : Ascii.ascii) : bool :=
  (Ascii.eqb a " "%char
   || Ascii.eqb a (Ascii.Ascii true false false true false false false false)
   || Ascii.eqb a (Ascii.Ascii false true false true false false false false)
   || Ascii.eqb a (Ascii.Ascii true true false true false false false false)
   || Ascii.eqb a (Ascii.Ascii false false true true false false false false)
   || Ascii.eqb a (Ascii.Ascii true false true true false false false false))%bool.

Fixpoint skipWhite (s : string) : string :=
  match s with
  | String a s' => if isWhite a then skipWhite s' else s
  | EmptyString => s
  end.

(** Position of a character in a string, counted from [i]. *)
Fixpoint positionIn (a : Ascii.ascii) (s : string) (i : Z) : option Z :=
  match s with
  | EmptyString => None
  | String c s' => if Ascii.eqb a c then Some i else positionIn a s' (i + 1)
  end.

Definition digitVal (a : Ascii.ascii) : option Z := positionIn a "0123456789" 0.

(** Value of the longest prefix of decimal digits; [None] when there is
    no digit at all. *)
Fixpoint digits (s : string) (acc : option Z) : option Z :=
  match s with
  | String a s' =>
      match digitVal a with
      | Some d => digits s' (Some (10 * default 0 acc + d))
      | None => acc
      end
  | EmptyString => acc
  end.

(** [parseInt(s, 10)] *)
Definition parseInt (s : string) : jsnum :=
  let s := skipWhite s in
  let '(neg, s) :=
    match s with
    | String "-"%char s' => (true, s')
    | String "+"%char s' => (false, s')
    | _ => (false, s)
    end in
  match digits s None with
  | None => NaN
  | Some n => Int (if neg then - n else n)
  end.

(** JavaScript truthiness of a string that may be null. *)
Definition truthy (s : option string) : bool :=
  match s with
  | Some (String _ _) => true
  | _ => false
  end.

(** A thrown value: whether it is an [Error] and, if so, its message. *)
Record Thrown := mkThrown {
  isError : bool;
  message : string;
}.

(** How the promise returned by an async function settles. *)
Inductive Outcome (A : Type) : Type :=
  | Resolved (a : A)
  | Rejected (e : Thrown).
Arguments Resolved {A} a.
Arguments Rejected {A} e.

(** A line written to the console. *)
Inductive ConsoleLine : Type :=
  | ConsoleWarn (msg : string)
  | ConsoleLog (msg : string)
  | ConsoleError (msg : string).

End JS.

Export JS.

(** ** The platform: doubles and library calls the source relies on *)

(** IEEE doubles as the pipeline uses them (chunk durations).  Only what
    JavaScript guarantees is assumed: [0 > 0] is false and every number
    [> 0] is truthy.  Nothing is assumed about [f64_add]. *)
Class Float64 := {
  f64 : Type;
  f64_zero : f64;                       (* the literal [0] *)
  f64_30 : f64;                         (* the literal [30] *)
  f64_add : f64 → f64 → f64;            (* [a + b] *)
  f64_pos : f64 → bool;                 (* [a > 0] *)
  f64_truthy : f64 → bool;              (* neither [0] nor NaN *)
  f64_parse : string → f64;             (* [parseFloat] *)
  f64_pos_truthy : ∀ x, f64_pos x = true → f64_truthy x = true;
  f64_zero_not_pos : f64_pos f64_zero = false;
}.

(** Library functions called by the handlers. *)
Class Platform := {
  uuid_ok : string → bool;              (* [z.string().uuid().parse] passes *)
  toBase64 : list byte → string;        (* [buffer.toString('base64')] *)
  fromBase64 : string → list byte;      (* [Buffer.from(s, 'base64')] *)
  atob : string → Thrown + list byte;   (* [inl e]: [atob] throws [e] *)
}.

(** [x || y] on strings that may be null *)
Definition str_or (s : option string) (d : string) : string :=
  match s with
  | Some (String a s') => String a s'
  | _ => d
  end.

(** [transcript || null] *)
Definition or_null (s : option string) : option string :=
  match s with
  | Some (String a s') => Some (String a s')
  | _ => None
  end.

(** ** [POST /api/sessions/[id]/chunks]: the upload handler *)

Module Upload.
Section Handler.
Context `{F : Float64} `{P : Platform}.

Record AudioChunk := mkAudioChunk {
  id : string;
  sessionId : string;
  chunkIndex : jsnum;
  audioData : option string;
  duration : f64;
  transcript : option string;
  timestamp : Z;
  updatedAt : Z;
}.

Record Session := mkSession {
  userId : string;
  chunksCount : Z;
}.

(** The three tables the handler touches.  [users] maps the unique
    [deviceId] to the user's id. *)
Record DB := mkDB {
  users : gmap string string;
  sessions : gmap string Session;
  audioChunks : gmap string AudioChunk;
}.

(** The route parameter and the form fields, [None] for an absent field. *)
Record Request := mkRequest {
  r_sessionId : string;
  r_chunk : option (list byte);
  r_chunkIndex : option string;
  r_duration : option string;
  r_deviceId : option string;
  r_transcript : option string;
}.

Inductive Response : Type :=
  | ErrorResponse (status : Z) (error : string)
  | ChunkResponse (cid : string) (index : jsnum) (dur : f64) (ts : Z).

(** The derived id [`${sessionId}-${chunkIndex}`]. *)
Definition chunkId (sid : string) (idx : jsnum) : string :=
  sid +:+ "-" +:+ show idx.

(** Order of the [chunkIndex] column.  The column holds integers; NaN is
    placed after every integer so that the order is total on [jsnum]. *)
Definition db_le (a b : jsnum) : bool :=
  match a, b with
  | Int x, Int y => bool_decide (x ≤ y)
  | _, NaN => true
  | NaN, Int _ => false
  end.

Definition db_max (a b : jsnum) : jsnum := if db_le a b then b else a.

Definition lastOf (l : list jsnum) : option jsnum :=
  foldr (λ x acc, Some (match acc with None => x | Some m => db_max x m end))
        None l.

(** [findMany({ where: { sessionId } })], in storage order. *)
Definition sessionChunks (db : DB) (sid : string) : list AudioChunk :=
  filter (λ c, sessionId c = sid) (snd <$> map_to_list (audioChunks db)).

(** [findMany({ where: { sessionId }, orderBy: { chunkIndex: 'desc' },
    take: 1, select: { chunkIndex: true } })]: the largest index of the
    session, if it has a chunk. *)
Definition lastChunkIndex (db : DB) (sid : string) : option jsnum :=
  lastOf (chunkIndex <$> sessionChunks db sid).

(** [findFirst({ where: { id: sessionId, userId } })] *)
Definition findSession (db : DB) (sid uid : string) : option Session :=
  match sessions db !! sid with
  | Some s => if decide (userId s = uid) then Some s else None
  | None => None
  end.

Definition outOfRangeWarning (sid : string) (expected last idx : jsnum) : string :=
  "Chunk index out of range: expected " +:+ show expected +:+ " or retry "
    +:+ show last +:+ ", got " +:+ show idx +:+ ". Session: " +:+ sid.

Definition variationNote (sid : string) (expected idx : jsnum) : string :=
  "Chunk index variation: expected " +:+ show expected +:+ ", got "
    +:+ show idx +:+ ". Allowing (retry/parallel). Session: " +:+ sid.

Definition invalidIndexError (expected last idx : jsnum) : string :=
  "Invalid chunk index: expected " +:+ show expected +:+ " (or retry "
    +:+ show last +:+ "), got " +:+ show idx.

Definition firstChunkError (idx : jsnum) : string :=
  "First chunk must have index 0, got " +:+ show idx.

(** The sequence validation of the handler: the error of the 400 response
    if the index is refused, and what was written to the console. *)
Definition checkSequence (sid : string) (last : option jsnum) (chunkIndex : jsnum)
  : option string * list ConsoleLine :=
  match last with
  | Some lastChunkIndex =>
      let expectedIndex := js_add lastChunkIndex (Int 1) in
      if js_strict_ne chunkIndex expectedIndex then
        if js_lt chunkIndex lastChunkIndex
           || js_gt chunkIndex (js_add expectedIndex (Int 5))
        then
          let console :=
            [ConsoleWarn (outOfRangeWarning sid expectedIndex lastChunkIndex chunkIndex)] in
          if js_lt chunkIndex (js_sub lastChunkIndex (Int 1))
             || js_gt chunkIndex (js_add expectedIndex (Int 5))
          then (Some (invalidIndexError expectedIndex lastChunkIndex chunkIndex), console)
          else (None, console)
        else (None, [ConsoleLog (variationNote sid expectedIndex chunkIndex)])
      else (None, [])
  | None =>
      if js_strict_ne chunkIndex (Int 0) then
        if js_gt chunkIndex (Int 5) then (Some (firstChunkError chunkIndex), [])
        else (None, [])
      else (None, [])
  end.

Definition incrementChunksCount (s : Session) : Session :=
  {| userId := userId s; chunksCount := chunksCount s + 1 |}.

Record Result := mkResult {
  response : Response;
  db_after : DB;
  console : list ConsoleLine;
}.

Definition summary (c : AudioChunk) : Response :=
  ChunkResponse (id c) (chunkIndex c) (duration c) (timestamp c).

(** The second half of the handler: [findUnique] on the derived id, then
    [update] of the existing record, or [create] and the increment of the
    session's [chunksCount]. *)
Definition upsert (now : Z) (db : DB) (sid : string) (idx : jsnum)
    (base64Data : string) (dur : f64) (text : option string) : AudioChunk * DB :=
  let cid := chunkId sid idx in
  match audioChunks db !! cid with
  | Some existing =>
      let audioChunk :=
        {| id := id existing;
           sessionId := sessionId existing;
           chunkIndex := chunkIndex existing;
           audioData := Some base64Data;
           duration := dur;
           transcript := or_null text;
           timestamp := timestamp existing;
           updatedAt := now |} in
      (audioChunk,
       {| users := users db;
          sessions := sessions db;
          audioChunks := <[cid := audioChunk]> (audioChunks db) |})
  | None =>
      let audioChunk :=
        {| id := cid;
           sessionId := sid;
           chunkIndex := idx;
           audioData := Some base64Data;
           duration := dur;
           transcript := or_null text;
           timestamp := now;
           updatedAt := now |} in
      (audioChunk,
       {| users := users db;
          sessions := alter incrementChunksCount sid (sessions db);
          audioChunks := <[cid := audioChunk]> (audioChunks db) |})
  end.

(** The handler.  [now] is the value of [new Date()].  Database calls are
    map operations; a failing database (the outer [catch], status 500) is
    outside this model.  [UploadRoute.POST] below adds the one failure
    that depends on the request: an index the typed column cannot hold. *)
Definition POST (now : Z) (db : DB) (req : Request) : Result :=
  let sid := r_sessionId req in
  match r_chunk req, or_null (r_chunkIndex req), or_null (r_deviceId req) with
  | Some chunk, Some chunkIndexStr, Some deviceId =>
      if negb (uuid_ok deviceId) then
        mkResult (ErrorResponse 400 "Invalid device ID format") db []
      else
        match users db !! deviceId with
        | None => mkResult (ErrorResponse 404 "User not found") db []
        | Some user =>
            match findSession db sid user with
            | None => mkResult (ErrorResponse 404 "Session not found") db []
            | Some _ =>
                let base64Data := toBase64 chunk in
                let idx := parseInt chunkIndexStr in
                let dur := f64_parse (str_or (r_duration req) "30") in
                match checkSequence sid (lastChunkIndex db sid) idx with
                | (Some err, out) => mkResult (ErrorResponse 400 err) db out
                | (None, out) =>
                    let '(audioChunk, db') :=
                      upsert now db sid idx base64Data dur (r_transcript req) in
                    mkResult (summary audioChunk) db' out
                end
            end
        end
  | _, _, _ =>
      mkResult (ErrorResponse 400 "Missing required fields: chunk, chunkIndex, deviceId")
               db []
  end.

End Handler.
End Upload.

(** ** The upload handler on the typed table

    [Upload.POST] follows the decisions the handler takes itself, with the
    tables as finite maps that store any value.  The table behind
    [prisma.audioChunk] is typed: its [chunkIndex] column is an integer
    column ([int chunkIndex] in docs/STRUCTURE.md, a 32-bit integer of the
    PostgreSQL database).  [create] is handed the parsed index as it is;
    for a value the column cannot hold it raises, inside the [try] block
    of the handler, whose [catch] logs the error and answers 500. *)

Module UploadRoute.
Section Handler.
Context `{F : Float64} `{P : Platform}.
Import Upload.

(** The values the [chunkIndex] column holds. *)
Definition intColumn (idx : jsnum) : bool :=
  match idx with
  | Int z => bool_decide (- 2 ^ 31 ≤ z < 2 ^ 31)
  | NaN => false
  end.

(** [prisma.audioChunk.update({ where: { id: chunkId }, data })]: the
    index is not among the data. *)
Definition update (now : Z) (db : DB) (cid : string) (existing : AudioChunk)
    (base64Data : string) (dur : f64) (text : option string) : AudioChunk * DB :=
  let audioChunk :=
    {| id := id existing;
       sessionId := sessionId existing;
       chunkIndex := chunkIndex existing;
       audioData := Some base64Data;
       duration := dur;
       transcript := or_null text;
       timestamp := timestamp existing;
       updatedAt := now |} in
  (audioChunk,
   {| users := users db;
      sessions := sessions db;
      audioChunks := <[cid := audioChunk]> (audioChunks db) |}).

(** [prisma.audioChunk.create({ data })]; [None] when it raises. *)
Definition create (now : Z) (db : DB) (sid : string) (idx : jsnum)
    (base64Data : string) (dur : f64) (text : option string)
  : option (AudioChunk * DB) :=
  if intColumn idx then
    let audioChunk :=
      {| id := chunkId sid idx;
         sessionId := sid;
         chunkIndex := idx;
         audioData := Some base64Data;
         duration := dur;
         transcript := or_null text;
         timestamp := now;
         updatedAt := now |} in
    Some (audioChunk,
          {| users := users db;
             sessions := sessions db;
             audioChunks := <[chunkId sid idx := audioChunk]> (audioChunks db) |})
  else None.

(** [prisma.session.update({ where: { id: sessionId },
    data: { chunksCount: { increment: 1 } } })] *)
Definition countChunk (db : DB) (sid : string) : DB :=
  {| users := users db;
     sessions := alter incrementChunksCount sid (sessions db);
     audioChunks := audioChunks db |}.

Definition uploadFailed (db : DB) (out : list ConsoleLine) : Result :=
  mkResult (ErrorResponse 500 "Failed to upload chunk") db
    (out ++ [ConsoleError "Error in POST /api/sessions/[id]/chunks:"]).

Definition POST (now : Z) (db : DB) (req : Request) : Result :=
  let sid := r_sessionId req in
  match r_chunk req, or_null (r_chunkIndex req), or_null (r_deviceId req) with
  | Some chunk, Some chunkIndexStr, Some deviceId =>
      if negb (uuid_ok deviceId) then
        mkResult (ErrorResponse 400 "Invalid device ID format") db []
      else
        match users db !! deviceId with
        | None => mkResult (ErrorResponse 404 "User not found") db []
        | Some user =>
            match findSession db sid user with
            | None => mkResult (ErrorResponse 404 "Session not found") db []
            | Some _ =>
                let base64Data := toBase64 chunk in
                let idx := parseInt chunkIndexStr in
                let dur := f64_parse (str_or (r_duration req) "30") in
                match checkSequence sid (lastChunkIndex db sid) idx with
                | (Some err, out) => mkResult (ErrorResponse 400 err) db out
                | (None, out) =>
                    match audioChunks db !! chunkId sid idx with
                    | Some existingChunk =>
                        let '(audioChunk, db') :=
                          update now db (chunkId sid idx) existingChunk base64Data dur
                            (r_transcript req) in
                        mkResult (summary audioChunk) db' out
                    | None =>
                        match create now db sid idx base64Data dur (r_transcript req) with
                        | Some (audioChunk, db') =>
                            mkResult (summary audioChunk) (countChunk db' sid) out
                        | None => uploadFailed db out
                        end
                    end
                end
            end
        end
  | _, _, _ =>
      mkResult (ErrorResponse 400 "Missing required fields: chunk, chunkIndex, deviceId")
               db []
  end.

End Handler.
End UploadRoute.

(** ** [Array.prototype.sort] with a comparator *)

(** The sort of the language is stable; it is modelled by a stable
    insertion sort: [x] stays in front of every [y] with [cmp x y <= 0]. *)
Section JsSort.
Context {A : Type} (cmp : A → A → Z).

Fixpoint sortInsert (x : A) (l : list A) : list A :=
  match l with
  | [] => [x]
  | y :: l' => if bool_decide (cmp x y ≤ 0) then x :: y :: l' else y :: sortInsert x l'
  end.

Definition jsSort (l : list A) : list A := foldr sortInsert [] l.

End JsSort.

(** Orders induced by an integer key. *)
Section KeyOrder.
Context {A : Type} (key : A → Z).

Definition keyLe (a b : A) : Prop := key a ≤ key b.
Definition keyLt (a b : A) : Prop := key a < key b.

End KeyOrder.

(** ** [lib/indexeddb.ts]: the local chunk store *)

Module IDB.

Record AudioChunkData := mkAudioChunkData {
  id : string;
  sessionId : string;
  chunkIndex : Z;
  blob : option (list byte);
  timestamp : Z;
}.

Inductive Mode := mic | system.

Record RecordingState := mkRecordingState {
  rs_sessionId : string;
  isRecording : bool;
  isPaused : bool;
  startTime : Z;
  pausedTime : Z;
  totalPausedDuration : Z;
  chunkCount : Z;
  mode : Mode;
}.

(** What the browser's IndexedDB does when the code calls it.  Every call
    of the API may raise; a request that was issued fires [success] or
    [error]. *)
Inductive OpenBehaviour :=
  | OpenThrows (e : Thrown)
  | OpenFiresError
  | OpenFiresSuccess.

Inductive RequestBehaviour :=
  | RequestThrows (e : Thrown)
  | RequestFiresError
  | RequestFiresSuccess.

Record Backend := mkBackend {
  available : bool;                 (* [typeof indexedDB !== 'undefined'] *)
  open : OpenBehaviour;             (* [indexedDB.open(DB_NAME, DB_VERSION)] *)
  transaction : option Thrown;      (* [database.transaction(...)] raises *)
  objectStore : option Thrown;      (* [transaction.objectStore(...)] raises *)
  index : option Thrown;            (* [store.index('sessionId')] raises *)
  request : RequestBehaviour;       (* [put], [get], [getAll], [delete], [openCursor] *)
  cursorFailsAt : option nat;       (* the cursor fires [error] at this step *)
}.

(** The module variable [db] and the two object stores, keyed by their
    key paths ([id] and [sessionId]). *)
Record Store := mkStore {
  db : bool;
  audioChunks : gmap string AudioChunkData;
  recordingState : gmap string RecordingState;
}.

Record Status := mkStatus {
  success : bool;
  error : option string;
}.

Record ChunksResult := mkChunksResult {
  chunks : list AudioChunkData;
  chunks_error : option string;
}.

Record StateResult := mkStateResult {
  state : option RecordingState;
  state_error : option string;
}.

Definition isIndexedDBAvailable (b : Backend) : bool := available b.

(** [initDB]: a throw inside the executor and [request.onerror] both
    reject the promise. *)
Definition initDB (b : Backend) (s : Store) : Outcome unit * Store :=
  if db s then (Resolved (), s)
  else
    match open b with
    | OpenThrows e => (Rejected e, s)
    | OpenFiresError => (Rejected (mkThrown true "Failed to open IndexedDB"), s)
    | OpenFiresSuccess =>
        (Resolved (),
         {| db := true; audioChunks := audioChunks s;
            recordingState := recordingState s |})
    end.

(** [error instanceof Error ? error.message : 'Unknown IndexedDB error'] *)
Definition catchMessage (e : Thrown) : string :=
  if isError e then message e else "Unknown IndexedDB error".

Definition failed (msg : string) : Status :=
  {| success := false; error := Some msg |}.

Definition succeeded : Status := {| success := true; error := None |}.

(** The shape shared by the functions of the module:
<<
  try {
    const database = await initDB()
    const transaction = database.transaction(...)
    const store = transaction.objectStore(...)   // and store.index(...)
    return new Promise((resolve) => { const request = ...; ... })
  } catch (error) { return onCatch(error) }
>>
    The promise is returned without [await]: what is raised while the
    executor runs rejects that promise after the [try] block was left, so
    the [catch] clause does not see it.  [useIndex] tells whether the
    function calls [store.index]. *)
Definition guarded {R : Type} (b : Backend) (s : Store) (useIndex : bool)
    (onCatch : string → R) (executor : Store → Outcome R * Store)
  : Outcome R * Store :=
  match initDB b s with
  | (Rejected e, s1) => (Resolved (onCatch (catchMessage e)), s1)
  | (Resolved _, s1) =>
      match transaction b with
      | Some e => (Resolved (onCatch (catchMessage e)), s1)
      | None =>
          match objectStore b with
          | Some e => (Resolved (onCatch (catchMessage e)), s1)
          | None =>
              match (if useIndex then index b else None) with
              | Some e => (Resolved (onCatch (catchMessage e)), s1)
              | None => executor s1
              end
          end
      end
  end.

Definition storeChunk (b : Backend) (s : Store) (chunk : AudioChunkData)
  : Outcome Status * Store :=
  if negb (isIndexedDBAvailable b) then
    (Resolved (failed "IndexedDB not available - using server storage only"), s)
  else
    guarded b s false failed (λ s1,
      match request b with
      | RequestThrows e => (Rejected e, s1)
      | RequestFiresSuccess =>
          (Resolved succeeded,
           {| db := db s1;
              audioChunks := <[id chunk := chunk]> (audioChunks s1);
              recordingState := recordingState s1 |})
      | RequestFiresError =>
          (Resolved (failed "IndexedDB storage failed - using server storage only"), s1)
      end).

(** [index.getAll(sessionId)]: the records of the session, in the order
    of the store. *)
Definition getAll (s : Store) (sid : string) : list AudioChunkData :=
  filter (λ c, sessionId c = sid) (snd <$> map_to_list (audioChunks s)).

Definition getChunks (b : Backend) (s : Store) (sid : string)
  : Outcome ChunksResult * Store :=
  if negb (isIndexedDBAvailable b) then
    (Resolved (mkChunksResult [] (Some "IndexedDB not available")), s)
  else
    guarded b s true (λ msg, mkChunksResult [] (Some msg)) (λ s1,
      match request b with
      | RequestThrows e => (Rejected e, s1)
      | RequestFiresSuccess =>
          (Resolved
             (mkChunksResult
                (jsSort (λ a b, chunkIndex a - chunkIndex b) (getAll s1 sid)) None),
           s1)
      | RequestFiresError =>
          (Resolved (mkChunksResult [] (Some "Failed to retrieve chunks from IndexedDB")),
           s1)
      end).

(** The cursor loop of [deleteChunks]: each [success] event deletes the
    record under the cursor and advances; [resolve] is called when the
    cursor is exhausted, or by [onerror] at step [failAt].  The second
    component is the content of the store inside the transaction. *)
Fixpoint cursorDelete (keys : list string) (step : nat) (failAt : option nat)
    (m : gmap string AudioChunkData) : bool * gmap string AudioChunkData :=
  if bool_decide (failAt = Some step) then (false, m)
  else
    match keys with
    | [] => (true, m)
    | k :: keys' => cursorDelete keys' (S step) failAt (delete k m)
    end.

(** [deleteChunks].  The cursor and its deletes run in one [readwrite]
    transaction.  [request.onerror] resolves the promise but does not call
    [preventDefault], so an [error] event of the cursor aborts the
    transaction: the deletes made so far are rolled back. *)
Definition deleteChunks (b : Backend) (s : Store) (sid : string)
  : Outcome Status * Store :=
  if negb (isIndexedDBAvailable b) then
    (Resolved (failed "IndexedDB not available"), s)
  else
    guarded b s true failed (λ s1,
      match request b with
      | RequestThrows e => (Rejected e, s1)
      | RequestFiresError =>
          (Resolved (failed "Failed to delete chunks from IndexedDB"), s1)
      | RequestFiresSuccess =>
          let '(ok, m) :=
            cursorDelete (id <$> getAll s1 sid) 0 (cursorFailsAt b) (audioChunks s1) in
          (Resolved
             (if ok then succeeded else failed "Failed to delete chunks from IndexedDB"),
           {| db := db s1;
              audioChunks := if ok then m else audioChunks s1;
              recordingState := recordingState s1 |})
      end).

Definition saveRecordingState (b : Backend) (s : Store) (st : RecordingState)
  : Outcome Status * Store :=
  if negb (isIndexedDBAvailable b) then
    (Resolved (failed "IndexedDB not available"), s)
  else
    guarded b s false failed (λ s1,
      match request b with
      | RequestThrows e => (Rejected e, s1)
      | RequestFiresSuccess =>
          (Resolved succeeded,
           {| db := db s1; audioChunks := audioChunks s1;
              recordingState := <[rs_sessionId st := st]> (recordingState s1) |})
      | RequestFiresError => (Resolved (failed "Failed to save recording state"), s1)
      end).

Definition getRecordingState (b : Backend) (s : Store) (sid : string)
  : Outcome StateResult * Store :=
  if negb (isIndexedDBAvailable b) then
    (Resolved (mkStateResult None (Some "IndexedDB not available")), s)
  else
    guarded b s false (λ msg, mkStateResult None (Some msg)) (λ s1,
      match request b with
      | RequestThrows e => (Rejected e, s1)
      | RequestFiresSuccess =>
          (Resolved (mkStateResult (recordingState s1 !! sid) None), s1)
      | RequestFiresError =>
          (Resolved (mkStateResult None (Some "Failed to get recording state")), s1)
      end).

Definition deleteRecordingState (b : Backend) (s : Store) (sid : string)
  : Outcome Status * Store :=
  if negb (isIndexedDBAvailable b) then
    (Resolved (failed "IndexedDB not available"), s)
  else
    guarded b s false failed (λ s1,
      match request b with
      | RequestThrows e => (Rejected e, s1)
      | RequestFiresSuccess =>
          (Resolved succeeded,
           {| db := db s1; audioChunks := audioChunks s1;
              recordingState := delete sid (recordingState s1) |})
      | RequestFiresError => (Resolved (failed "Failed to delete recording state"), s1)
      end).

End IDB.

(** ** [lib/chunk-validation.ts] *)

Module Validation.

Record ChunkSequenceInfo := mkInfo {
  isValid : bool;
  gaps : list Z;
  duplicates : list Z;
  expectedCount : Z;
  actualCount : Z;
  lastIndex : Z;
}.

(** The first loop: an index already in [seen] is pushed to [duplicates]. *)
Definition scanStep (acc : list Z * gset Z) (index : Z) : list Z * gset Z :=
  let '(duplicates, seen) := acc in
  ((if bool_decide (index ∈ seen) then (duplicates ++ [index])%list else duplicates),
   {[index]} ∪ seen).

Definition scanDuplicates (sorted : list Z) : list Z * gset Z :=
  fold_left scanStep sorted ([], ∅).

(** The second loop, [for (let i = firstIndex; i <= lastIndex; i++)]. *)
Definition scanGaps (firstIndex lastIndex : Z) (seen : gset Z) : list Z :=
  filter (λ i, i ∉ seen) (seqZ firstIndex (lastIndex - firstIndex + 1)).

Definition validateChunkSequence (chunkIndices : list Z) : ChunkSequenceInfo :=
  if bool_decide (length chunkIndices = 0%nat) then
    {| isValid := true; gaps := []; duplicates := [];
       expectedCount := 0; actualCount := 0; lastIndex := -1 |}
  else
    let sorted := jsSort (λ a b, a - b) chunkIndices in
    let '(duplicates, seen) := scanDuplicates sorted in
    let firstIndex := default 0 (head sorted) in
    let lastIndex := default 0 (last sorted) in
    let gaps := scanGaps firstIndex lastIndex seen in
    {| isValid := bool_decide (length gaps = 0%nat) && bool_decide (length duplicates = 0%nat);
       gaps := gaps;
       duplicates := duplicates;
       expectedCount := lastIndex - firstIndex + 1;
       actualCount := Z.of_nat (length sorted);
       lastIndex := lastIndex |}.

End Validation.

(** ** [lib/chunk-playback.ts] *)

Module Playback.
Section Reassembly.
Context `{F : Float64} `{P : Platform}.

Record PlaybackChunk := mkPlaybackChunk {
  blob : list byte;
  index : Z;
  duration : f64;
  timestamp : Z;
}.

(** [audioUrl] is kept as the content of the blob behind the object URL. *)
Record ChunkPlaybackData := mkData {
  chunks : list PlaybackChunk;
  totalDuration : f64;
  audioUrl : option (list byte);
  error : option string;
}.

(** A chunk as the server's JSON carries it. *)
Record ServerChunk := mkServerChunk {
  s_chunkIndex : Z;
  s_duration : option f64;
  s_timestamp : Z;
  s_audioData : option string;
}.

(** [await fetch(...)] followed by [response.ok] and [await response.json()] *)
Inductive FetchOutcome : Type :=
  | FetchThrows (e : Thrown)
  | ResponseNotOk
  | ResponseOk (chunks : option (list ServerChunk)).

(** [new Blob(chunks.map((c) => c.blob))] *)
Definition combinedBlob (cs : list PlaybackChunk) : list byte :=
  concat (blob <$> cs).

(** [chunks.reduce((sum, c) => sum + c.duration, 0)] *)
Definition sumDurations (cs : list PlaybackChunk) : f64 :=
  fold_left (λ sum c, f64_add sum (duration c)) cs f64_zero.

(** [chunk.blob && chunk.blob.size > 0] *)
Definition hasBlob (c : IDB.AudioChunkData) : bool :=
  match IDB.blob c with
  | Some (_ :: _) => true
  | _ => false
  end.

Definition fromLocal (c : IDB.AudioChunkData) : PlaybackChunk :=
  {| blob := default [] (IDB.blob c);
     index := IDB.chunkIndex c;
     duration := f64_30;
     timestamp := IDB.timestamp c |}.

(** The chunks kept from the IndexedDB result. *)
Definition localChunks (r : IDB.ChunksResult) : list PlaybackChunk :=
  fromLocal <$> filter (λ c, hasBlob c) (IDB.chunks r).

(** [chunk.duration || 0] *)
Definition durationOr0 (d : option f64) : f64 :=
  match d with
  | Some x => if f64_truthy x then x else f64_zero
  | None => f64_zero
  end.

(** The body of the [serverChunks.map(async (chunk) => ...)] callback. *)
Definition fromServer (c : ServerChunk) : Thrown + PlaybackChunk :=
  match s_audioData c with
  | Some (String a d) =>
      match atob (String a d) with
      | inl e => inl e
      | inr bytes =>
          inr {| blob := bytes; index := s_chunkIndex c;
                 duration := durationOr0 (s_duration c); timestamp := s_timestamp c |}
      end
  | _ =>
      inr {| blob := []; index := s_chunkIndex c;
             duration := durationOr0 (s_duration c); timestamp := s_timestamp c |}
  end.

(** [await Promise.all(...)]: the first callback that throws rejects. *)
Fixpoint promiseAll (cs : list ServerChunk) : Thrown + list PlaybackChunk :=
  match cs with
  | [] => inr []
  | c :: cs' =>
      match fromServer c with
      | inl e => inl e
      | inr x =>
          match promiseAll cs' with
          | inl e => inl e
          | inr xs => inr (x :: xs)
          end
      end
  end.

(** [(chunk) => chunk.blob.size > 0 && chunk.duration > 0] *)
Definition playable (c : PlaybackChunk) : bool :=
  bool_decide (0 < length (blob c))%nat && f64_pos (duration c).

Definition failure (msg : string) : ChunkPlaybackData :=
  {| chunks := []; totalDuration := f64_zero; audioUrl := None; error := Some msg |}.

Definition ready (cs : list PlaybackChunk) : ChunkPlaybackData :=
  {| chunks := cs; totalDuration := sumDurations cs;
     audioUrl := Some (combinedBlob cs); error := None |}.

(** The [try] block after the fetch, with its [catch]. *)
Definition serverPlayback (o : FetchOutcome) : ChunkPlaybackData :=
  let onCatch (e : Thrown) :=
    failure (if isError e then message e
             else "Failed to retrieve chunks for playback") in
  match o with
  | FetchThrows e => onCatch e
  | ResponseNotOk => onCatch (mkThrown true "Failed to fetch chunks from server")
  | ResponseOk data =>
      let serverChunks := default [] data in
      if bool_decide (length serverChunks = 0%nat) then failure "No chunks found"
      else
        match promiseAll serverChunks with
        | inl e => onCatch e
        | inr converted =>
            let chunks :=
              jsSort (λ a b, index a - index b) (filter (λ c, playable c) converted) in
            if bool_decide (50 < length chunks)%nat then ready chunks
            else ready chunks
        end
  end.

(** The two awaited calls of [getChunksForPlayback], as effects. *)
Inductive Eff : Type → Type :=
  | GetChunks (sessionId : string) : Eff (Outcome IDB.ChunksResult)
  | Fetch (url : string) : Eff FetchOutcome.

Inductive Prog (R : Type) : Type :=
  | Ret (r : R)
  | Do {X : Type} (e : Eff X) (k : X → Prog R).
Arguments Ret {R} r.
Arguments Do {R X} e k.

Definition chunksUrl (sessionId deviceId : string) : string :=
  "/api/sessions/" +:+ sessionId +:+ "/chunks?deviceId=" +:+ deviceId.

Definition getChunksForPlayback (sessionId deviceId : string)
  : Prog (Outcome ChunkPlaybackData) :=
  let fallback :=
    Do (Fetch (chunksUrl sessionId deviceId))
       (λ o, Ret (Resolved (serverPlayback o))) in
  Do (GetChunks sessionId) (λ r,
    match r with
    | Rejected e => Ret (Rejected e)
    | Resolved indexedDBResult =>
        if bool_decide (0 < length (IDB.chunks indexedDBResult))%nat then
          let chunks := localChunks indexedDBResult in
          if bool_decide (0 < length chunks)%nat then Ret (Resolved (ready chunks))
          else fallback
        else fallback
    end).

(** The outside world of one call, and the calls it saw. *)
Record Env := mkEnv {
  indexedDB : string → Outcome IDB.ChunksResult;
  server : string → FetchOutcome;
}.

Inductive Event : Type :=
  | CalledGetChunks (sessionId : string)
  | CalledFetch (url : string).

Definition answer (env : Env) {X : Type} (e : Eff X) : X :=
  match e with
  | GetChunks sid => indexedDB env sid
  | Fetch url => server env url
  end.

Definition event {X : Type} (e : Eff X) : Event :=
  match e with
  | GetChunks sid => CalledGetChunks sid
  | Fetch url => CalledFetch url
  end.

Fixpoint run {R : Type} (env : Env) (p : Prog R) : R * list Event :=
  match p with
  | Ret r => (r, [])
  | Do e k =>
      let '(r, trace) := run env (k (answer env e)) in
      (r, event e :: trace)
  end.

End Reassembly.
End Playback.

(** ** [POST /api/sessions/[id]/transcribe], up to the speech service *)

Module Transcribe.
Section Route.
Context `{F : Float64} `{P : Platform}.

(** [orderBy: { chunkIndex: 'asc' }] *)
Definition orderAsc (l : list Upload.AudioChunk) : list Upload.AudioChunk :=
  jsSort
    (λ a b,
       if Upload.db_le (Upload.chunkIndex a) (Upload.chunkIndex b) then
         if Upload.db_le (Upload.chunkIndex b) (Upload.chunkIndex a) then 0 else -1
       else 1)
    l.

(** [chunk.audioData && chunk.audioData.length > 0] *)
Definition hasAudio (c : Upload.AudioChunk) : bool := truthy (Upload.audioData c).

(** [Buffer.concat(chunksWithAudio.map((chunk) =>
    Buffer.from(chunk.audioData!, 'base64')))] *)
Definition combinedAudio (chunksWithAudio : list Upload.AudioChunk) : list byte :=
  concat ((λ c, fromBase64 (default EmptyString (Upload.audioData c))) <$> chunksWithAudio).

(** Either the handler answers by itself, or it hands [combinedAudio] to
    [deepgram.listen.prerecorded.transcribeFile]. *)
Inductive Step : Type :=
  | Reply (status : Z) (error : string)
  | SendToSpeech (combinedAudio : list byte).

Definition POST (apiKey : option string) (db : Upload.DB) (sessionId : string)
    (deviceId : option string) : Step :=
  match or_null deviceId with
  | None => Reply 400 "deviceId query parameter is required"
  | Some deviceId =>
      if negb (uuid_ok deviceId) then Reply 400 "Invalid device ID format"
      else
        match Upload.users db !! deviceId with
        | None => Reply 404 "User not found"
        | Some user =>
            match Upload.findSession db sessionId user with
            | None => Reply 404 "Session not found"
            | Some _ =>
                let chunks := orderAsc (Upload.sessionChunks db sessionId) in
                if bool_decide (length chunks = 0%nat) then
                  Reply 404 "No audio chunks found for this session"
                else
                  let chunksWithAudio := filter (λ c, hasAudio c) chunks in
                  if bool_decide (length chunksWithAudio = 0%nat) then
                    Reply 404 "No chunks with audio data found"
                  else
                    let combined := combinedAudio chunksWithAudio in
                    match or_null apiKey with
                    | None => Reply 500 "Deepgram API key not configured"
                    | Some _ => SendToSpeech combined
                    end
            end
        end
  end.

End Route.
End Transcribe.

(** ** [hooks/useAudioRecorder.ts]: the [stop] callback *)

Module Recorder.

(** The refs of the hook.  The recorder object is represented by what its
    [stop()] promise settles to (the class itself lives in
    [lib/audio-recorder], which the hook only calls). *)
Record Hook := mkHook {
  recorderRef : option (Outcome (option (list byte)));
  sessionIdRef : option string;
  pendingChunksRef : gset Z;
}.

(** One [await new Promise((resolve) => setTimeout(resolve, 500))]: the
    change of [Date.now()] across it, and the uploads whose [finally]
    block ran meanwhile ([pendingChunksRef.current.delete(index)]). *)
Record Tick := mkTick {
  elapsed : Z;
  completed : list Z;
}.

Definition maxWaitTime : Z := 10000.

Definition waitingNote (pending : gset Z) : string :=
  "[useAudioRecorder] Waiting for " +:+ pretty (size pending)
    +:+ " pending chunks to complete...".

Definition stillPendingWarning (pending : gset Z) : string :=
  "[useAudioRecorder] Some chunks (" +:+ pretty (size pending)
    +:+ ") are still pending after timeout, proceeding with cleanup".

Record Waited := mkWaited {
  w_now : Z;
  w_pending : gset Z;
  w_polls : nat;
  w_console : list ConsoleLine;
}.

(** The [while] loop of [stop].  [fuel] bounds the number of iterations
    the model follows; [k] counts the sleeps done so far. *)
Fixpoint waitForPending (fuel : nat) (env : nat → Tick) (k : nat)
    (startWait now : Z) (pending : gset Z) (out : list ConsoleLine)
  : option Waited :=
  if bool_decide (0 < size pending)%nat && bool_decide (now - startWait < maxWaitTime)
  then
    match fuel with
    | O => None
    | S fuel' =>
        let t := env k in
        waitForPending fuel' env (S k) startWait (now + elapsed t)
          (pending ∖ list_to_set (completed t))
          (out ++ [ConsoleLog (waitingNote pending)])%list
    end
  else Some (mkWaited now pending k out).

Record Stopped := mkStopped {
  returned : option (list byte);
  hook : Hook;
  store : IDB.Store;
  finishedAt : Z;
  polls : nat;
  console : list ConsoleLine;
}.

Definition cleared : Hook :=
  {| recorderRef := None; sessionIdRef := None; pendingChunksRef := ∅ |}.

(** [stop].  [now] is [Date.now()] when [recorderRef.current.stop()] has
    settled.  [None] only when [fuel] ran out inside the loop. *)
Definition stop (fuel : nat) (b : IDB.Backend) (env : nat → Tick) (now : Z)
    (h : Hook) (s : IDB.Store) : option Stopped :=
  match recorderRef h with
  | None => Some (mkStopped None h s now 0 [])
  | Some recorder =>
      match recorder with
      | Rejected _ =>
          Some (mkStopped None h s now 0 [ConsoleError "Error stopping recording:"])
      | Resolved finalBlob =>
          match waitForPending fuel env 0 now now (pendingChunksRef h) [] with
          | None => None
          | Some w =>
              let h1 :=
                {| recorderRef := recorderRef h; sessionIdRef := sessionIdRef h;
                   pendingChunksRef := w_pending w |} in
              let out :=
                if bool_decide (0 < size (w_pending w))%nat
                then (w_console w ++ [ConsoleWarn (stillPendingWarning (w_pending w))])%list
                else w_console w in
              match or_null (sessionIdRef h) with
              | Some sessionId =>
                  match IDB.deleteRecordingState b s sessionId with
                  | (Rejected _, s1) =>
                      Some (mkStopped None h1 s1 (w_now w) (w_polls w)
                              (out ++ [ConsoleError "Error stopping recording:"])%list)
                  | (Resolved deleteResult, s1) =>
                      let out :=
                        if negb (IDB.success deleteResult)
                        then (out ++ [ConsoleWarn "Failed to delete recording state:"])%list
                        else out in
                      Some (mkStopped finalBlob cleared s1 (w_now w) (w_polls w) out)
                  end
              | None => Some (mkStopped finalBlob cleared s (w_now w) (w_polls w) out)
              end
          end
      end
  end.

End Recorder.

(** ** Vocabulary of the statements *)

Section UploadVocabulary.
Context `{F : Float64} `{P : Platform}.
Import Upload.

(** The request gets past the field, device, user and session checks. *)
Definition passesGuards (db : DB) (req : Request) : bool :=
  match r_chunk req, or_null (r_chunkIndex req), or_null (r_deviceId req) with
  | Some _, Some _, Some deviceId =>
      uuid_ok deviceId &&
      match users db !! deviceId with
      | Some user => bool_decide (is_Some (findSession db (r_sessionId req) user))
      | None => false
      end
  | _, _, _ => false
  end.

(** The index the handler parses out of the request. *)
Definition requestIndex (req : Request) : jsnum :=
  parseInt (default EmptyString (r_chunkIndex req)).

(** The id under which the request's chunk is stored. *)
Definition requestId (req : Request) : string :=
  chunkId (r_sessionId req) (requestIndex req).

Definition requestPayload (req : Request) : string :=
  toBase64 (default [] (r_chunk req)).

Definition requestDuration (req : Request) : f64 :=
  f64_parse (str_or (r_duration req) "30").

(** The handler answered with the stored chunk (status 200). *)
Definition accepted (r : Result) : bool :=
  match response r with
  | ChunkResponse _ _ _ _ => true
  | ErrorResponse _ _ => false
  end.

(** [chunksCount] of a session, 0 when there is no such session. *)
Definition countOf (db : DB) (sid : string) : Z :=
  match sessions db !! sid with
  | Some s => chunksCount s
  | None => 0
  end.

(** The indices of a session, read off the list of stored records. *)
Definition indicesIn (sid : string) (l : list (string * AudioChunk)) : list jsnum :=
  chunkIndex <$> filter (λ c, sessionId c = sid) (snd <$> l).

End UploadVocabulary.

Section PlaybackVocabulary.
Context `{F : Float64} `{P : Platform}.
Import Playback.

(** The bytes of a server chunk, empty when it carries no audio data. *)
Definition payload (c : ServerChunk) : list byte :=
  match s_audioData c with
  | Some (String a d) =>
      match atob (String a d) with
      | inr bytes => bytes
      | inl _ => []
      end
  | _ => []
  end.

(** [atob] does not throw on the chunk's audio data. *)
Definition decodes (c : ServerChunk) : bool :=
  match s_audioData c with
  | Some (String a d) =>
      match atob (String a d) with
      | inr _ => true
      | inl _ => false
      end
  | _ => true
  end.

(** What the [map] callback returns for a chunk that decodes. *)
Definition asPlayback (c : ServerChunk) : PlaybackChunk :=
  {| blob := payload c; index := s_chunkIndex c;
     duration := durationOr0 (s_duration c); timestamp := s_timestamp c |}.

(** The stored duration, [0] when the field is null. *)
Definition durationOf (c : ServerChunk) : f64 :=
  default f64_zero (s_duration c).

(** A valid server chunk: its data decodes to at least one byte and its
    duration is positive. *)
Definition validServer (c : ServerChunk) : bool :=
  decodes c
  && bool_decide (0 < length (payload c))%nat
  && f64_pos (durationOf c).

(** The bytes of a locally cached chunk. *)
Definition localPayload (c : IDB.AudioChunkData) : list byte :=
  default [] (IDB.blob c).

(** The byte stream behind [audioUrl], empty when there is none. *)
Definition stream (r : ChunkPlaybackData) : list byte :=
  default [] (audioUrl r).

(** Total length of a list of payloads. *)
Definition totalLength (l : list (list byte)) : nat :=
  foldr (λ p n, (length p + n)%nat) 0%nat l.

End PlaybackVocabulary.

(** The clock and the uploads in flight as the outside world has them
    after [n] sleeps of 500 ms, whatever [stop] does: [Date.now()], and the
    indices whose upload has not finished. *)
Fixpoint clockAfter (env : nat → Recorder.Tick) (now : Z) (n : nat) : Z :=
  match n with
  | O => now
  | S n' => clockAfter env now n' + Recorder.elapsed (env n')
  end.

Fixpoint pendingAfter (env : nat → Recorder.Tick) (pending : gset Z) (n : nat)
  : gset Z :=
  match n with
  | O => pending
  | S n' => pendingAfter env pending n' ∖ list_to_set (Recorder.completed (env n'))
  end.

(** A backend on which every call of one operation goes through. *)
Definition healthy (b : IDB.Backend) (s : IDB.Store) : bool :=
  IDB.available b
  && (IDB.db s || match IDB.open b with IDB.OpenFiresSuccess => true | _ => false end)
  && bool_decide (IDB.transaction b = None)
  && bool_decide (IDB.objectStore b = None)
  && bool_decide (IDB.index b = None)
  && match IDB.request b with IDB.RequestFiresSuccess => true | _ => false end
  && bool_decide (IDB.cursorFailsAt b = None).

(** ** A concrete platform for the examples *)

(** Durations that are whole numbers of seconds. *)
Definition wholeSeconds : Float64.
Proof.
  refine {| f64 := Z;
            f64_zero := 0;
            f64_30 := 30;
            f64_add := Z.add;
            f64_pos := λ x, Z.ltb 0 x;
            f64_truthy := λ x, negb (Z.eqb x 0);
            f64_parse := λ s, match parseInt s with Int z => z | NaN => 0 end |}.
  - intros [|p|p] Hx; [exact Hx|reflexivity|reflexivity].
  - reflexivity.
Defined.

Fixpoint bytesOf (s : string) : list byte :=
  match s with
  | EmptyString => []
  | String a s' => byte_of_ascii a :: bytesOf s'
  end.

Fixpoint textOf (l : list byte) : string :=
  match l with
  | [] => EmptyString
  | b :: l' => String (ascii_of_byte b) (textOf l')
  end.

Fixpoint hasBang (s : string) : bool :=
  match s with
  | EmptyString => false
  | String a s' => Ascii.eqb a "!"%char || hasBang s'
  end.

(** A stand-in for the library calls: every device id of 36 characters is
    a UUID, and the text encoding of a payload is its bytes read as
    characters ([atob] refuses a text that contains an exclamation mark). *)
Definition plainPlatform : Platform :=
  {| uuid_ok := λ s, Nat.eqb (String.length s) 36;
     toBase64 := textOf;
     fromBase64 := bytesOf;
     atob := λ s,
       if hasBang s
       then inl (mkThrown true "The string to be decoded is not correctly encoded.")
       else inr (bytesOf s) |}.

(** ** Example data *)

Section ExampleData.
#[local] Existing Instance wholeSeconds.
#[local] Existing Instance plainPlatform.

Definition exampleDevice : string := "de582fec-6a50-4d73-89fd-86663ea0230c".

(** A store with one user and one session that has no chunk yet. *)
Definition emptySessionDb : Upload.DB :=
  {| Upload.users := {[ exampleDevice := "u1" ]};
     Upload.sessions := {[ "s1" := Upload.mkSession "u1" 0 ]};
     Upload.audioChunks := ∅ |}.

Definition uploadOf (index : string) (bytes : string) (seconds : string)
  : Upload.Request :=
  {| Upload.r_sessionId := "s1";
     Upload.r_chunk := Some (bytesOf bytes);
     Upload.r_chunkIndex := Some index;
     Upload.r_duration := Some seconds;
     Upload.r_deviceId := Some exampleDevice;
     Upload.r_transcript := None |}.

(** The store after chunks 0, 1 and 2 were uploaded in order. *)
Definition threeChunksDb : Upload.DB :=
  Upload.db_after
    (Upload.POST 3 (Upload.db_after
       (Upload.POST 2 (Upload.db_after
          (Upload.POST 1 emptySessionDb (uploadOf "0" "aaaa" "30")))
          (uploadOf "1" "bbbb" "30")))
       (uploadOf "2" "cc" "12")).

(** A session whose only chunk has duration 0 and four bytes of audio. *)
Definition zeroDurationDb : Upload.DB :=
  Upload.db_after (Upload.POST 1 emptySessionDb (uploadOf "0" "aaaa" "0")).

(** A recording of one chunk that lasted five seconds: the copy in the
    local store, and the record the server returns. *)
Definition fiveSecondsLocal : IDB.Store :=
  {| IDB.db := true;
     IDB.audioChunks :=
       {[ "s1-0" := IDB.mkAudioChunkData "s1-0" "s1" 0 (Some (bytesOf "aaaa")) 1 ]};
     IDB.recordingState := ∅ |}.

Definition fiveSecondsServer : list Playback.ServerChunk :=
  [Playback.mkServerChunk 0 (Some 5) 1 (Some "aaaa")].

(** A local store with chunks 1 and 0. *)
Definition twoChunksLocal : IDB.Store :=
  {| IDB.db := false;
     IDB.audioChunks :=
       {[ "s1-1" := IDB.mkAudioChunkData "s1-1" "s1" 1 (Some (bytesOf "bb")) 2;
          "s1-0" := IDB.mkAudioChunkData "s1-0" "s1" 0 (Some (bytesOf "aaaa")) 1 ]};
     IDB.recordingState := ∅ |}.

Definition workingBackend : IDB.Backend :=
  {| IDB.available := true;
     IDB.open := IDB.OpenFiresSuccess;
     IDB.transaction := None;
     IDB.objectStore := None;
     IDB.index := None;
     IDB.request := IDB.RequestFiresSuccess;
     IDB.cursorFailsAt := None |}.

(** A browser whose [put], [getAll] and [openCursor] raise. *)
Definition throwingBackend : IDB.Backend :=
  {| IDB.available := true;
     IDB.open := IDB.OpenFiresSuccess;
     IDB.transaction := None;
     IDB.objectStore := None;
     IDB.index := None;
     IDB.request := IDB.RequestThrows (mkThrown true "DataCloneError");
     IDB.cursorFailsAt := None |}.

(** A browser without [IDBIndex.getAll] (IndexedDB 1.0): the call raises
    a [TypeError] inside the promise executor. *)
Definition withoutGetAll : IDB.Backend :=
  {| IDB.available := true;
     IDB.open := IDB.OpenFiresSuccess;
     IDB.transaction := None;
     IDB.objectStore := None;
     IDB.index := None;
     IDB.request := IDB.RequestThrows (mkThrown true "index.getAll is not a function");
     IDB.cursorFailsAt := None |}.

(** A browser whose requests fire [error]. *)
Definition requestFails : IDB.Backend :=
  {| IDB.available := true;
     IDB.open := IDB.OpenFiresSuccess;
     IDB.transaction := None;
     IDB.objectStore := None;
     IDB.index := None;
     IDB.request := IDB.RequestFiresError;
     IDB.cursorFailsAt := None |}.

Definition firstUpload : Upload.Request := uploadOf "0" "aaaa" "30".
Definition retryUpload : Upload.Request := uploadOf "0" "zzzz" "29".
Definition nanUpload : Upload.Request := uploadOf "abc" "aaaa" "30".
Definition negativeUpload : Upload.Request := uploadOf "-3" "aaaa" "30".

(** A first chunk whose index lies below the range of the column. *)
Definition belowColumnUpload : Upload.Request := uploadOf "-2147483649" "aaaa" "30".

(** A hook in the middle of a recording with one upload in flight, a
    persisted state for the session, and a clock that advances by 500 ms
    per sleep while the upload never finishes. *)
Definition recordingHook : Recorder.Hook :=
  {| Recorder.recorderRef := Some (Resolved (Some (bytesOf "final")));
     Recorder.sessionIdRef := Some "s1";
     Recorder.pendingChunksRef := {[ 7 ]} |}.

Definition recordingStore : IDB.Store :=
  {| IDB.db := true;
     IDB.audioChunks := ∅;
     IDB.recordingState :=
       {[ "s1" := IDB.mkRecordingState "s1" true false 0 0 0 8 IDB.mic ]} |}.

Definition stuckUpload : nat → Recorder.Tick :=
  λ _, Recorder.mkTick 500 [].

Definition serverChunk (i seconds : Z) (data : string) : Playback.ServerChunk :=
  Playback.mkServerChunk i (Some seconds) i (Some data).

(** Chunks 0, 1 and 3 of a session, and the order in which a fetch
    returned them. *)
Definition chunk0 : Playback.ServerChunk := serverChunk 0 30 "aaaa".
Definition chunk1 : Playback.ServerChunk := serverChunk 1 30 "bbb".
Definition chunk3 : Playback.ServerChunk := serverChunk 3 12 "cc".
Definition placeholder : Playback.ServerChunk := serverChunk 2 0 "xx".
Definition fetchedOutOfOrder : list Playback.ServerChunk := [chunk3; chunk0; chunk1].

Definition localOnly (s : IDB.Store) (fetched : Playback.FetchOutcome) : Playback.Env :=
  {| Playback.indexedDB := λ sid, fst (IDB.getChunks workingBackend s sid);
     Playback.server := λ _, fetched |}.

(** Two stored records: one with audio and duration 0, one without
    audio data. *)
Definition stored0 : Upload.AudioChunk :=
  Upload.mkAudioChunk "s1-0" "s1" (Int 0) (Some "aaaa") 0 None 1 1.
Definition storedNoAudio : Upload.AudioChunk :=
  Upload.mkAudioChunk "s1-1" "s1" (Int 1) None 30 None 2 2.

Definition emptyLocal : IDB.Store :=
  {| IDB.db := false; IDB.audioChunks := ∅; IDB.recordingState := ∅ |}.

Definition local0 : IDB.AudioChunkData :=
  IDB.mkAudioChunkData "s1-0" "s1" 0 (Some (bytesOf "aaaa")) 1.
Definition local1 : IDB.AudioChunkData :=
  IDB.mkAudioChunkData "s1-1" "s1" 1 (Some (bytesOf "bb")) 2.
Definition localEmptyBlob : IDB.AudioChunkData :=
  IDB.mkAudioChunkData "s1-2" "s1" 2 (Some []) 3.

(** The local store [s] behind the backend [b], and a server that answers
    every fetch with [fetched]. *)
Definition localBehind (b : IDB.Backend) (s : IDB.Store)
    (fetched : Playback.FetchOutcome) : Playback.Env :=
  {| Playback.indexedDB := λ sid, fst (IDB.getChunks b s sid);
     Playback.server := λ _, fetched |}.

(** An environment that answers [getChunks] with a fixed list. *)
Definition answering (l : list IDB.AudioChunkData) (fetched : Playback.FetchOutcome)
  : Playback.Env :=
  {| Playback.indexedDB := λ _, Resolved (IDB.mkChunksResult l None);
     Playback.server := λ _, fetched |}.

End ExampleData.

(** ** Further functions of the same files *)

(** How the recorder hook prints a double.  Nothing is assumed about the
    digits that come out. *)
Class Float64Text `{F : Float64} := {
  f64_toString : f64 → string;          (* [`${x}`] *)
  f64_toFixed : nat → f64 → string;     (* [x.toFixed(n)] *)
}.

(** [getExpectedNextChunkIndex] of [lib/chunk-validation.ts] *)
Module ChunkValidation.

(** [Math.max(...xs)] for a list with first element [x]. *)
Definition mathMax (x : Z) (xs : list Z) : Z := fold_left Z.max xs x.

Definition getExpectedNextChunkIndex (existingIndices : list Z) : Z :=
  match existingIndices with
  | [] => 0
  | x :: xs => mathMax x xs + 1
  end.

End ChunkValidation.

Section UploadInvariants.
Context `{F : Float64} `{P : Platform}.
Import Upload.

(** Every session row counts the chunks stored for it. *)
Definition countsMatch (db : DB) : Prop :=
  ∀ sid s, sessions db !! sid = Some s →
           chunksCount s = Z.of_nat (length (sessionChunks db sid)).

(** Every chunk record sits under its own [id], which is the id derived
    from its session and index. *)
Definition wellKeyed (db : DB) : Prop :=
  ∀ k c, audioChunks db !! k = Some c →
         id c = k ∧ k = chunkId (sessionId c) (chunkIndex c).

(** Requests served one after the other; the clock advances by one per
    request. *)
Fixpoint serve (now : Z) (db : DB) (reqs : list Request) : list Response * DB :=
  match reqs with
  | [] => ([], db)
  | req :: reqs' =>
      let r := POST now db req in
      let '(rs, db') := serve (now + 1) (db_after r) reqs' in
      (response r :: rs, db')
  end.

End UploadInvariants.

(** ** [GET /api/sessions/[id]/chunks]: the chunk list *)

Module ChunkList.
Section Route.
Context `{F : Float64} `{P : Platform}.

(** One element of the [chunks] array of the response. *)
Record Listed := mkListed {
  l_id : string;
  l_chunkIndex : jsnum;
  l_duration : f64;
  l_timestamp : Z;
  l_audioData : option string;
  l_transcript : option string;
}.

Definition listed (chunk : Upload.AudioChunk) : Listed :=
  {| l_id := Upload.id chunk;
     l_chunkIndex := Upload.chunkIndex chunk;
     l_duration := Upload.duration chunk;
     l_timestamp := Upload.timestamp chunk;
     l_audioData := Upload.audioData chunk;
     l_transcript := Upload.transcript chunk |}.

Inductive Step : Type :=
  | Reply (status : Z) (error : string)
  | Chunks (chunks : list Listed).

(** The handler; as for the upload, a failing database (status 500) is
    outside the model. *)
Definition GET (db : Upload.DB) (sessionId : string) (deviceId : option string)
  : Step :=
  match or_null deviceId with
  | None => Reply 400 "deviceId query parameter is required"
  | Some deviceId =>
      if negb (uuid_ok deviceId) then Reply 400 "Invalid device ID format"
      else
        match Upload.users db !! deviceId with
        | None => Reply 404 "User not found"
        | Some user =>
            match Upload.findSession db sessionId user with
            | None => Reply 404 "Session not found"
            | Some _ =>
                let chunks := Transcribe.orderAsc (Upload.sessionChunks db sessionId) in
                Chunks (listed <$> chunks)
            end
        end
  end.

End Route.
End ChunkList.

(** ** [PUT /api/sessions/[id]/chunks/[chunkIndex]/transcript] *)

Module TranscriptUpdate.
Section Route.
Context `{F : Float64} `{P : Platform}.

(** [s.trim()], for the white space [isWhite] knows. *)
Fixpoint trimEnd (s : string) : string :=
  match s with
  | EmptyString => EmptyString
  | String a s' =>
      match trimEnd s' with
      | EmptyString => if isWhite a then EmptyString else String a EmptyString
      | String b t => String a (String b t)
      end
  end.

Definition trim (s : string) : string := trimEnd (skipWhite s).

Inductive Response : Type :=
  | ErrorResponse (status : Z) (error : string)
  | Updated (cid : string) (index : jsnum) (text : option string).

(** The chunk table after the call and the [transcript] column of the
    sessions table, which is kept beside it (session id to text).  The
    handler's console output is not modelled. *)
Record Result := mkResult {
  response : Response;
  db_after : Upload.DB;
  texts_after : gmap string string;
}.

Definition hasTranscript (c : Upload.AudioChunk) : bool :=
  match Upload.transcript c with Some _ => true | None => false end.

(** [allChunks.map(...).filter(...).join(' ').trim()] over the chunks of
    the session that have a transcript, in ascending index order. *)
Definition mergedTranscript (db : Upload.DB) (sessionId : string) : string :=
  let allChunks :=
    Transcribe.orderAsc
      (filter (λ c, hasTranscript c) (Upload.sessionChunks db sessionId)) in
  trim (String.concat " " (omap Upload.transcript allChunks)).

Definition PUT (now : Z) (db : Upload.DB) (texts : gmap string string)
    (sessionId chunkIndexStr : string) (transcript deviceId : option string)
  : Result :=
  match or_null transcript, or_null deviceId with
  | Some transcript, Some deviceId =>
      if negb (uuid_ok deviceId) then
        mkResult (ErrorResponse 400 "Invalid device ID format") db texts
      else
        let chunkIndex := parseInt chunkIndexStr in
        if isNaN chunkIndex then
          mkResult (ErrorResponse 400 "Invalid chunk index") db texts
        else
          match Upload.users db !! deviceId with
          | None => mkResult (ErrorResponse 404 "User not found") db texts
          | Some user =>
              match Upload.findSession db sessionId user with
              | None => mkResult (ErrorResponse 404 "Session not found") db texts
              | Some _ =>
                  let chunkId := Upload.chunkId sessionId chunkIndex in
                  match Upload.audioChunks db !! chunkId with
                  | None => mkResult (ErrorResponse 404 "Chunk not found") db texts
                  | Some existingChunk =>
                      let updatedChunk :=
                        {| Upload.id := Upload.id existingChunk;
                           Upload.sessionId := Upload.sessionId existingChunk;
                           Upload.chunkIndex := Upload.chunkIndex existingChunk;
                           Upload.audioData := Upload.audioData existingChunk;
                           Upload.duration := Upload.duration existingChunk;
                           Upload.transcript := Some transcript;
                           Upload.timestamp := Upload.timestamp existingChunk;
                           Upload.updatedAt := now |} in
                      let db1 :=
                        {| Upload.users := Upload.users db;
                           Upload.sessions := Upload.sessions db;
                           Upload.audioChunks :=
                             <[chunkId := updatedChunk]> (Upload.audioChunks db) |} in
                      let merged := mergedTranscript db1 sessionId in
                      mkResult
                        (Updated (Upload.id updatedChunk) (Upload.chunkIndex updatedChunk)
                           (Upload.transcript updatedChunk))
                        db1
                        (if truthy (Some merged) then <[sessionId := merged]> texts
                         else texts)
                  end
              end
          end
  | _, _ => mkResult (ErrorResponse 400 "Missing required fields: transcript, deviceId")
                     db texts
  end.

End Route.
End TranscriptUpdate.

(** ** [hooks/useAudioRecorder.ts]: the [handleChunk] callback *)

Module Capture.
Section HandleChunk.
Context `{F : Float64} `{T : !Float64Text} `{P : Platform}.

(** How [await fetch(url, { method: 'POST', body })] settles. *)
Inductive UploadOutcome : Type :=
  | FetchRejects (e : Thrown)
  | Responded (ok : bool) (statusText : string).

Inductive Toast : Type :=
  | ToastError (title description : string)
  | ToastSuccess (title description : string).

Record Handled := mkHandled {
  hook : Recorder.Hook;
  store : IDB.Store;
  sent : option Upload.Request;          (* the request given to [fetch] *)
  console : list ConsoleLine;
  toasts : list Toast;
}.

(** The form and the URL of the upload, as the route will read them. *)
Definition chunkRequest (sessionId deviceId : string) (chunk : list byte)
    (index : Z) (duration : f64) : Upload.Request :=
  {| Upload.r_sessionId := sessionId;
     Upload.r_chunk := Some chunk;
     Upload.r_chunkIndex := Some (show (Int index));
     Upload.r_duration := Some (f64_toFixed 2 duration);
     Upload.r_deviceId := Some deviceId;
     Upload.r_transcript := None |}.

Definition localRecord (sessionId : string) (chunk : list byte) (index now : Z)
  : IDB.AudioChunkData :=
  {| IDB.id := sessionId +:+ "-" +:+ show (Int index);
     IDB.sessionId := sessionId;
     IDB.chunkIndex := index;
     IDB.blob := Some chunk;
     IDB.timestamp := now |}.

(** [error instanceof Error ? error.message : 'Unknown error'] *)
Definition describe (e : Thrown) : string :=
  if isError e then message e else "Unknown error".

(** What the [catch] clause does. *)
Definition caught (index : Z) (e : Thrown) : list ConsoleLine * list Toast :=
  ([ConsoleError "Error handling chunk:"],
   [ToastError ("Error processing chunk " +:+ show (Int (index + 1))) (describe e)]).

(** [handleChunk].  [now] is [Date.now()], [deviceId] the value of
    [getDeviceId()], [server] the answer of [fetch] to the request.  The
    call is followed from its start to its [finally] block; calls that
    overlap in time are not modelled.  Of a console call the first
    argument is kept. *)
Definition handleChunk (b : IDB.Backend) (now : Z) (deviceId : string)
    (server : Upload.Request → UploadOutcome)
    (h : Recorder.Hook) (s : IDB.Store)
    (chunk : list byte) (index : Z) (duration : f64) : Handled :=
  match or_null (Recorder.sessionIdRef h) with
  | None =>
      mkHandled h s None
        [ConsoleError ("[useAudioRecorder] Cannot process chunk " +:+ show (Int index)
                         +:+ ": sessionId is null. Skipping chunk.")]
        []
  | Some sessionId =>
      let processing :=
        ConsoleLog ("[useAudioRecorder] Processing chunk " +:+ show (Int index)
                      +:+ " for session " +:+ sessionId +:+ ", duration: "
                      +:+ f64_toString duration +:+ "s") in
      let pending := {[index]} ∪ Recorder.pendingChunksRef h in
      let finally (s' : IDB.Store) (req : option Upload.Request)
          (out : list ConsoleLine * list Toast) : Handled :=
        mkHandled
          {| Recorder.recorderRef := Recorder.recorderRef h;
             Recorder.sessionIdRef := Recorder.sessionIdRef h;
             Recorder.pendingChunksRef := pending ∖ {[index]} |}
          s' req (processing :: fst out) (snd out) in
      match IDB.storeChunk b s (localRecord sessionId chunk index now) with
      | (Rejected e, s1) => finally s1 None (caught index e)
      | (Resolved storeResult, s1) =>
          let warned :=
            if negb (IDB.success storeResult)
            then [ConsoleWarn "IndexedDB storage failed, using server-only:"]
            else [] in
          let uploading :=
            ConsoleLog ("[useAudioRecorder] Uploading chunk " +:+ show (Int index)
                          +:+ " to server (without transcript)...") in
          let req := chunkRequest sessionId deviceId chunk index duration in
          match server req with
          | FetchRejects e =>
              let '(out, ts) := caught index e in
              finally s1 (Some req) ((warned ++ uploading :: out)%list, ts)
          | Responded false statusText =>
              finally s1 (Some req)
                ((warned ++ [uploading; ConsoleError "Failed to upload chunk:"])%list,
                 [ToastError ("Chunk " +:+ show (Int (index + 1)) +:+ " upload failed")
                    statusText])
          | Responded true _ =>
              finally s1 (Some req)
                ((warned ++
                  [uploading;
                   ConsoleLog ("[useAudioRecorder] Chunk " +:+ show (Int index)
                                 +:+ " uploaded successfully (transcription will be done on-demand)")])%list,
                 if bool_decide (index < 3)
                 then [ToastSuccess ("Chunk " +:+ show (Int (index + 1)) +:+ " saved")
                         (f64_toFixed 1 duration +:+ "s of audio uploaded")]
                 else [])
          end
      end
  end.

End HandleChunk.
End Capture.

(** ** [hooks/useChunkPlayback.ts]: [loadChunks] *)

Module PlaybackHook.
Section LoadChunks.
Context `{F : Float64} `{P : Platform}.

(** The five state variables of the hook. *)
Record State := mkState {
  chunks : list Playback.PlaybackChunk;
  audioUrl : option (list byte);
  totalDuration : f64;
  isLoading : bool;
  error : option string;
}.

Definition failedWith (msg : option string) : State :=
  {| chunks := []; audioUrl := None; totalDuration := f64_zero;
     isLoading := false; error := msg |}.

(** The state after [loadChunks] has run to its [finally] block, from
    the way [getChunksForPlayback] settled.  Every state variable is set
    on the way, so the state before the call does not matter. *)
Definition loadChunks (result : Outcome Playback.ChunkPlaybackData) : State :=
  match result with
  | Rejected err =>
      failedWith (Some (if isError err then message err else "Failed to load chunks"))
  | Resolved result =>
      if truthy (Playback.error result) then failedWith (Playback.error result)
      else
        {| chunks := Playback.chunks result;
           audioUrl := Playback.audioUrl result;
           totalDuration := Playback.totalDuration result;
           isLoading := false;
           error := None |}
  end.

End LoadChunks.
End PlaybackHook.

(** ** More vocabulary and example data *)

(** The local store is keyed by the [id] of its records (the key path of
    the object store). *)
Definition keyedById (s : IDB.Store) : Prop :=
  ∀ k c, IDB.audioChunks s !! k = Some c → IDB.id c = k.

(** What a client reads out of one element of the chunk list.  The index
    column holds integers; a NaN would be serialised as [null], which the
    subtraction of the sort reads as 0. *)
Section Wire.
Context `{F : Float64} `{P : Platform}.

Definition onWire (l : ChunkList.Listed) : Playback.ServerChunk :=
  {| Playback.s_chunkIndex :=
       match ChunkList.l_chunkIndex l with Int z => z | NaN => 0 end;
     Playback.s_duration := Some (ChunkList.l_duration l);
     Playback.s_timestamp := ChunkList.l_timestamp l;
     Playback.s_audioData := ChunkList.l_audioData l |}.

End Wire.

Fixpoint zeros (n : nat) : string :=
  match n with
  | O => EmptyString
  | S n' => String "0" (zeros n')
  end.

(** Whole seconds are printed without a fraction, or with a fraction of
    zeros. *)
Definition secondsText (n : nat) (x : Z) : string :=
  match n with
  | O => pretty x
  | S _ => pretty x +:+ "." +:+ zeros n
  end.

Definition wholeSecondsText : @Float64Text wholeSeconds.
Proof.
  split.
  - exact (secondsText 0).
  - exact secondsText.
Defined.

Section MoreExampleData.
#[local] Existing Instance wholeSeconds.
#[local] Existing Instance wholeSecondsText.
#[local] Existing Instance plainPlatform.

(** A second user with a session of their own, beside the first. *)
Definition otherDevice : string := "0b0e7a4e-52f7-4c3e-9d0b-7f1d2c9a4b10".

Definition twoUsersDb : Upload.DB :=
  {| Upload.users := {[ exampleDevice := "u1"; otherDevice := "u2" ]};
     Upload.sessions := {[ "s1" := Upload.mkSession "u1" 0;
                           "s2" := Upload.mkSession "u2" 0 ]};
     Upload.audioChunks := ∅ |}.

(** The second user sends a chunk to the first user's session. *)
Definition foreignUpload : Upload.Request :=
  {| Upload.r_sessionId := "s1";
     Upload.r_chunk := Some (bytesOf "zz");
     Upload.r_chunkIndex := Some "0";
     Upload.r_duration := Some "30";
     Upload.r_deviceId := Some otherDevice;
     Upload.r_transcript := None |}.

(** A browser without IndexedDB. *)
Definition noIndexedDB : IDB.Backend :=
  {| IDB.available := false;
     IDB.open := IDB.OpenFiresError;
     IDB.transaction := None;
     IDB.objectStore := None;
     IDB.index := None;
     IDB.request := IDB.RequestFiresError;
     IDB.cursorFailsAt := None |}.

(** A browser whose cursor fails after the first record. *)
Definition cursorBreaks : IDB.Backend :=
  {| IDB.available := true;
     IDB.open := IDB.OpenFiresSuccess;
     IDB.transaction := None;
     IDB.objectStore := None;
     IDB.index := None;
     IDB.request := IDB.RequestFiresSuccess;
     IDB.cursorFailsAt := Some 1%nat |}.

(** A hook that has a session and nothing in flight. *)
Definition idleHook : Recorder.Hook :=
  {| Recorder.recorderRef := Some (Resolved (Some (bytesOf "final")));
     Recorder.sessionIdRef := Some "s1";
     Recorder.pendingChunksRef := ∅ |}.

(** A server that runs the upload handler on a fixed database. *)
Definition answeringWith (db : Upload.DB) (req : Upload.Request)
  : Capture.UploadOutcome :=
  Capture.Responded (accepted (Upload.POST 1 db req)) EmptyString.

End MoreExampleData.

(** ** Orders on stored chunks *)

Section IndexOrder.
Context `{F : Float64} `{P : Platform}.

(** The order of the [chunkIndex] column, on records and on list
    elements. *)
Definition indexLe (a b : Upload.AudioChunk) : Prop :=
  Upload.db_le (Upload.chunkIndex a) (Upload.chunkIndex b) = true.

Definition listedLe (a b : ChunkList.Listed) : Prop :=
  Upload.db_le (ChunkList.l_chunkIndex a) (ChunkList.l_chunkIndex b) = true.

(** The record under the id a request derives, if there is one, belongs
    to the session of the request. *)
Definition ownRecord (db : Upload.DB) (req : Upload.Request) : Prop :=
  ∀ o, Upload.audioChunks db !! requestId req = Some o →
       Upload.sessionId o = Upload.r_sessionId req.

End IndexOrder.

Section UploadedPrefix.
Context `{F : Float64} `{P : Platform}.
Import Upload.

(** The session holds exactly the chunks [0 .. k-1], each with the audio
    and the duration of the request [sent] names for its index, and no
    record sits under the id of a later index. *)
Definition holdsPrefix (db : DB) (sid : string) (sent : Z → Request) (k : Z) : Prop :=
  lastChunkIndex db sid = (if bool_decide (k = 0) then None else Some (Int (k - 1)))
  ∧ (∀ i, k ≤ i → audioChunks db !! chunkId sid (Int i) = None)
  ∧ (∀ i, 0 ≤ i < k →
       ∃ c, audioChunks db !! chunkId sid (Int i) = Some c
            ∧ audioData c = Some (requestPayload (sent i))
            ∧ duration c = requestDuration (sent i)
            ∧ chunkIndex c = Int i
            ∧ sessionId c = sid)
  ∧ (∀ c, c ∈ sessionChunks db sid →
       ∃ i, 0 ≤ i < k ∧ audioChunks db !! chunkId sid (Int i) = Some c).

(** The chunk of a request survives the way to the player: its base64
    text is not empty and decodes to the bytes, there is at least one
    byte, and the duration the handler parses is positive. *)
Definition survives (req : Request) (bytes : list byte) : Prop :=
  requestPayload req ≠ EmptyString
  ∧ atob (requestPayload req) = inr bytes
  ∧ bytes ≠ []
  ∧ f64_pos (requestDuration req) = true.

End UploadedPrefix.

(** ** Facts about the sort *)

Section SortFacts.
Context {A : Type}.

Lemma sortInsert_perm (cmp : A → A → Z) x l : sortInsert cmp x l ≡ₚ x :: l.
Proof.
  induction l as [|y l IH]; simpl; [reflexivity|].
  case_bool_decide; [reflexivity|].
  rewrite IH. apply perm_swap.
Qed.

Lemma jsSort_perm (cmp : A → A → Z) l : jsSort cmp l ≡ₚ l.
Proof.
  induction l as [|x l IH]; simpl; [reflexivity|].
  rewrite sortInsert_perm, IH. reflexivity.
Qed.

Lemma jsSort_length (cmp : A → A → Z) l : length (jsSort cmp l) = length l.
Proof. apply Permutation_length, jsSort_perm. Qed.

Context (key : A → Z).

Lemma sortInsert_sorted x l :
  StronglySorted (keyLe key) l →
  StronglySorted (keyLe key) (sortInsert (λ a b, key a - key b) x l).
Proof.
  induction 1 as [|y l Hs IH Hy]; simpl.
  - repeat constructor.
  - case_bool_decide as Hc.
    + constructor; [constructor; assumption|].
      constructor; [unfold keyLe; lia|].
      eapply Forall_impl; [exact Hy|]. unfold keyLe. intros; lia.
    + constructor; [exact IH|].
      rewrite sortInsert_perm. constructor; [unfold keyLe; lia|exact Hy].
Qed.

Lemma jsSort_sorted l : StronglySorted (keyLe key) (jsSort (λ a b, key a - key b) l).
Proof.
  induction l as [|x l IH]; simpl; [constructor|].
  apply sortInsert_sorted, IH.
Qed.

Lemma keyLt_NoDup l : StronglySorted (keyLt key) l → NoDup (key <$> l).
Proof.
  induction 1 as [|x l _ IH Hx]; simpl; constructor; [|exact IH].
  rewrite list_elem_of_fmap. intros (y & Hk & Hy).
  rewrite Forall_forall in Hx. specialize (Hx y Hy). unfold keyLt in Hx. lia.
Qed.

Lemma keyLe_strict l :
  StronglySorted (keyLe key) l → NoDup (key <$> l) → StronglySorted (keyLt key) l.
Proof.
  induction 1 as [|x l _ IH Hx]; simpl; intros Hnd; [constructor|].
  apply NoDup_cons in Hnd as [Hnotin Hnd].
  constructor; [apply IH, Hnd|].
  rewrite Forall_forall in Hx |- *. intros y Hy. specialize (Hx y Hy).
  unfold keyLe in Hx. unfold keyLt.
  assert (key x ≠ key y); [|lia].
  intros Heq. apply Hnotin. rewrite Heq. apply list_elem_of_fmap. eauto.
Qed.

Lemma keyLt_antisymm : AntiSymm (=) (keyLt key).
Proof. intros a b Hab Hba. unfold keyLt in *. lia. Qed.

(** Whatever the order of arrival, the sort returns the one list that
    is strictly ascending in the key. *)
Lemma jsSort_ordered fetched ordered :
  fetched ≡ₚ ordered →
  StronglySorted (keyLt key) ordered →
  jsSort (λ a b, key a - key b) fetched = ordered.
Proof.
  intros Hp Hs.
  apply (@StronglySorted_unique _ (keyLt key) keyLt_antisymm); [|exact Hs|].
  - apply keyLe_strict; [apply jsSort_sorted|].
    rewrite jsSort_perm, Hp. apply keyLt_NoDup, Hs.
  - rewrite jsSort_perm. exact Hp.
Qed.

End SortFacts.

(** ** Facts about the upload handler *)

Section UploadFacts.
Context `{F : Float64} `{P : Platform}.
Import Upload.

Lemma db_max_comm a b : db_max a b = db_max b a.
Proof.
  destruct a, b; unfold db_max; simpl; try reflexivity.
  repeat case_bool_decide; try reflexivity; f_equal; lia.
Qed.

Lemma db_max_assoc a b c : db_max a (db_max b c) = db_max (db_max a b) c.
Proof.
  destruct a, b, c; unfold db_max; simpl; try reflexivity;
    repeat (case_bool_decide; simpl); try reflexivity; try lia.
Qed.

Lemma lastOf_cons x l :
  lastOf (x :: l) = Some (match lastOf l with None => x | Some m => db_max x m end).
Proof. reflexivity. Qed.

Lemma lastOf_perm l l' : l ≡ₚ l' → lastOf l = lastOf l'.
Proof.
  induction 1 as [|x l l' _ IH|x y l|l l' l'' _ IH1 _ IH2].
  - reflexivity.
  - rewrite !lastOf_cons, IH. reflexivity.
  - rewrite !lastOf_cons. destruct (lastOf l) as [m|]; f_equal.
    + rewrite !db_max_assoc. f_equal. apply db_max_comm.
    + apply db_max_comm.
  - congruence.
Qed.

Lemma lastOf_None l : lastOf l = None ↔ l = [].
Proof. destruct l; simpl; split; congruence. Qed.


Lemma POST_guarded now db req :
  passesGuards db req = true →
  POST now db req =
    match checkSequence (r_sessionId req) (lastChunkIndex db (r_sessionId req))
            (requestIndex req) with
    | (Some err, out) => mkResult (ErrorResponse 400 err) db out
    | (None, out) =>
        let '(c, db') :=
          upsert now db (r_sessionId req) (requestIndex req) (requestPayload req)
            (requestDuration req) (r_transcript req) in
        mkResult (summary c) db' out
    end.
Proof.
  unfold passesGuards, POST, requestIndex, requestPayload, requestDuration.
  destruct (r_chunk req) as [chunk|]; [|discriminate].
  destruct (r_chunkIndex req) as [[|a s]|]; simpl; try discriminate.
  destruct (or_null (r_deviceId req)) as [dev|]; [|discriminate].
  destruct (uuid_ok dev); simpl; [|discriminate].
  destruct (users db !! dev) as [user|]; [|discriminate].
  intros Hs. apply bool_decide_eq_true in Hs. destruct Hs as [x ->].
  reflexivity.
Qed.



Lemma checkSequence_first sid idx :
  checkSequence sid None idx =
    (if js_gt idx (Int 5) then Some (firstChunkError idx) else None, []).
Proof.
  unfold checkSequence, js_gt. destruct idx as [|i]; simpl; [reflexivity|].
  repeat (case_bool_decide; simpl); try reflexivity; lia.
Qed.

(** What [upsert] leaves under the derived id. *)
Lemma upsert_lookup now db sid idx data dur text :
  ∃ c, fst (upsert now db sid idx data dur text) = c
       ∧ audioChunks (snd (upsert now db sid idx data dur text)) !! chunkId sid idx = Some c
       ∧ audioData c = Some data ∧ duration c = dur.
Proof.
  unfold upsert. destruct (audioChunks db !! chunkId sid idx) as [o|]; simpl;
    eexists; (split; [reflexivity|]); rewrite lookup_insert_eq; auto.
Qed.


(** The two ways out of the handler once the guards are passed. *)
Lemma POST_cases now db req :
  passesGuards db req = true →
  let chk := checkSequence (r_sessionId req) (lastChunkIndex db (r_sessionId req))
               (requestIndex req) in
  let up := upsert now db (r_sessionId req) (requestIndex req) (requestPayload req)
              (requestDuration req) (r_transcript req) in
  (∃ err, fst chk = Some err
          ∧ POST now db req = mkResult (ErrorResponse 400 err) db (snd chk))
  ∨ (fst chk = None
     ∧ POST now db req = mkResult (summary (fst up)) (snd up) (snd chk)).
Proof.
  intros Hg chk up. rewrite (POST_guarded now db req Hg).
  fold chk. fold up. destruct chk as [[err|] out]; simpl.
  - left. eauto.
  - right. destruct up. auto.
Qed.




Lemma guards_session db req :
  passesGuards db req = true → ∃ s, sessions db !! r_sessionId req = Some s.
Proof.
  unfold passesGuards, findSession.
  destruct (r_chunk req); [|discriminate].
  destruct (or_null (r_chunkIndex req)); [|discriminate].
  destruct (or_null (r_deviceId req)) as [dev|]; [|discriminate].
  destruct (uuid_ok dev); [|discriminate]. simpl.
  destruct (users db !! dev); [|discriminate].
  destruct (sessions db !! r_sessionId req) as [ss|]; [eauto|].
  intros Hx. apply bool_decide_eq_true in Hx. destruct Hx. discriminate.
Qed.

Lemma countOf_increment db sid ss :
  sessions db !! sid = Some ss →
  ∀ us cs,
    countOf (mkDB us (alter incrementChunksCount sid (sessions db)) cs) sid
    = countOf db sid + 1.
Proof.
  intros Hs us cs. unfold countOf. simpl.
  rewrite lookup_alter_eq, Hs. reflexivity.
Qed.

(** The typed handler once the guards are passed. *)
Lemma typed_POST_guarded now db req :
  passesGuards db req = true →
  UploadRoute.POST now db req =
    match checkSequence (r_sessionId req) (lastChunkIndex db (r_sessionId req))
            (requestIndex req) with
    | (Some err, out) => mkResult (ErrorResponse 400 err) db out
    | (None, out) =>
        match audioChunks db !! requestId req with
        | Some existing =>
            let '(c, db') :=
              UploadRoute.update now db (requestId req) existing (requestPayload req)
                (requestDuration req) (r_transcript req) in
            mkResult (summary c) db' out
        | None =>
            match UploadRoute.create now db (r_sessionId req) (requestIndex req)
                    (requestPayload req) (requestDuration req) (r_transcript req) with
            | Some (c, db') =>
                mkResult (summary c) (UploadRoute.countChunk db' (r_sessionId req)) out
            | None => UploadRoute.uploadFailed db out
            end
        end
    end.
Proof.
  unfold passesGuards, UploadRoute.POST, requestId, requestIndex, requestPayload,
    requestDuration.
  destruct (r_chunk req) as [chunk|]; [|discriminate].
  destruct (r_chunkIndex req) as [[|a s]|]; simpl; try discriminate.
  destruct (or_null (r_deviceId req)) as [dev|]; [|discriminate].
  destruct (uuid_ok dev); simpl; [|discriminate].
  destruct (users db !! dev) as [user|]; [|discriminate].
  intros Hs. apply bool_decide_eq_true in Hs. destruct Hs as [x ->].
  reflexivity.
Qed.

(** On the typed table the handler does what [Upload.POST] does, unless
    it has to create a record whose index the column cannot hold. *)
Lemma typed_POST_agrees now db req :
  UploadRoute.intColumn (requestIndex req) = true
  ∨ is_Some (audioChunks db !! requestId req) →
  UploadRoute.POST now db req = POST now db req.
Proof.
  unfold UploadRoute.POST, POST, requestId, requestIndex.
  destruct (r_chunk req) as [chunk|]; [|reflexivity].
  destruct (r_chunkIndex req) as [[|a s]|]; simpl; try reflexivity.
  destruct (or_null (r_deviceId req)) as [dev|]; [|reflexivity].
  destruct (uuid_ok dev); simpl; [|reflexivity].
  destruct (users db !! dev) as [user|]; [|reflexivity].
  destruct (findSession db (r_sessionId req) user); [|reflexivity].
  destruct (checkSequence _ _ _) as [[err|] out]; [reflexivity|].
  unfold upsert, UploadRoute.create, UploadRoute.update, UploadRoute.countChunk.
  destruct (audioChunks db !! chunkId (r_sessionId req) (parseInt (String a s)))
    as [o|]; [reflexivity|].
  intros [->|[o Ho]]; [reflexivity|discriminate Ho].
Qed.

(** C9 (amended): for a session without stored chunks the first-chunk
    check refuses an index only when it is an integer greater than 5; every
    other parsed index, NaN included, passes the check.  Every integer
    index up to 5 that the integer column holds, a negative one included,
    is stored under its derived id.  For NaN no record is created: the
    handler answers 500 and writes nothing. *)
Theorem first_chunk_check now db req :
  passesGuards db req = true →
  sessionChunks db (r_sessionId req) = [] →
  let idx := requestIndex req in
  let r := UploadRoute.POST now db req in
  (js_gt idx (Int 5) = false ↔ idx = NaN ∨ ∃ i, idx = Int i ∧ i ≤ 5)
  ∧ (response r = ErrorResponse 400 (firstChunkError idx) ↔ ∃ i, idx = Int i ∧ 5 < i)
  ∧ ((∃ i, idx = Int i ∧ 5 < i) →
       r = mkResult (ErrorResponse 400 (firstChunkError idx)) db [])
  ∧ (idx = NaN ∨ (∃ i, idx = Int i ∧ i ≤ 5) →
       ∀ err, response r ≠ ErrorResponse 400 err)
  ∧ (∀ i, idx = Int i → - 2 ^ 31 ≤ i ≤ 5 →
       console r = []
       ∧ ∃ c, response r = summary c
              ∧ audioChunks (db_after r) !! requestId req = Some c
              ∧ audioData c = Some (requestPayload req)
              ∧ (audioChunks db !! requestId req = None →
                   id c = requestId req
                   ∧ sessionId c = r_sessionId req
                   ∧ chunkIndex c = idx
                   ∧ countOf (db_after r) (r_sessionId req)
                     = countOf db (r_sessionId req) + 1))
  ∧ (idx = NaN → audioChunks db !! requestId req = None →
       response r = ErrorResponse 500 "Failed to upload chunk"
       ∧ db_after r = db).
Proof.
  intros Hg Hnone idx r.
  pose proof (typed_POST_guarded now db req Hg) as Hr. fold r in Hr.
  unfold lastChunkIndex in Hr. rewrite Hnone in Hr.
  change (lastOf (chunkIndex <$> [])) with (@None jsnum) in Hr.
  rewrite checkSequence_first in Hr. fold idx in Hr.
  assert (Hgt : js_gt idx (Int 5) = false ↔ idx = NaN ∨ ∃ i, idx = Int i ∧ i ≤ 5).
  { unfold js_gt, js_lt. generalize idx. intros [|i].
    - split; auto.
    - case_bool_decide; split; intros Hx; try discriminate; try reflexivity.
      + destruct Hx as [Hx|(j & Hj & Hle)]; [discriminate|]. injection Hj as ->. lia.
      + right. exists i. split; [reflexivity|lia]. }
  assert (Hlt : js_gt idx (Int 5) = true ↔ ∃ i, idx = Int i ∧ 5 < i).
  { unfold js_gt, js_lt. generalize idx. intros [|i].
    - split; [discriminate|]. intros (j & Hj & _). discriminate Hj.
    - case_bool_decide; split; intros Hx; try discriminate; try reflexivity.
      + exists i. split; [reflexivity|lia].
      + destruct Hx as (j & Hj & Hle). injection Hj as ->. lia. }
  assert (Hpass : js_gt idx (Int 5) = false → ∀ err, response r ≠ ErrorResponse 400 err).
  { intros Hf err. rewrite Hr, Hf.
    destruct (audioChunks db !! requestId req); [simpl; discriminate|].
    unfold UploadRoute.create. destruct (UploadRoute.intColumn idx); simpl; [discriminate|].
    intros [= Hst _]. }
  split; [exact Hgt|]. split; [|split; [|split; [|split]]].
  - rewrite <- Hlt. destruct (js_gt idx (Int 5)) eqn:E.
    + rewrite Hr. split; reflexivity.
    + split; [|discriminate]. intros Hx. destruct (Hpass eq_refl _ Hx).
  - intros Hi. apply Hlt in Hi. rewrite Hr, Hi. reflexivity.
  - intros Hi. apply Hpass, Hgt. exact Hi.
  - intros i Hi Hrange.
    assert (Hf : js_gt idx (Int 5) = false).
    { apply Hgt. right. exists i. split; [exact Hi|lia]. }
    assert (Hcol : UploadRoute.intColumn idx = true).
    { rewrite Hi. apply bool_decide_eq_true. lia. }
    rewrite Hr, Hf. unfold requestId. fold idx.
    destruct (audioChunks db !! chunkId (r_sessionId req) idx) as [o|] eqn:Hl.
    + simpl. split; [reflexivity|]. eexists. split; [reflexivity|].
      rewrite lookup_insert_eq. split; [reflexivity|]. split; [reflexivity|].
      discriminate.
    + unfold UploadRoute.create. rewrite Hcol. simpl. split; [reflexivity|].
      eexists. split; [reflexivity|]. rewrite lookup_insert_eq.
      split; [reflexivity|]. split; [reflexivity|]. intros _.
      destruct (guards_session db req Hg) as [ss Hss].
      repeat split. apply (countOf_increment db _ ss Hss).
  - intros Hnan Hfresh.
    assert (Hf : js_gt idx (Int 5) = false) by (apply Hgt; left; exact Hnan).
    rewrite Hr, Hf, Hfresh. unfold UploadRoute.create. rewrite Hnan. simpl. auto.
Qed.


Lemma indicesIn_perm sid l l' : l ≡ₚ l' → indicesIn sid l ≡ₚ indicesIn sid l'.
Proof. intros Hl. unfold indicesIn. rewrite Hl. reflexivity. Qed.

Lemma indicesIn_cons sid k c l :
  indicesIn sid ((k, c) :: l)
  = ((if decide (sessionId c = sid) then [chunkIndex c] else []) ++ indicesIn sid l)%list.
Proof.
  unfold indicesIn. simpl. rewrite filter_cons.
  destruct (decide (sessionId c = sid)); reflexivity.
Qed.

Lemma lastChunkIndex_insert_fresh db sid cid c us ss :
  audioChunks db !! cid = None →
  sessionId c = sid →
  lastChunkIndex (mkDB us ss (<[cid := c]> (audioChunks db))) sid
  = Some (match lastChunkIndex db sid with
          | None => chunkIndex c
          | Some m => db_max (chunkIndex c) m
          end).
Proof.
  intros Hfresh Hsid. unfold lastChunkIndex, sessionChunks. simpl.
  change (lastOf (indicesIn sid (map_to_list (<[cid := c]> (audioChunks db))))
          = Some (match lastOf (indicesIn sid (map_to_list (audioChunks db))) with
                  | None => chunkIndex c
                  | Some m => db_max (chunkIndex c) m
                  end)).
  rewrite (lastOf_perm _ _ (indicesIn_perm sid _ _ (map_to_list_insert _ cid c Hfresh))).
  rewrite indicesIn_cons. destruct (decide (sessionId c = sid)); [|contradiction].
  reflexivity.
Qed.

Lemma lastChunkIndex_insert_same db sid cid o c us ss :
  audioChunks db !! cid = Some o →
  sessionId c = sessionId o →
  chunkIndex c = chunkIndex o →
  lastChunkIndex (mkDB us ss (<[cid := c]> (audioChunks db))) sid
  = lastChunkIndex db sid.
Proof.
  intros Hold Hs Hi. unfold lastChunkIndex, sessionChunks. simpl.
  change (lastOf (indicesIn sid (map_to_list (<[cid := c]> (audioChunks db))))
          = lastOf (indicesIn sid (map_to_list (audioChunks db)))).
  rewrite <- (insert_delete_eq (audioChunks db) cid c).
  rewrite <- (insert_delete_id (audioChunks db) cid o Hold) at 2.
  assert (Hd : delete cid (audioChunks db) !! cid = None) by apply lookup_delete_eq.
  rewrite (lastOf_perm _ _ (indicesIn_perm sid _ _ (map_to_list_insert _ cid c Hd))).
  rewrite (lastOf_perm _ _ (indicesIn_perm sid _ _ (map_to_list_insert _ cid o Hd))).
  rewrite !indicesIn_cons, Hs, Hi. reflexivity.
Qed.

(** An index that passed the check passes it again once it is stored. *)
Lemma checkSequence_retry sid last idx :
  fst (checkSequence sid last idx) = None →
  fst (checkSequence sid
         (Some (match last with None => idx | Some m => db_max idx m end)) idx)
  = None.
Proof.
  unfold checkSequence, db_max, db_le, js_gt, js_lt, js_add, js_sub, js_strict_ne.
  destruct last as [[|l]|], idx as [|i]; simpl; try reflexivity;
    repeat (case_bool_decide; simpl); intros; try reflexivity; try discriminate;
    try lia.
Qed.


Lemma upsert_fresh now db sid idx data dur text :
  audioChunks db !! chunkId sid idx = None →
  upsert now db sid idx data dur text
  = (mkAudioChunk (chunkId sid idx) sid idx (Some data) dur (or_null text) now now,
     mkDB (users db) (alter incrementChunksCount sid (sessions db))
          (<[chunkId sid idx :=
               mkAudioChunk (chunkId sid idx) sid idx (Some data) dur (or_null text)
                 now now]> (audioChunks db))).
Proof. intros Hl. unfold upsert. rewrite Hl. reflexivity. Qed.

Lemma upsert_existing now db sid idx data dur text o :
  audioChunks db !! chunkId sid idx = Some o →
  upsert now db sid idx data dur text
  = (mkAudioChunk (id o) (sessionId o) (chunkIndex o) (Some data) dur (or_null text)
       (timestamp o) now,
     mkDB (users db) (sessions db)
          (<[chunkId sid idx :=
               mkAudioChunk (id o) (sessionId o) (chunkIndex o) (Some data) dur
                 (or_null text) (timestamp o) now]> (audioChunks db))).
Proof. intros Hl. unfold upsert. rewrite Hl. reflexivity. Qed.

Lemma findSession_increment db sid0 sid uid us cs :
  is_Some (findSession db sid uid) →
  is_Some (findSession (mkDB us (alter incrementChunksCount sid0 (sessions db)) cs)
             sid uid).
Proof.
  unfold findSession. simpl. rewrite lookup_alter.
  destruct (decide (sid0 = sid)) as [->|]; [|auto].
  destruct (sessions db !! sid) as [ss|]; simpl; [|auto].
  destruct (decide (userId ss = uid)); auto.
Qed.

Lemma passesGuards_upsert now db sid idx data dur text req :
  passesGuards db req = true →
  passesGuards (snd (upsert now db sid idx data dur text)) req = true.
Proof.
  unfold passesGuards.
  destruct (r_chunk req); [|discriminate].
  destruct (or_null (r_chunkIndex req)); [|discriminate].
  destruct (or_null (r_deviceId req)) as [dev|]; [|discriminate].
  destruct (uuid_ok dev); [|discriminate]. simpl.
  unfold upsert. destruct (audioChunks db !! chunkId sid idx); simpl;
    destruct (users db !! dev); try discriminate; [auto|].
  intros Hs. apply bool_decide_eq_true in Hs. apply bool_decide_eq_true.
  apply findSession_increment. exact Hs.
Qed.


(** C2: the id is a function of the session and the index; a first
    accepted upload adds one record and one count only when the id is new;
    a second upload of the same index is accepted, overwrites that record,
    adds no record and leaves every [chunksCount] untouched. *)
Theorem upload_idempotent now1 now2 db req1 req2 :
  passesGuards db req1 = true →
  passesGuards db req2 = true →
  r_sessionId req2 = r_sessionId req1 →
  requestIndex req2 = requestIndex req1 →
  accepted (POST now1 db req1) = true →
  let sid := r_sessionId req1 in
  let cid := requestId req1 in
  let r1 := POST now1 db req1 in
  let r2 := POST now2 (db_after r1) req2 in
  requestId req2 = cid
  ∧ dom (audioChunks (db_after r1)) = {[cid]} ∪ dom (audioChunks db)
  ∧ match audioChunks db !! cid with
    | None => size (audioChunks (db_after r1)) = S (size (audioChunks db))
              ∧ countOf (db_after r1) sid = countOf db sid + 1
    | Some _ => size (audioChunks (db_after r1)) = size (audioChunks db)
                ∧ sessions (db_after r1) = sessions db
    end
  ∧ accepted r2 = true
  ∧ dom (audioChunks (db_after r2)) = dom (audioChunks (db_after r1))
  ∧ size (audioChunks (db_after r2)) = size (audioChunks (db_after r1))
  ∧ sessions (db_after r2) = sessions (db_after r1)
  ∧ (∃ c, audioChunks (db_after r2) !! cid = Some c
          ∧ audioData c = Some (requestPayload req2)
          ∧ duration c = requestDuration req2)
  ∧ (∀ k, k ≠ cid → audioChunks (db_after r2) !! k = audioChunks (db_after r1) !! k).
Proof.
  intros Hg1 Hg2 Hsid Hidx Hacc sid cid r1 r2.
  assert (Hcid : requestId req2 = cid).
  { unfold cid, requestId. rewrite Hsid, Hidx. reflexivity. }
  (* the first upload *)
  pose proof (POST_cases now1 db req1 Hg1) as Hc1. cbv zeta in Hc1.
  fold sid r1 in Hc1.
  destruct Hc1 as [(err & _ & Hr1)|(Hchk1 & Hr1)];
    [unfold r1 in Hr1; rewrite Hr1 in Hacc; discriminate Hacc|].
  set (up1 := upsert now1 db sid (requestIndex req1) (requestPayload req1)
                (requestDuration req1) (r_transcript req1)) in *.
  set (db1 := snd up1).
  assert (Hdb1 : db_after r1 = db1) by (rewrite Hr1; reflexivity).
  assert (Hg2' : passesGuards db1 req2 = true)
    by (apply passesGuards_upsert; exact Hg2).
  (* the state after it *)
  assert (Hfirst :
    ∃ c1, audioChunks db1 = <[cid := c1]> (audioChunks db)
          ∧ lastChunkIndex db1 sid
            = match audioChunks db !! cid with
              | None => Some (match lastChunkIndex db sid with
                              | None => requestIndex req1
                              | Some m => db_max (requestIndex req1) m
                              end)
              | Some _ => lastChunkIndex db sid
              end
          ∧ match audioChunks db !! cid with
            | None => countOf db1 sid = countOf db sid + 1
            | Some _ => sessions db1 = sessions db
            end).
  { unfold db1, up1, cid, requestId. fold sid.
    destruct (audioChunks db !! chunkId sid (requestIndex req1)) as [o|] eqn:Hl.
    - rewrite (upsert_existing _ _ _ _ _ _ _ o Hl). simpl. eexists.
      split; [reflexivity|]. split; [|reflexivity].
      apply (lastChunkIndex_insert_same db sid _ o); auto.
    - rewrite (upsert_fresh _ _ _ _ _ _ _ Hl). simpl. eexists.
      split; [reflexivity|]. split.
      + apply (lastChunkIndex_insert_fresh db sid); auto.
      + destruct (guards_session db req1 Hg1) as [ss Hss].
        apply (countOf_increment db sid ss Hss). }
  destruct Hfirst as (c1 & Hm1 & Hlast1 & Hcount1).
  (* the second upload *)
  pose proof (POST_cases now2 db1 req2 Hg2') as Hc2. cbv zeta in Hc2.
  rewrite Hsid, Hidx in Hc2. fold sid in Hc2.
  assert (Hchk2 : fst (checkSequence sid (lastChunkIndex db1 sid) (requestIndex req1))
                  = None).
  { rewrite Hlast1. destruct (audioChunks db !! cid).
    - exact Hchk1.
    - apply checkSequence_retry. exact Hchk1. }
  destruct Hc2 as [(err & He & _)|(_ & Hr2)]; [congruence|].
  assert (Hl1 : audioChunks db1 !! chunkId sid (requestIndex req1) = Some c1).
  { rewrite Hm1. apply lookup_insert_eq. }
  rewrite (upsert_existing _ _ _ _ _ _ _ c1 Hl1) in Hr2. simpl in Hr2.
  fold cid in Hr2.
  assert (Hr2' : r2 = POST now2 db1 req2) by (unfold r2; rewrite Hdb1; reflexivity).
  rewrite Hr2 in Hr2'. clear Hr2.
  split; [exact Hcid|]. rewrite Hr2', Hdb1. simpl. rewrite Hm1.
  split; [apply dom_insert_L|]. split.
  { destruct (audioChunks db !! cid) eqn:Hl.
    - split; [|exact Hcount1]. rewrite map_size_insert_Some; eauto.
    - split; [|exact Hcount1]. rewrite map_size_insert_None; eauto. }
  split; [reflexivity|]. split.
  { rewrite dom_insert_L, dom_insert_L.
    apply set_eq. intros x. rewrite !elem_of_union. tauto. }
  split.
  { rewrite (map_size_insert_Some cid); [reflexivity|].
    rewrite lookup_insert_eq. eauto. }
  split; [reflexivity|]. split.
  { eexists. rewrite lookup_insert_eq. split; [reflexivity|]. auto. }
  intros k Hk. rewrite lookup_insert_ne by auto. reflexivity.
Qed.

End UploadFacts.

(** ** Facts about the sequence validation *)

Section ValidationFacts.
Import Validation.

Lemma scanStep_spec l d s :
  snd (fold_left scanStep l (d, s)) = list_to_set l ∪ s
  ∧ (fst (fold_left scanStep l (d, s)) = []
     ↔ d = [] ∧ NoDup l ∧ ∀ x, x ∈ l → x ∉ s).
Proof.
  revert d s. induction l as [|x l IH]; intros d s; simpl.
  - split; [set_solver|]. split.
    + intros ->. split; [reflexivity|]. split; [constructor|]. set_solver.
    + tauto.
  - destruct (IH (if bool_decide (x ∈ s) then (d ++ [x])%list else d) ({[x]} ∪ s))
      as [Hs Hd].
    rewrite Hs, Hd. split; [set_solver|].
    rewrite NoDup_cons. case_bool_decide as Hx; split.
    + intros [Happ _]. destruct d; discriminate.
    + intros (_ & _ & Hall). exfalso. apply (Hall x); [left|exact Hx].
    + intros (-> & Hnd & Hall). split; [reflexivity|]. split.
      * split; [|exact Hnd]. intros Hin. apply (Hall x Hin). set_solver.
      * intros y Hy. apply elem_of_cons in Hy as [->|Hy]; [exact Hx|].
        specialize (Hall y Hy). set_solver.
    + intros (-> & [Hnotin Hnd] & Hall). split; [reflexivity|]. split; [exact Hnd|].
      intros y Hy. assert (y ≠ x) by (intros ->; contradiction).
      assert (y ∉ s) by (apply Hall; right; exact Hy). set_solver.
Qed.

(** The report on a non-empty list, in terms of its least and greatest
    members. *)
Lemma validate_report l :
  l ≠ [] →
  ∃ lo hi,
    lo ∈ l ∧ hi ∈ l ∧ (∀ x, x ∈ l → lo ≤ x ≤ hi)
    ∧ validateChunkSequence l
      = {| isValid := bool_decide (length (filter (λ i, i ∉ (list_to_set l : gset Z))
                                            (seqZ lo (hi - lo + 1))) = 0%nat)
                      && bool_decide (length (fst (scanDuplicates
                                            (jsSort (λ a b, a - b) l))) = 0%nat);
           gaps := filter (λ i, i ∉ (list_to_set l : gset Z)) (seqZ lo (hi - lo + 1));
           duplicates := fst (scanDuplicates (jsSort (λ a b, a - b) l));
           expectedCount := hi - lo + 1;
           actualCount := Z.of_nat (length l);
           lastIndex := hi |}
    ∧ (fst (scanDuplicates (jsSort (λ a b, a - b) l)) = [] ↔ NoDup l).
Proof.
  intros Hne.
  pose proof (jsSort_perm (λ a b : Z, a - b) l) as Hperm.
  pose proof (jsSort_sorted (λ x : Z, x) l) as Hsorted. simpl in Hsorted.
  set (sorted := jsSort (λ a b : Z, a - b) l) in *.
  assert (Hsne : sorted ≠ []).
  { intros Hnil. rewrite Hnil in Hperm. apply Permutation_nil in Hperm. auto. }
  destruct (head sorted) as [lo|] eqn:Hhead; [|apply head_None in Hhead; contradiction].
  destruct (last sorted) as [hi|] eqn:Hlast; [|apply last_None in Hlast; contradiction].
  exists lo, hi.
  apply head_Some in Hhead as [tl Htl].
  apply last_Some in Hlast as [init Hinit].
  assert (Hlo : lo ∈ l) by (rewrite <- Hperm, Htl; left).
  assert (Hhi : hi ∈ l) by (rewrite <- Hperm, Hinit; set_solver).
  assert (Hbounds : ∀ x, x ∈ l → lo ≤ x ≤ hi).
  { intros x Hx. rewrite <- Hperm in Hx. split.
    - rewrite Htl in Hx, Hsorted. apply StronglySorted_cons in Hsorted as [Hall _].
      apply elem_of_cons in Hx as [->|Hx]; [lia|].
      rewrite Forall_forall in Hall. apply (Hall x Hx).
    - rewrite Hinit in Hx, Hsorted. apply elem_of_app in Hx as [Hx|Hx].
      + apply (StronglySorted_app_1_elem_of _ _ _ _ _ Hsorted Hx). set_solver.
      + apply list_elem_of_singleton in Hx as ->. lia. }
  pose proof (scanStep_spec sorted [] ∅) as [Hseen Hdup].
  assert (Hset : snd (scanDuplicates sorted) = list_to_set l).
  { unfold scanDuplicates. rewrite Hseen.
    apply set_eq. intros x. rewrite elem_of_union, !elem_of_list_to_set, Hperm.
    set_solver. }
  split; [exact Hlo|]. split; [exact Hhi|]. split; [exact Hbounds|]. split.
  - unfold validateChunkSequence.
    rewrite bool_decide_eq_false_2 by (destruct l; [contradiction|discriminate]).
    fold sorted. destruct (scanDuplicates sorted) as [dups seen] eqn:Hscan.
    simpl in Hset. subst seen.
    assert (Hh : head sorted = Some lo) by (rewrite Htl; reflexivity).
    assert (Hl : last sorted = Some hi) by (rewrite Hinit; apply last_snoc).
    rewrite Hh, Hl. simpl. unfold scanGaps.
    rewrite (Permutation_length Hperm). reflexivity.
  - unfold scanDuplicates. rewrite Hdup. rewrite Hperm. split.
    + tauto.
    + intros Hnd. split; [reflexivity|]. split; [exact Hnd|]. set_solver.
Qed.


Lemma gaps_spec l g :
  l ≠ [] →
  g ∈ gaps (validateChunkSequence l)
  ↔ (g ∉ l) ∧ (∃ a b, a ∈ l ∧ b ∈ l ∧ a ≤ g ≤ b).
Proof.
  intros Hne. destruct (validate_report l Hne) as (lo & hi & Hlo & Hhi & Hb & -> & _).
  simpl. rewrite list_elem_of_filter, elem_of_seqZ, elem_of_list_to_set. split.
  - intros [Hnotin Hrange]. split; [exact Hnotin|]. exists lo, hi. repeat split; auto; lia.
  - intros [Hnotin (a & b & Ha & Hb' & Hab)]. split; [exact Hnotin|].
    pose proof (Hb a Ha). pose proof (Hb b Hb'). lia.
Qed.

Lemma valid_spec l :
  l ≠ [] →
  isValid (validateChunkSequence l) = true
  ↔ NoDup l ∧ ∀ g, (∃ a b, a ∈ l ∧ b ∈ l ∧ a ≤ g ≤ b) → g ∈ l.
Proof.
  intros Hne. pose proof (gaps_spec l) as Hg.
  destruct (validate_report l Hne) as (lo & hi & Hlo & Hhi & Hb & Hrep & Hdup).
  rewrite Hrep in Hg |- *. simpl in Hg |- *.
  rewrite andb_true_iff, !bool_decide_eq_true, !length_zero_iff_nil, Hdup.
  split.
  - intros [Hgaps Hnd]. split; [exact Hnd|]. intros g Hbetween.
    destruct (decide (g ∈ l)) as [|Hnotin]; [assumption|].
    exfalso. assert (Hin : g ∈ @nil Z); [|inversion Hin].
    rewrite <- Hgaps. apply Hg; auto.
  - intros [Hnd Hall]. split; [|exact Hnd].
    apply elem_of_nil_inv.
    intros g Hin. apply Hg in Hin as [Hnotin Hbetween]; [|exact Hne]. auto.
Qed.

Example validate_0_1_3 :
  validateChunkSequence [0; 1; 3]
  = {| isValid := false; gaps := [2]; duplicates := [];
       expectedCount := 4; actualCount := 3; lastIndex := 3 |}.
Proof. vm_compute. reflexivity. Qed.

Example validate_1_2_3 :
  validateChunkSequence [1; 2; 3]
  = {| isValid := true; gaps := []; duplicates := [];
       expectedCount := 3; actualCount := 3; lastIndex := 3 |}.
Proof. vm_compute. reflexivity. Qed.

Example validate_retry :
  validateChunkSequence [0; 0; 1]
  = {| isValid := false; gaps := []; duplicates := [0];
       expectedCount := 2; actualCount := 3; lastIndex := 1 |}.
Proof. vm_compute. reflexivity. Qed.

(** C10, as stated, fails: a list may start above 0 and still be reported
    invalid. *)
Lemma lost_prefix_not_always_valid :
  ¬ (∀ l m, m ∈ l → (∀ x, x ∈ l → m ≤ x) → 0 < m →
            isValid (validateChunkSequence l) = true).
Proof.
  intros Hall. specialize (Hall [1; 3] 1).
  assert (Hv : isValid (validateChunkSequence [1; 3]) = false)
    by (vm_compute; reflexivity).
  rewrite Hall in Hv; [discriminate| | |lia].
  - set_solver.
  - intros x Hx. repeat (apply elem_of_cons in Hx as [->|Hx]; [lia|]). inversion Hx.
Qed.

(** C10 (amended): gaps are looked for between the smallest and the
    largest present index only.  When the smallest index [m] is above 0,
    the absent indices [0 .. m-1] are not reported, and the list is
    reported valid exactly when it has no repeated index and no absent
    index between two present ones. *)
Theorem lost_prefix_invisible l m :
  m ∈ l →
  (∀ x, x ∈ l → m ≤ x) →
  0 < m →
  (∀ g, 0 ≤ g < m → (g ∉ l) ∧ (g ∉ gaps (validateChunkSequence l)))
  ∧ (isValid (validateChunkSequence l) = true
     ↔ NoDup l ∧ ∀ g, (∃ b, b ∈ l ∧ m ≤ g ≤ b) → g ∈ l).
Proof.
  intros Hm Hmin Hpos.
  assert (Hne : l ≠ []) by (intros ->; inversion Hm).
  split.
  - intros g Hg. split.
    + intros Hin. specialize (Hmin g Hin). lia.
    + rewrite (gaps_spec l g Hne). intros [_ (a & b & Ha & _ & Hab)].
      specialize (Hmin a Ha). lia.
  - rewrite (valid_spec l Hne). split; intros [Hnd Hall]; (split; [exact Hnd|]).
    + intros g (b & Hb & Hgb). apply Hall. exists m, b. auto.
    + intros g (a & b & Ha & Hb & Hab). apply Hall. exists b.
      specialize (Hmin a Ha). split; [exact Hb|lia].
Qed.

Lemma lost_prefix_invisible_witness :
  (∀ g, 0 ≤ g < 1 →
     (g ∉ [1; 2; 3]) ∧ (g ∉ gaps (validateChunkSequence [1; 2; 3])))
  ∧ (isValid (validateChunkSequence [1; 2; 3]) = true
     ↔ NoDup [1; 2; 3] ∧ ∀ g, (∃ b, b ∈ [1; 2; 3] ∧ 1 ≤ g ≤ b) → g ∈ [1; 2; 3]).
Proof.
  apply (lost_prefix_invisible [1; 2; 3] 1).
  - left.
  - intros x Hx. repeat (apply elem_of_cons in Hx as [->|Hx]; [lia|]). inversion Hx.
  - lia.
Defined.

End ValidationFacts.

(** ** Facts about reassembly for playback *)

Section PlaybackFacts.
Context `{F : Float64} `{P : Platform}.
Import Playback.

Lemma filter_keeps_all {A} (f : A → bool) (l : list A) :
  Forall (λ x, f x = true) l → filter (λ x, f x) l = l.
Proof.
  induction 1 as [|x l Hx _ IH]; [reflexivity|].
  rewrite filter_cons, IH. destruct (decide (f x)) as [|Hn]; [reflexivity|].
  rewrite Hx in Hn. exfalso. apply Hn. exact I.
Qed.

Lemma filter_drops {A} (f : A → bool) (l1 l2 : list A) (x : A) :
  f x = false →
  filter (λ x, f x) (l1 ++ x :: l2) = filter (λ x, f x) (l1 ++ l2).
Proof.
  intros Hx. rewrite !filter_app, filter_cons.
  destruct (decide (f x)) as [Hy|]; [|reflexivity].
  rewrite Hx in Hy. destruct Hy.
Qed.

Lemma fromServer_decodes c : decodes c = true → fromServer c = inr (asPlayback c).
Proof.
  unfold decodes, fromServer, asPlayback, payload.
  destruct (s_audioData c) as [[|a d]|]; try reflexivity.
  destruct (atob (String a d)); [discriminate|reflexivity].
Qed.

Lemma promiseAll_decodes cs :
  Forall (λ c, decodes c = true) cs → promiseAll cs = inr (asPlayback <$> cs).
Proof.
  induction 1 as [|c cs Hc _ IH]; simpl; [reflexivity|].
  rewrite (fromServer_decodes c Hc), IH. reflexivity.
Qed.

Lemma validServer_playable c :
  validServer c = true →
  decodes c = true
  ∧ playable (asPlayback c) = true
  ∧ duration (asPlayback c) = durationOf c.
Proof.
  unfold validServer, playable, asPlayback, durationOf, durationOr0. simpl.
  rewrite !andb_true_iff. intros [[Hd Hlen] Hpos].
  destruct (s_duration c) as [d|]; simpl in *.
  - rewrite (f64_pos_truthy d Hpos), Hpos. auto.
  - rewrite f64_zero_not_pos in Hpos. discriminate.
Qed.

Lemma serverPlayback_decodes cs :
  cs ≠ [] →
  Forall (λ c, decodes c = true) cs →
  serverPlayback (ResponseOk (Some cs))
  = ready (jsSort (λ a b, index a - index b)
             (filter (λ c, playable c) (asPlayback <$> cs))).
Proof.
  intros Hne Hd. unfold serverPlayback. simpl.
  rewrite bool_decide_eq_false_2 by (destruct cs; [contradiction|discriminate]).
  rewrite (promiseAll_decodes cs Hd). destruct (bool_decide _); reflexivity.
Qed.

Lemma sumDurations_fold cs :
  sumDurations cs = fold_left f64_add (duration <$> cs) f64_zero.
Proof.
  unfold sumDurations. generalize f64_zero.
  induction cs as [|c cs IH]; intros z; simpl; [reflexivity|]. apply IH.
Qed.

Lemma length_concat_total (l : list (list byte)) : length (concat l) = totalLength l.
Proof.
  induction l as [|p l IH]; simpl; [reflexivity|].
  rewrite length_app, IH. reflexivity.
Qed.

Lemma totalLength_perm (l l' : list (list byte)) :
  l ≡ₚ l' → totalLength l = totalLength l'.
Proof.
  induction 1; simpl; lia.
Qed.

(** Server chunks, all valid, fetched in any order. *)
Lemma server_reassembly fetched ordered :
  fetched ≡ₚ ordered →
  StronglySorted (keyLt s_chunkIndex) ordered →
  Forall (λ c, validServer c = true) ordered →
  ordered ≠ [] →
  serverPlayback (ResponseOk (Some fetched)) = ready (asPlayback <$> ordered)
  ∧ sumDurations (asPlayback <$> ordered)
    = fold_left f64_add (durationOf <$> ordered) f64_zero
  ∧ combinedBlob (asPlayback <$> ordered) = concat (payload <$> ordered)
  ∧ length (concat (payload <$> ordered)) = totalLength (payload <$> fetched).
Proof.
  intros Hperm Hsorted Hvalid Hne.
  assert (Hvalid' : Forall (λ c, validServer c = true) fetched)
    by (rewrite Hperm; exact Hvalid).
  assert (Hfne : fetched ≠ []).
  { intros ->. apply Permutation_nil in Hperm. auto. }
  split; [|split; [|split]].
  - rewrite serverPlayback_decodes; [|exact Hfne|].
    + rewrite filter_keeps_all.
      * f_equal. apply (jsSort_ordered index).
        -- rewrite Hperm. reflexivity.
        -- apply (StronglySorted_fmap _ (keyLt s_chunkIndex)); [|exact Hsorted].
           intros x y Hxy. exact Hxy.
      * apply Forall_fmap. eapply Forall_impl; [exact Hvalid'|].
        intros c Hc. apply validServer_playable in Hc. apply Hc.
    + eapply Forall_impl; [exact Hvalid'|].
      intros c Hc. apply validServer_playable in Hc. apply Hc.
  - rewrite sumDurations_fold, <- list_fmap_compose. f_equal.
    apply Forall_fmap_ext_1. eapply Forall_impl; [exact Hvalid|].
    intros c Hc. apply validServer_playable in Hc. apply Hc.
  - unfold combinedBlob. rewrite <- list_fmap_compose. reflexivity.
  - rewrite length_concat_total. apply totalLength_perm. rewrite Hperm. reflexivity.
Qed.


Lemma localChunks_of_empty (r : IDB.ChunksResult) :
  IDB.chunks r = [] → localChunks r = [].
Proof. unfold localChunks. intros ->. reflexivity. Qed.

(** The whole function against an environment: the answer and the calls. *)
Lemma run_getChunksForPlayback env sid dev :
  run env (getChunksForPlayback sid dev)
  = match indexedDB env sid with
    | Rejected e => (Rejected e, [CalledGetChunks sid])
    | Resolved r =>
        if bool_decide (0 < length (localChunks r))%nat then
          (Resolved (ready (localChunks r)), [CalledGetChunks sid])
        else
          (Resolved (serverPlayback (server env (chunksUrl sid dev))),
           [CalledGetChunks sid; CalledFetch (chunksUrl sid dev)])
    end.
Proof.
  unfold getChunksForPlayback. simpl.
  destruct (indexedDB env sid) as [r|e]; [|reflexivity].
  destruct (IDB.chunks r) as [|c cs] eqn:Hcs.
  - rewrite (localChunks_of_empty r Hcs). reflexivity.
  - simpl. destruct (bool_decide (0 < length (localChunks r))%nat); reflexivity.
Qed.

Lemma getChunks_healthy b s sid :
  healthy b s = true →
  fst (IDB.getChunks b s sid)
  = Resolved (IDB.mkChunksResult
                (jsSort (λ a b, IDB.chunkIndex a - IDB.chunkIndex b) (IDB.getAll s sid))
                None).
Proof.
  unfold healthy. rewrite !andb_true_iff, !bool_decide_eq_true.
  intros [[[[[[Ha Ho] Ht] Hs] Hi] Hr] _].
  unfold IDB.getChunks, IDB.isIndexedDBAvailable, IDB.guarded, IDB.initDB.
  rewrite Ha, Ht, Hs, Hi. simpl.
  destruct (IDB.db s) eqn:Hdb; simpl.
  - destruct (IDB.request b); try discriminate. reflexivity.
  - simpl in Ho. destruct (IDB.open b); try discriminate. simpl.
    destruct (IDB.request b); try discriminate. reflexivity.
Qed.

(** Locally cached chunks, all with a non-empty blob, stored in any order. *)
Lemma local_reassembly stored ordered :
  stored ≡ₚ ordered →
  StronglySorted (keyLt IDB.chunkIndex) ordered →
  Forall (λ c, hasBlob c = true) ordered →
  localChunks
    (IDB.mkChunksResult
       (jsSort (λ a b, IDB.chunkIndex a - IDB.chunkIndex b) stored) None)
  = fromLocal <$> ordered
  ∧ sumDurations (fromLocal <$> ordered)
    = fold_left f64_add (replicate (length ordered) f64_30) f64_zero
  ∧ combinedBlob (fromLocal <$> ordered) = concat (localPayload <$> ordered)
  ∧ length (concat (localPayload <$> ordered)) = totalLength (localPayload <$> stored).
Proof.
  intros Hperm Hsorted Hblob. split; [|split; [|split]].
  - unfold localChunks. simpl.
    rewrite (jsSort_ordered IDB.chunkIndex stored ordered Hperm Hsorted).
    rewrite filter_keeps_all by exact Hblob. reflexivity.
  - rewrite sumDurations_fold, <- list_fmap_compose. f_equal.
    clear. induction ordered as [|c l IH]; [reflexivity|].
    rewrite fmap_cons. simpl length. rewrite replicate_S, IH. reflexivity.
  - unfold combinedBlob. rewrite <- list_fmap_compose. reflexivity.
  - rewrite length_concat_total. apply totalLength_perm. rewrite Hperm. reflexivity.
Qed.


Lemma localChunks_nil (lr : IDB.ChunksResult) :
  localChunks lr = [] ↔ Forall (λ c, hasBlob c = false) (IDB.chunks lr).
Proof.
  unfold localChunks. induction (IDB.chunks lr) as [|c l IH].
  - split; [constructor|reflexivity].
  - rewrite filter_cons. destruct (hasBlob c) eqn:E; simpl.
    + split; [discriminate|]. intros Hall. inversion Hall; congruence.
    + rewrite IH. split; [constructor; auto|]. intros Hall. inversion Hall; auto.
Qed.

Lemma localChunks_have_bytes (lr : IDB.ChunksResult) :
  Forall (λ p, blob p ≠ []) (localChunks lr).
Proof.
  unfold localChunks. apply Forall_fmap, Forall_forall.
  intros c Hc. apply list_elem_of_filter in Hc as [Hb _].
  unfold hasBlob in Hb. unfold fromLocal. simpl.
  destruct (IDB.blob c) as [[|x bs]|]; simpl in *; try contradiction. discriminate.
Qed.

End PlaybackFacts.

(** ** Reassembly: order, totals, exclusion, fallback *)

Section ReassemblyClaims.
Context `{F : Float64} `{P : Platform}.
Import Playback.

(** C3 (the code departs from it on the local path): chunks fetched from
    the server in any order are played in ascending index order,
    [totalDuration] is the sum of their stored durations taken in that
    order, and the stream has the summed length of the payloads, as the
    claim says.  Chunks taken from the local store are ordered and
    concatenated the same way, but [totalDuration] is not the sum of their
    durations: the code enters 30 for every local chunk, with the comment
    that the value will be updated from the server, and nothing updates
    it. *)
Theorem reassembly_in_index_order :
  (∀ env sid dev lr fetched ordered,
     indexedDB env sid = Resolved lr →
     localChunks lr = [] →
     server env (chunksUrl sid dev) = ResponseOk (Some fetched) →
     fetched ≡ₚ ordered →
     StronglySorted (keyLt s_chunkIndex) ordered →
     Forall (λ c, validServer c = true) ordered →
     ordered ≠ [] →
     ∃ r, fst (run env (getChunksForPlayback sid dev)) = Resolved r
          ∧ error r = None
          ∧ chunks r = asPlayback <$> ordered
          ∧ totalDuration r = fold_left f64_add (durationOf <$> ordered) f64_zero
          ∧ audioUrl r = Some (concat (payload <$> ordered))
          ∧ length (concat (payload <$> ordered)) = totalLength (payload <$> fetched))
  ∧ (∀ b s srv sid dev ordered,
       healthy b s = true →
       IDB.getAll s sid ≡ₚ ordered →
       StronglySorted (keyLt IDB.chunkIndex) ordered →
       Forall (λ c, hasBlob c = true) ordered →
       ordered ≠ [] →
       ∃ r, fst (run (mkEnv (λ sid, fst (IDB.getChunks b s sid)) srv)
                   (getChunksForPlayback sid dev)) = Resolved r
            ∧ error r = None
            ∧ chunks r = fromLocal <$> ordered
            ∧ totalDuration r
              = fold_left f64_add (replicate (length ordered) f64_30) f64_zero
            ∧ audioUrl r = Some (concat (localPayload <$> ordered))
            ∧ length (concat (localPayload <$> ordered))
              = totalLength (localPayload <$> IDB.getAll s sid)).
Proof.
  split.
  - intros env sid dev lr fetched ordered Hlocal Hnone Hsrv Hperm Hsorted Hvalid Hne.
    rewrite run_getChunksForPlayback, Hlocal, Hnone, Hsrv.
    rewrite bool_decide_eq_false_2 by (simpl; lia). cbn [fst].
    destruct (server_reassembly fetched ordered Hperm Hsorted Hvalid Hne)
      as (Hr & Hsum & Hblob & Hlen).
    rewrite Hr. eexists. split; [reflexivity|]. simpl.
    rewrite Hsum, Hblob. auto.
  - intros b s srv sid dev ordered Hb Hperm Hsorted Hblob Hne.
    rewrite run_getChunksForPlayback. cbn [indexedDB].
    rewrite (getChunks_healthy b s sid Hb).
    destruct (local_reassembly (IDB.getAll s sid) ordered Hperm Hsorted Hblob)
      as (Hr & Hsum & Hcat & Hlen).
    rewrite Hr.
    rewrite bool_decide_eq_true_2
      by (rewrite length_fmap; destruct ordered; [contradiction|simpl; lia]).
    eexists. split; [reflexivity|]. simpl. rewrite Hsum, Hcat. auto.
Qed.

Lemma hasBlob_payload (c : IDB.AudioChunkData) :
  hasBlob c = false ↔ localPayload c = [].
Proof.
  unfold hasBlob, localPayload. destruct (IDB.blob c) as [[|x bs]|]; simpl.
  - split; reflexivity.
  - split; discriminate.
  - split; reflexivity.
Qed.

Lemma localChunks_none (lr : IDB.ChunksResult) :
  localChunks lr = [] ↔ Forall (λ c, localPayload c = []) (IDB.chunks lr).
Proof.
  rewrite localChunks_nil. split; intros Hall;
    (eapply Forall_impl; [exact Hall|]); intros c Hc; apply hasBlob_payload; exact Hc.
Qed.

(** The audio made of the local chunks is the concatenation of all the
    stored payloads: the ones left out are empty. *)
Lemma localChunks_stream (lr : IDB.ChunksResult) :
  combinedBlob (localChunks lr) = concat (localPayload <$> IDB.chunks lr).
Proof.
  unfold combinedBlob, localChunks. induction (IDB.chunks lr) as [|c l IH].
  - reflexivity.
  - rewrite filter_cons, fmap_cons. cbn [concat].
    destruct (decide (hasBlob c)) as [Hy|Hn].
    + rewrite !fmap_cons. cbn [concat]. rewrite IH. reflexivity.
    + rewrite IH. destruct (hasBlob c) eqn:E; [destruct Hn; exact I|].
      apply hasBlob_payload in E. rewrite E. reflexivity.
Qed.

(** C5 (the code departs from it when the local store raises): the local
    store is asked first.  When it answers, the server is asked exactly
    when no stored chunk has a non-empty payload (no chunk at all, or
    empty payloads only), and then the result is the one built from the
    server answer; with at least one non-empty chunk the server is not
    asked and the audio is made of the local payloads.  When the call of
    the local store is rejected, the server is not asked either: the
    rejection is the result. *)
Theorem local_first_server_fallback env sid dev :
  let res := fst (run env (getChunksForPlayback sid dev)) in
  let trace := snd (run env (getChunksForPlayback sid dev)) in
  head trace = Some (CalledGetChunks sid)
  ∧ (∀ lr, indexedDB env sid = Resolved lr →
       (CalledFetch (chunksUrl sid dev) ∈ trace
        ↔ Forall (λ c, localPayload c = []) (IDB.chunks lr))
       ∧ (Forall (λ c, localPayload c = []) (IDB.chunks lr) →
            trace = [CalledGetChunks sid; CalledFetch (chunksUrl sid dev)]
            ∧ res = Resolved (serverPlayback (server env (chunksUrl sid dev))))
       ∧ (Exists (λ c, localPayload c ≠ []) (IDB.chunks lr) →
            trace = [CalledGetChunks sid]
            ∧ ∃ r, res = Resolved r
                   ∧ error r = None
                   ∧ chunks r ≠ []
                   ∧ Forall (λ p, blob p ≠ []) (chunks r)
                   ∧ stream r = concat (localPayload <$> IDB.chunks lr)))
  ∧ (∀ e, indexedDB env sid = Rejected e →
       trace = [CalledGetChunks sid]
       ∧ (CalledFetch (chunksUrl sid dev) ∉ trace)
       ∧ res = Rejected e).
Proof.
  intros res trace. unfold res, trace. clear res trace.
  rewrite run_getChunksForPlayback.
  destruct (indexedDB env sid) as [lr0|e0] eqn:Hlocal.
  - split.
    { destruct (bool_decide _); reflexivity. }
    split; [|intros e He; discriminate He].
    intros lr [= <-].
    pose proof (localChunks_none lr0) as Hiff.
    pose proof (localChunks_stream lr0) as Hstream.
    pose proof (localChunks_have_bytes lr0) as Hbytes.
    destruct (localChunks lr0) as [|p ps] eqn:Hl; simpl.
    + split; [|split].
      * split; [intros _; apply Hiff; reflexivity|]. intros _. right. left.
      * auto.
      * intros Hex. exfalso.
        assert (Hall : Forall (λ c, localPayload c = []) (IDB.chunks lr0))
          by (apply Hiff; reflexivity).
        apply Exists_exists in Hex as (c & Hin & Hne).
        rewrite Forall_forall in Hall. exact (Hne (Hall c Hin)).
    + split; [|split].
      * split.
        -- intros Hin. apply list_elem_of_singleton in Hin. discriminate Hin.
        -- intros Hall. apply Hiff in Hall. discriminate Hall.
      * intros Hall. apply Hiff in Hall. discriminate Hall.
      * intros _. split; [reflexivity|]. eexists. split; [reflexivity|].
        simpl. split; [reflexivity|]. split; [discriminate|].
        split; [exact Hbytes|]. unfold stream. simpl. exact Hstream.
  - split; [reflexivity|]. split; [intros lr Hlr; discriminate Hlr|].
    intros e [= <-]. split; [reflexivity|]. split; [|reflexivity].
    intros Hin. apply list_elem_of_singleton in Hin. discriminate Hin.
Qed.


Lemma not_playable c :
  length (payload c) = 0%nat ∨ f64_pos (durationOf c) = false →
  playable (asPlayback c) = false.
Proof.
  unfold playable, asPlayback, durationOf, durationOr0. simpl.
  intros [Hlen|Hpos].
  - rewrite Hlen. reflexivity.
  - apply andb_false_iff. right.
    destruct (s_duration c) as [d|]; simpl in *.
    + destruct (f64_truthy d); [exact Hpos|apply f64_zero_not_pos].
    + exact Hpos.
Qed.

Lemma serverPlayback_without l1 c l2 :
  Forall (λ c, decodes c = true) (l1 ++ c :: l2) →
  playable (asPlayback c) = false →
  let r := serverPlayback (ResponseOk (Some (l1 ++ c :: l2))) in
  let r' := serverPlayback (ResponseOk (Some (l1 ++ l2))) in
  Forall (λ p, playable p = true) (chunks r)
  ∧ chunks r = chunks r'
  ∧ totalDuration r = totalDuration r'
  ∧ stream r = stream r'.
Proof.
  intros Hdec Hc r r'.
  assert (Hdec' : Forall (λ c, decodes c = true) (l1 ++ l2)).
  { apply Forall_app in Hdec as [H1 H2]. apply Forall_cons in H2 as [_ H2].
    apply Forall_app. auto. }
  assert (Hr : r = ready (jsSort (λ a b, index a - index b)
                        (filter (λ c, playable c) (asPlayback <$> l1 ++ l2)))).
  { unfold r. rewrite serverPlayback_decodes; [|destruct l1; discriminate|exact Hdec].
    rewrite fmap_app, fmap_cons, (filter_drops playable _ _ _ Hc), <- fmap_app.
    reflexivity. }
  split.
  - rewrite Hr. simpl. rewrite jsSort_perm. apply Forall_forall.
    intros p Hp. apply list_elem_of_filter in Hp as [Hp _].
    destruct (playable p); [reflexivity|destruct Hp].
  - destruct (decide (l1 ++ l2 = [])) as [Hnil|Hne].
    + assert (Hr' : r' = failure "No chunks found").
      { unfold r'. rewrite Hnil. reflexivity. }
      rewrite Hr, Hr', Hnil. auto.
    + assert (Hr' : r' = r).
      { unfold r'. rewrite Hr. apply serverPlayback_decodes; assumption. }
      rewrite Hr'. auto.
Qed.

Lemma localChunks_without l1 c l2 e :
  hasBlob c = false →
  localChunks (IDB.mkChunksResult (l1 ++ c :: l2) e)
  = localChunks (IDB.mkChunksResult (l1 ++ l2) e).
Proof.
  intros Hc. unfold localChunks. simpl.
  rewrite (filter_drops hasBlob _ _ _ Hc). reflexivity.
Qed.

Lemma transcribe_input apiKey db sid deviceId bytes :
  Transcribe.POST apiKey db sid deviceId = Transcribe.SendToSpeech bytes →
  bytes = Transcribe.combinedAudio
            (filter (λ c, Transcribe.hasAudio c)
               (Transcribe.orderAsc (Upload.sessionChunks db sid))).
Proof.
  unfold Transcribe.POST.
  destruct (or_null deviceId) as [dev|]; [|discriminate].
  destruct (uuid_ok dev); simpl; [|discriminate].
  destruct (Upload.users db !! dev); [|discriminate].
  destruct (Upload.findSession db sid _); [|discriminate].
  repeat (case_bool_decide; [discriminate|]).
  destruct (or_null apiKey); [|discriminate].
  intros Heq. injection Heq as <-. reflexivity.
Qed.

(** C4 (amended): playback drops every chunk with an empty payload and,
    for server chunks, every chunk whose duration is not positive, and
    dropping such a chunk from what was fetched changes neither the chunk
    list, nor [totalDuration], nor the bytes of the stream.  The combined
    transcription input drops the chunks without audio data and nothing
    else; it does not look at the duration. *)
Theorem unusable_chunks_excluded :
  (∀ l1 c l2,
     Forall (λ c, decodes c = true) (l1 ++ c :: l2) →
     length (payload c) = 0%nat ∨ f64_pos (durationOf c) = false →
     let r := serverPlayback (ResponseOk (Some (l1 ++ c :: l2))) in
     let r' := serverPlayback (ResponseOk (Some (l1 ++ l2))) in
     Forall (λ p, blob p ≠ [] ∧ f64_pos (duration p) = true) (chunks r)
     ∧ chunks r = chunks r'
     ∧ totalDuration r = totalDuration r'
     ∧ stream r = stream r')
  ∧ (∀ env env' sid dev l1 c l2 e,
       indexedDB env sid = Resolved (IDB.mkChunksResult (l1 ++ c :: l2) e) →
       indexedDB env' sid = Resolved (IDB.mkChunksResult (l1 ++ l2) e) →
       server env' = server env →
       localPayload c = [] →
       Forall (λ p, blob p ≠ [])
         (localChunks (IDB.mkChunksResult (l1 ++ c :: l2) e))
       ∧ fst (run env' (getChunksForPlayback sid dev))
         = fst (run env (getChunksForPlayback sid dev)))
  ∧ (∀ l1 c l2,
       Transcribe.hasAudio c = false →
       Forall (λ c, Transcribe.hasAudio c = true)
         (filter (λ c, Transcribe.hasAudio c) (l1 ++ c :: l2))
       ∧ Transcribe.combinedAudio (filter (λ c, Transcribe.hasAudio c) (l1 ++ c :: l2))
         = Transcribe.combinedAudio (filter (λ c, Transcribe.hasAudio c) (l1 ++ l2)))
  ∧ (∀ apiKey db sid deviceId bytes,
       Transcribe.POST apiKey db sid deviceId = Transcribe.SendToSpeech bytes →
       bytes = Transcribe.combinedAudio
                 (filter (λ c, Transcribe.hasAudio c)
                    (Transcribe.orderAsc (Upload.sessionChunks db sid)))).
Proof.
  split; [|split; [|split]].
  - intros l1 c l2 Hdec Hc r r'.
    destruct (serverPlayback_without l1 c l2 Hdec (not_playable c Hc))
      as (Hall & Hrest).
    split; [|exact Hrest].
    eapply Forall_impl; [exact Hall|]. intros p Hp.
    unfold playable in Hp. apply andb_true_iff in Hp as [Hlen Hpos].
    apply bool_decide_eq_true in Hlen. split; [|exact Hpos].
    intros Hnil. rewrite Hnil in Hlen. simpl in Hlen. lia.
  - intros env env' sid dev l1 c l2 e Henv Henv' Hsrv Hc.
    split; [apply localChunks_have_bytes|].
    rewrite !run_getChunksForPlayback, Henv, Henv', Hsrv.
    rewrite localChunks_without; [reflexivity|].
    unfold localPayload in Hc. unfold hasBlob.
    destruct (IDB.blob c) as [[|x bs]|]; try reflexivity. discriminate Hc.
  - intros l1 c l2 Hc. split.
    + apply Forall_forall. intros x Hx. apply list_elem_of_filter in Hx as [Hx _].
      destruct (Transcribe.hasAudio x); [reflexivity|destruct Hx].
    + rewrite (filter_drops Transcribe.hasAudio _ _ _ Hc). reflexivity.
  - apply transcribe_input.
Qed.


(** C6: with chunks 0, 1 and 3 the report names exactly index 2 as
    missing, and reassembly still plays chunks 0, 1, 3 in that order; in
    general the report lists the absent indices that lie between two
    present ones. *)
Theorem skipped_indices_reported :
  Validation.validateChunkSequence [0; 1; 3]
  = {| Validation.isValid := false; Validation.gaps := [2];
       Validation.duplicates := []; Validation.expectedCount := 4;
       Validation.actualCount := 3; Validation.lastIndex := 3 |}
  ∧ (∀ c0 c1 c3 fetched,
       s_chunkIndex c0 = 0 → s_chunkIndex c1 = 1 → s_chunkIndex c3 = 3 →
       validServer c0 = true → validServer c1 = true → validServer c3 = true →
       fetched ≡ₚ [c0; c1; c3] →
       let r := serverPlayback (ResponseOk (Some fetched)) in
       error r = None
       ∧ index <$> chunks r = [0; 1; 3]
       ∧ audioUrl r = Some (payload c0 ++ payload c1 ++ payload c3))
  ∧ (∀ l g,
       l ≠ [] →
       g ∈ Validation.gaps (Validation.validateChunkSequence l)
       ↔ (g ∉ l) ∧ (∃ a b, a ∈ l ∧ b ∈ l ∧ a ≤ g ≤ b)).
Proof.
  split; [exact validate_0_1_3|]. split; [|exact gaps_spec].
  intros c0 c1 c3 fetched H0 H1 H3 V0 V1 V3 Hperm r.
  assert (Hsorted : StronglySorted (keyLt s_chunkIndex) [c0; c1; c3]).
  { repeat constructor; unfold keyLt; lia. }
  assert (Hvalid : Forall (λ c, validServer c = true) [c0; c1; c3])
    by (repeat constructor; assumption).
  destruct (server_reassembly fetched [c0; c1; c3] Hperm Hsorted Hvalid)
    as (Hr & _ & Hblob & _); [discriminate|].
  unfold r. rewrite Hr. simpl. rewrite H0, H1, H3.
  split; [reflexivity|]. split; [reflexivity|].
  unfold combinedBlob. simpl. rewrite app_nil_r. reflexivity.
Qed.

End ReassemblyClaims.

(** ** Facts about the local store and about [stop] *)

Section LocalStoreFacts.
Import IDB.

(** Every exit of the guarded part that goes through [catch] or through
    the request's events resolves. *)
Lemma guarded_resolves {R : Type} b s useIndex (onCatch : string → R) executor :
  (∀ s1, ∃ r, fst (executor s1) = Resolved r) →
  ∃ r, fst (guarded b s useIndex onCatch executor) = Resolved r.
Proof.
  intros Hex. unfold guarded.
  destruct (initDB b s) as [[[]|e] s1]; [|eauto].
  destruct (transaction b); [eauto|].
  destruct (objectStore b); [eauto|].
  destruct (if useIndex then index b else None); [eauto|].
  apply Hex.
Qed.

(** As long as the request call itself does not raise, the three
    operations on chunks resolve with a result value. *)
Lemma chunk_operations_resolve b s chunk sid :
  (∀ e, request b ≠ RequestThrows e) →
  (∃ r, fst (storeChunk b s chunk) = Resolved r)
  ∧ (∃ r, fst (getChunks b s sid) = Resolved r)
  ∧ (∃ r, fst (deleteChunks b s sid) = Resolved r).
Proof.
  intros Hreq. unfold storeChunk, getChunks, deleteChunks.
  destruct (isIndexedDBAvailable b); simpl; [|repeat split; eauto].
  repeat split; apply guarded_resolves; intros s1;
    destruct (request b) eqn:Hr; simpl; eauto;
    try (exfalso; eapply Hreq; reflexivity).
  destruct (cursorDelete _ _ _ _); simpl; eauto.
Qed.

(** A failure that the code reports comes with [success = false] (or an
    empty list) and a message. *)
Lemma failures_carry_message b s chunk sid :
  (∀ r, fst (storeChunk b s chunk) = Resolved r →
        success r = true ∨ (success r = false ∧ is_Some (error r)))
  ∧ (∀ r, fst (getChunks b s sid) = Resolved r →
          chunks_error r = None ∨ (chunks r = [] ∧ is_Some (chunks_error r)))
  ∧ (∀ r, fst (deleteChunks b s sid) = Resolved r →
          success r = true ∨ (success r = false ∧ is_Some (error r))).
Proof.
  unfold storeChunk, getChunks, deleteChunks, guarded.
  destruct (isIndexedDBAvailable b); simpl.
  2: { repeat split; intros r Hr; injection Hr as <-; right; simpl; eauto. }
  destruct (initDB b s) as [[[]|e] s1]; simpl.
  2: { repeat split; intros r Hr; injection Hr as <-; right; simpl; eauto. }
  destruct (transaction b); simpl.
  1: { repeat split; intros r Hr; injection Hr as <-; right; simpl; eauto. }
  destruct (objectStore b); simpl.
  1: { repeat split; intros r Hr; injection Hr as <-; right; simpl; eauto. }
  repeat split; intros r;
    destruct (index b); simpl;
    destruct (request b); simpl;
    try destruct (cursorDelete _ _ _ _) as [[] ?]; simpl;
    intros Hr; try discriminate Hr; injection Hr as <-; simpl; eauto.
Qed.


(** C7 (the code departs from it): when the request call itself raises
    inside the promise executor ([store.put], [index.getAll],
    [index.openCursor]), the returned promise is rejected: the caller gets
    an exception, not a result value. *)
Theorem request_throw_escapes b s chunk sid e :
  isIndexedDBAvailable b = true →
  db s = true ∨ open b = OpenFiresSuccess →
  transaction b = None →
  objectStore b = None →
  index b = None →
  request b = RequestThrows e →
  fst (storeChunk b s chunk) = Rejected e
  ∧ fst (getChunks b s sid) = Rejected e
  ∧ fst (deleteChunks b s sid) = Rejected e.
Proof.
  intros Ha Ho Ht Hs Hi Hr.
  unfold storeChunk, getChunks, deleteChunks, guarded, initDB.
  rewrite Ha, Ht, Hs, Hi, Hr. simpl.
  destruct Ho as [Hdb|Hopen].
  - rewrite Hdb. auto.
  - rewrite Hopen. destruct (db s); auto.
Qed.

Lemma deleteRecordingState_healthy b s sid :
  healthy b s = true →
  ∃ s1, deleteRecordingState b s sid = (Resolved succeeded, s1)
        ∧ recordingState s1 = delete sid (recordingState s).
Proof.
  unfold healthy. rewrite !andb_true_iff, !bool_decide_eq_true.
  intros [[[[[[Ha Ho] Ht] Hs] _] Hr] _].
  unfold deleteRecordingState, isIndexedDBAvailable, guarded, initDB.
  rewrite Ha, Ht, Hs. simpl.
  destruct (db s) eqn:Hdb; simpl.
  - destruct (request b); try discriminate. eexists. split; reflexivity.
  - simpl in Ho. destruct (open b); try discriminate. simpl.
    destruct (request b); try discriminate. eexists. split; reflexivity.
Qed.

Lemma initDB_contents b s :
  audioChunks (snd (initDB b s)) = audioChunks s
  ∧ recordingState (snd (initDB b s)) = recordingState s.
Proof. unfold initDB. destruct (db s), (open b); auto. Qed.

(** The guarded part changes the store only through its executor. *)
Lemma guarded_contents {R : Type} b s useIndex (onCatch : string → R) executor
    (Q : Store → Prop) :
  (∀ s1, audioChunks s1 = audioChunks s → recordingState s1 = recordingState s → Q s1) →
  (∀ s1, audioChunks s1 = audioChunks s → recordingState s1 = recordingState s →
         Q (snd (executor s1))) →
  Q (snd (guarded b s useIndex onCatch executor)).
Proof.
  intros Hsame Hex. unfold guarded.
  destruct (initDB_contents b s) as [Ha Hr].
  destruct (initDB b s) as [[[]|e] s1]; simpl in *; [|auto].
  destruct (transaction b); simpl; [auto|].
  destruct (objectStore b); simpl; [auto|].
  destruct (if useIndex then index b else None); simpl; auto.
Qed.

Lemma deleteRecordingState_frame b s sid :
  audioChunks (snd (deleteRecordingState b s sid)) = audioChunks s
  ∧ (∀ other, other ≠ sid →
       recordingState (snd (deleteRecordingState b s sid)) !! other
       = recordingState s !! other).
Proof.
  unfold deleteRecordingState. destruct (isIndexedDBAvailable b); simpl; [|auto].
  apply (guarded_contents b s false failed _
           (λ s', audioChunks s' = audioChunks s
                  ∧ ∀ other, other ≠ sid →
                      recordingState s' !! other = recordingState s !! other)).
  - intros s1 -> ->. auto.
  - intros s1 Ha Hr. destruct (request b); simpl; rewrite ?Ha, ?Hr; auto.
    split; [reflexivity|]. intros other Hne. apply lookup_delete_ne. auto.
Qed.

Lemma deleteRecordingState_unfinished b s sid :
  fst (deleteRecordingState b s sid) ≠ Resolved succeeded →
  recordingState (snd (deleteRecordingState b s sid)) = recordingState s.
Proof.
  unfold deleteRecordingState, guarded.
  destruct (isIndexedDBAvailable b); simpl; [|auto].
  destruct (initDB_contents b s) as [Ha Hr].
  destruct (initDB b s) as [[[]|e] s1]; simpl in *; [|auto].
  destruct (transaction b); simpl; [auto|].
  destruct (objectStore b); simpl; [auto|].
  destruct (request b); simpl; auto.
  intros Hne. exfalso. apply Hne. reflexivity.
Qed.

(** What a settled [deleteRecordingState] says about the store. *)
Lemma deleteRecordingState_reported b s sid res :
  fst (deleteRecordingState b s sid) = Resolved res →
  (success res = true → recordingState (snd (deleteRecordingState b s sid)) !! sid = None)
  ∧ (success res = false →
       recordingState (snd (deleteRecordingState b s sid)) = recordingState s).
Proof.
  unfold deleteRecordingState, guarded.
  destruct (isIndexedDBAvailable b); simpl; [|intros [= <-]; split; [discriminate|auto]].
  destruct (initDB_contents b s) as [Ha Hr].
  destruct (initDB b s) as [[[]|e] s1]; simpl in *;
    [|intros [= <-]; split; [discriminate|auto]].
  destruct (transaction b); simpl; [intros [= <-]; split; [discriminate|auto]|].
  destruct (objectStore b); simpl; [intros [= <-]; split; [discriminate|auto]|].
  destruct (request b); simpl; intros Hres; try discriminate Hres;
    injection Hres as <-; simpl.
  - split; [discriminate|auto].
  - split; [intros _; apply lookup_delete_eq|discriminate].
Qed.

End LocalStoreFacts.

Section StopFacts.
Import Recorder.

(** The loop ends within the polls that fit into [maxWaitTime], provided
    every sleep lets the clock advance by its 500 ms. *)
Lemma waitForPending_bounded env startWait :
  (∀ k, 500 ≤ elapsed (env k)) →
  ∀ n fuel k now pending out,
    (n ≤ fuel)%nat →
    startWait + maxWaitTime - now ≤ 500 * Z.of_nat n →
    ∃ w, waitForPending fuel env k startWait now pending out = Some w
         ∧ (w_polls w ≤ k + n)%nat
         ∧ (w_pending w = ∅ ∨ maxWaitTime ≤ w_now w - startWait).
Proof.
  intros Htick. induction n as [|n IH]; intros fuel k now pending out Hle Hbound.
  - assert (Hlate : bool_decide (now - startWait < maxWaitTime) = false)
      by (apply bool_decide_eq_false; lia).
    destruct fuel; cbn [waitForPending]; rewrite Hlate, andb_false_r;
      (eexists; split; [reflexivity|]; simpl; split; [lia|]; right; lia).
  - destruct fuel as [|fuel]; [lia|]. cbn [waitForPending].
    destruct (bool_decide (0 < size pending)%nat) eqn:Hp; simpl.
    + destruct (bool_decide (now - startWait < maxWaitTime)) eqn:Ht; simpl.
      * specialize (Htick k).
        destruct (IH fuel (S k) (now + elapsed (env k))
                    (pending ∖ list_to_set (completed (env k)))
                    (out ++ [ConsoleLog (waitingNote pending)]))
          as (w & Hw & Hpolls & Hexit); [lia|lia|].
        exists w. split; [exact Hw|]. split; [lia|exact Hexit].
      * apply bool_decide_eq_false in Ht.
        eexists. split; [reflexivity|]. simpl. split; [lia|]. right. lia.
    + apply bool_decide_eq_false in Hp.
      eexists. split; [reflexivity|]. simpl. split; [lia|]. left.
      apply leibniz_equiv, size_empty_inv. lia.
Qed.

(** [stop] always comes back, after at most twenty polls. *)
Lemma stop_returns fuel b env now h s :
  (∀ k, 500 ≤ elapsed (env k)) →
  (20 ≤ fuel)%nat →
  ∃ r, stop fuel b env now h s = Some r ∧ (polls r ≤ 20)%nat.
Proof.
  intros Htick Hfuel. unfold stop.
  destruct (recorderRef h) as [[finalBlob|e]|]; [| |];
    try (eexists; split; [reflexivity|simpl; lia]).
  destruct (waitForPending_bounded env now Htick 20 fuel 0 now (pendingChunksRef h) [])
    as (w & -> & Hpolls & _); [exact Hfuel|unfold maxWaitTime; lia|].
  destruct (or_null (sessionIdRef h)) as [sid|].
  - destruct (IDB.deleteRecordingState b s sid) as [[r|e] s1];
      eexists; (split; [reflexivity|simpl; lia]).
  - eexists. split; [reflexivity|simpl; lia].
Qed.

(** The loop of [stop] against the outside world: started after [k]
    sleeps, it sleeps as long as an upload is in flight and less than
    10 s have passed, and no longer. *)
Lemma waitForPending_follows env now pending0 :
  (∀ k, 500 ≤ elapsed (env k)) →
  ∀ n fuel k out,
    (n ≤ fuel)%nat →
    now + 10000 - clockAfter env now k ≤ 500 * Z.of_nat n →
    ∃ w, waitForPending fuel env k now (clockAfter env now k)
           (pendingAfter env pending0 k) out = Some w
         ∧ (k ≤ w_polls w ≤ k + n)%nat
         ∧ w_now w = clockAfter env now (w_polls w)
         ∧ w_pending w = pendingAfter env pending0 (w_polls w)
         ∧ (∀ j, (k ≤ j < w_polls w)%nat →
              pendingAfter env pending0 j ≠ ∅ ∧ clockAfter env now j - now < 10000)
         ∧ (pendingAfter env pending0 (w_polls w) = ∅
            ∨ 10000 ≤ clockAfter env now (w_polls w) - now).
Proof.
  intros Htick. induction n as [|n IH]; intros fuel k out Hle Hbound.
  - assert (Hlate : bool_decide (clockAfter env now k - now < maxWaitTime) = false)
      by (apply bool_decide_eq_false; unfold maxWaitTime; lia).
    destruct fuel; cbn [waitForPending]; rewrite Hlate, andb_false_r;
      (eexists; split; [reflexivity|]; simpl;
       split; [lia|]; split; [reflexivity|]; split; [reflexivity|];
       split; [intros j Hj; lia|right; lia]).
  - destruct fuel as [|fuel]; [lia|]. cbn [waitForPending].
    destruct (bool_decide (0 < size (pendingAfter env pending0 k))%nat) eqn:Hp; simpl.
    + destruct (bool_decide (clockAfter env now k - now < maxWaitTime)) eqn:Ht; simpl.
      * specialize (Htick k).
        apply bool_decide_eq_true in Hp. apply bool_decide_eq_true in Ht.
        unfold maxWaitTime in Ht.
        destruct (IH fuel (S k)
                    (out ++ [ConsoleLog (waitingNote (pendingAfter env pending0 k))]))
          as (w & Hw & Hpolls & Hnow & Hpend & Hbefore & Hexit);
          [lia|cbn [clockAfter]; lia|].
        exists w. split; [exact Hw|]. split; [lia|]. split; [exact Hnow|].
        split; [exact Hpend|]. split; [|exact Hexit].
        intros j Hj. destruct (decide (j = k)) as [->|Hne].
        -- split; [|exact Ht]. intros Hempty. rewrite Hempty, size_empty in Hp. lia.
        -- apply Hbefore. lia.
      * apply bool_decide_eq_false in Ht. unfold maxWaitTime in Ht.
        eexists. split; [reflexivity|]. simpl.
        split; [lia|]. split; [reflexivity|]. split; [reflexivity|].
        split; [intros j Hj; lia|right; lia].
    + apply bool_decide_eq_false in Hp.
      eexists. split; [reflexivity|]. simpl.
      split; [lia|]. split; [reflexivity|]. split; [reflexivity|].
      split; [intros j Hj; lia|left].
      apply leibniz_equiv, size_empty_inv. lia.
Qed.

(** C8 (amended): a stop whose recorder stopped first waits for the
    uploads in flight.  It sleeps 500 ms at a time, as long as an upload
    is pending and less than 10 s have passed since the wait began: at
    most twenty times, and the wait is over less than 10 s plus one sleep
    after it began.  Then it cleans up whether or not uploads are still
    pending, with a warning that names them, and asks the local store to
    delete the persisted state of the session.  When the delete reports
    success, as it does on a working store, the state is gone when [stop]
    returns; when it reports a failure, [stop] logs a warning and returns
    the recording all the same, with the state left where it was.  No
    cached chunk and no state of another session is touched. *)
Theorem stop_deletes_state_after_bounded_wait fuel b env now h s finalBlob sid :
  recorderRef h = Some (Resolved finalBlob) →
  or_null (sessionIdRef h) = Some sid →
  (∀ k, 500 ≤ elapsed (env k)) →
  (20 ≤ fuel)%nat →
  ∃ r,
    stop fuel b env now h s = Some r
    ∧ (polls r ≤ 20)%nat
    ∧ finishedAt r = clockAfter env now (polls r)
    ∧ (∀ j, (j < polls r)%nat →
         pendingAfter env (pendingChunksRef h) j ≠ ∅
         ∧ clockAfter env now j - now < 10000)
    ∧ (pendingAfter env (pendingChunksRef h) (polls r) = ∅
       ∨ 10000 ≤ finishedAt r - now)
    ∧ (∀ d, (∀ k, elapsed (env k) ≤ d) → finishedAt r - now < 10000 + d)
    ∧ (pendingAfter env (pendingChunksRef h) (polls r) ≠ ∅ →
         ConsoleWarn (stillPendingWarning (pendingAfter env (pendingChunksRef h) (polls r)))
           ∈ console r)
    ∧ IDB.audioChunks (store r) = IDB.audioChunks s
    ∧ (∀ other, other ≠ sid →
         IDB.recordingState (store r) !! other = IDB.recordingState s !! other)
    ∧ (∀ res, fst (IDB.deleteRecordingState b s sid) = Resolved res →
         returned r = finalBlob
         ∧ hook r = cleared
         ∧ (IDB.success res = true → IDB.recordingState (store r) !! sid = None)
         ∧ (IDB.success res = false →
              IDB.recordingState (store r) = IDB.recordingState s
              ∧ last (console r) = Some (ConsoleWarn "Failed to delete recording state:")))
    ∧ (healthy b s = true →
         returned r = finalBlob
         ∧ hook r = cleared
         ∧ IDB.recordingState (store r) !! sid = None).
Proof.
  intros Hrec Hsid Htick Hfuel. unfold stop. rewrite Hrec, Hsid.
  destruct (waitForPending_follows env now (pendingChunksRef h) Htick 20 fuel 0%nat [])
    as (w & Hw & Hpolls & Hnow & Hpend & Hbefore & Hexit);
    [exact Hfuel|cbn [clockAfter]; lia|].
  cbn [clockAfter pendingAfter] in Hw. rewrite Hw.
  assert (Hupper : ∀ d, (∀ k, elapsed (env k) ≤ d) → w_now w - now < 10000 + d).
  { intros d Hd. rewrite Hnow. destruct (w_polls w) as [|m] eqn:Hm.
    - cbn [clockAfter]. specialize (Htick 0%nat). specialize (Hd 0%nat). lia.
    - destruct (Hbefore m) as [_ Hlt]; [lia|]. cbn [clockAfter].
      specialize (Hd m). lia. }
  assert (Hwarn : ∀ rest,
            pendingAfter env (pendingChunksRef h) (w_polls w) ≠ ∅ →
            ConsoleWarn (stillPendingWarning
                           (pendingAfter env (pendingChunksRef h) (w_polls w)))
              ∈ (if bool_decide (0 < size (w_pending w))%nat
                 then w_console w ++ [ConsoleWarn (stillPendingWarning (w_pending w))]
                 else w_console w) ++ rest).
  { intros rest Hne. rewrite Hpend.
    rewrite bool_decide_eq_true_2.
    - rewrite !elem_of_app. left. right. apply list_elem_of_here.
    - destruct (decide (size (pendingAfter env (pendingChunksRef h) (w_polls w)) = 0%nat))
        as [Hz|Hnz]; [|lia].
      apply size_empty_inv, leibniz_equiv in Hz. contradiction. }
  pose proof (deleteRecordingState_frame b s sid) as [Hchunks Hstates].
  pose proof (deleteRecordingState_reported b s sid) as Hrep.
  pose proof (deleteRecordingState_healthy b s sid) as Hhealthy.
  destruct (IDB.deleteRecordingState b s sid) as [[res|e] s1];
    cbn [fst snd] in Hchunks, Hstates, Hrep, Hhealthy;
    (eexists; split; [reflexivity|]); cbn [polls finishedAt console store returned hook];
    (split; [lia|]); (split; [exact Hnow|]);
    (split; [intros j Hj; apply Hbefore; lia|]);
    (split; [rewrite Hnow; exact Hexit|]);
    (split; [exact Hupper|]); (split; [|split; [exact Hchunks|split; [exact Hstates|]]]).
  - intros Hne. specialize (Hwarn [] Hne). rewrite app_nil_r in Hwarn.
    destruct (negb (IDB.success res)); [|exact Hwarn].
    rewrite elem_of_app. left. exact Hwarn.
  - split.
    + intros res' [= <-]. destruct (Hrep res eq_refl) as [Hok Hfail].
      split; [reflexivity|]. split; [reflexivity|]. split; [exact Hok|].
      intros Hf. split; [exact (Hfail Hf)|]. rewrite Hf. simpl. apply last_snoc.
    + intros Hb. destruct (Hhealthy Hb) as (s2 & Hdel & Hstate).
      injection Hdel as _ <-. split; [reflexivity|]. split; [reflexivity|].
      rewrite Hstate. apply lookup_delete_eq.
  - intros Hne. apply (Hwarn _ Hne).
  - split; [intros res He; discriminate He|].
    intros Hb. destruct (Hhealthy Hb) as (s2 & Hdel & _). discriminate Hdel.
Qed.

End StopFacts.

(** ** The statements at concrete inputs *)

Section Examples.
#[local] Existing Instance wholeSeconds.
#[local] Existing Instance plainPlatform.
Import Upload.

Example parseInt_3 : parseInt "3" = Int 3.
Proof. reflexivity. Qed.

Example parseInt_prefix : parseInt " -12px" = Int (-12).
Proof. reflexivity. Qed.

Example parseInt_abc : parseInt "abc" = NaN.
Proof. reflexivity. Qed.

Example chunkId_negative : chunkId "s1" (Int (-3)) = "s1--3".
Proof. vm_compute. reflexivity. Qed.

Example chunkId_NaN : chunkId "s1" NaN = "s1-NaN".
Proof. reflexivity. Qed.

Example threeChunks_last : lastChunkIndex threeChunksDb "s1" = Some (Int 2).
Proof. vm_compute. reflexivity. Qed.

Example threeChunks_count : countOf threeChunksDb "s1" = 3.
Proof. vm_compute. reflexivity. Qed.

(** Index 9 after last index 2 is refused, index 8 is not. *)
Example upload_9_after_2 :
  response (POST 4 threeChunksDb (uploadOf "9" "dd" "30"))
  = ErrorResponse 400 "Invalid chunk index: expected 3 (or retry 2), got 9".
Proof. vm_compute. reflexivity. Qed.

Example upload_8_after_2 :
  accepted (POST 4 threeChunksDb (uploadOf "8" "dd" "30")) = true.
Proof. vm_compute. reflexivity. Qed.

(** Index 1 after last index 2 is stored, with a warning on the console. *)
Example upload_1_after_2 :
  accepted (POST 4 threeChunksDb (uploadOf "1" "dd" "30")) = true
  ∧ console (POST 4 threeChunksDb (uploadOf "1" "dd" "30"))
    = [ConsoleWarn
         "Chunk index out of range: expected 3 or retry 2, got 1. Session: s1"].
Proof. vm_compute. split; reflexivity. Qed.

Example upload_0_after_2 :
  response (POST 4 threeChunksDb (uploadOf "0" "dd" "30"))
  = ErrorResponse 400 "Invalid chunk index: expected 3 (or retry 2), got 0".
Proof. vm_compute. reflexivity. Qed.


(** Chunk 0 sent twice: one record, one count. *)
Example retry_overwrites :
  let db2 := db_after (POST 2 (db_after (POST 1 emptySessionDb firstUpload)) retryUpload) in
  size (audioChunks db2) = 1%nat
  ∧ countOf db2 "s1" = 1
  ∧ (audioData <$> audioChunks db2 !! "s1-0") = Some (Some "zzzz").
Proof. vm_compute. repeat split; reflexivity. Qed.

Lemma upload_idempotent_witness :
  requestId retryUpload = requestId firstUpload
  ∧ dom (audioChunks (db_after (POST 1 emptySessionDb firstUpload)))
    = {[requestId firstUpload]} ∪ dom (audioChunks emptySessionDb)
  ∧ match audioChunks emptySessionDb !! requestId firstUpload with
    | None =>
        size (audioChunks (db_after (POST 1 emptySessionDb firstUpload)))
        = S (size (audioChunks emptySessionDb))
        ∧ countOf (db_after (POST 1 emptySessionDb firstUpload)) (r_sessionId firstUpload)
          = countOf emptySessionDb (r_sessionId firstUpload) + 1
    | Some _ =>
        size (audioChunks (db_after (POST 1 emptySessionDb firstUpload)))
        = size (audioChunks emptySessionDb)
        ∧ sessions (db_after (POST 1 emptySessionDb firstUpload))
          = sessions emptySessionDb
    end
  ∧ accepted (POST 2 (db_after (POST 1 emptySessionDb firstUpload)) retryUpload) = true
  ∧ dom (audioChunks
           (db_after (POST 2 (db_after (POST 1 emptySessionDb firstUpload)) retryUpload)))
    = dom (audioChunks (db_after (POST 1 emptySessionDb firstUpload)))
  ∧ size (audioChunks
            (db_after (POST 2 (db_after (POST 1 emptySessionDb firstUpload)) retryUpload)))
    = size (audioChunks (db_after (POST 1 emptySessionDb firstUpload)))
  ∧ sessions (db_after (POST 2 (db_after (POST 1 emptySessionDb firstUpload)) retryUpload))
    = sessions (db_after (POST 1 emptySessionDb firstUpload))
  ∧ (∃ c, audioChunks
            (db_after (POST 2 (db_after (POST 1 emptySessionDb firstUpload)) retryUpload))
            !! requestId firstUpload = Some c
          ∧ audioData c = Some (requestPayload retryUpload)
          ∧ duration c = requestDuration retryUpload)
  ∧ (∀ k, k ≠ requestId firstUpload →
          audioChunks
            (db_after (POST 2 (db_after (POST 1 emptySessionDb firstUpload)) retryUpload))
            !! k
          = audioChunks (db_after (POST 1 emptySessionDb firstUpload)) !! k).
Proof.
  apply (upload_idempotent 1 2 emptySessionDb firstUpload retryUpload).
  - vm_compute. reflexivity.
  - vm_compute. reflexivity.
  - reflexivity.
  - reflexivity.
  - vm_compute. reflexivity.
Defined.

(** A first chunk with index -3 is stored under ["s1--3"]; index 6 is
    refused, index 5 is not. *)
Example first_chunk_negative :
  response (POST 1 emptySessionDb negativeUpload) = ChunkResponse "s1--3" (Int (-3)) 30 1.
Proof. vm_compute. reflexivity. Qed.

Example first_chunk_6 :
  response (POST 1 emptySessionDb (uploadOf "6" "aaaa" "30"))
  = ErrorResponse 400 "First chunk must have index 0, got 6".
Proof. vm_compute. reflexivity. Qed.

Example first_chunk_5 :
  accepted (POST 1 emptySessionDb (uploadOf "5" "aaaa" "30")) = true.
Proof. vm_compute. reflexivity. Qed.

(** C9, as stated, fails for the index that is not a number: a first
    chunk whose index field is ["abc"] passes the check, but [create] is
    handed NaN for the integer column and raises; the handler answers 500
    and no record exists under ["s1-NaN"] afterwards.  An integer below
    the range of the column fares the same. *)
Lemma unstorable_index_creates_no_record :
  passesGuards emptySessionDb nanUpload = true
  ∧ sessionChunks emptySessionDb "s1" = []
  ∧ requestIndex nanUpload = NaN
  ∧ requestId nanUpload = "s1-NaN"
  ∧ fst (checkSequence "s1" (lastChunkIndex emptySessionDb "s1") NaN) = None
  ∧ UploadRoute.POST 1 emptySessionDb nanUpload
    = mkResult (ErrorResponse 500 "Failed to upload chunk") emptySessionDb
        [ConsoleError "Error in POST /api/sessions/[id]/chunks:"]
  ∧ audioChunks (db_after (UploadRoute.POST 1 emptySessionDb nanUpload)) !! "s1-NaN"
    = None
  ∧ requestIndex belowColumnUpload = Int (-2147483649)
  ∧ UploadRoute.POST 1 emptySessionDb belowColumnUpload
    = mkResult (ErrorResponse 500 "Failed to upload chunk") emptySessionDb
        [ConsoleError "Error in POST /api/sessions/[id]/chunks:"].
Proof. vm_compute. repeat split; reflexivity. Qed.

Example typed_first_chunk_negative :
  response (UploadRoute.POST 1 emptySessionDb negativeUpload)
  = ChunkResponse "s1--3" (Int (-3)) 30 1.
Proof. vm_compute. reflexivity. Qed.

Lemma first_chunk_check_witness :
  console (UploadRoute.POST 1 emptySessionDb negativeUpload) = []
  ∧ ∃ c, response (UploadRoute.POST 1 emptySessionDb negativeUpload) = summary c
         ∧ audioChunks (db_after (UploadRoute.POST 1 emptySessionDb negativeUpload))
             !! requestId negativeUpload = Some c
         ∧ audioData c = Some (requestPayload negativeUpload)
         ∧ (audioChunks emptySessionDb !! requestId negativeUpload = None →
              id c = requestId negativeUpload
              ∧ sessionId c = r_sessionId negativeUpload
              ∧ chunkIndex c = requestIndex negativeUpload
              ∧ countOf (db_after (UploadRoute.POST 1 emptySessionDb negativeUpload))
                  (r_sessionId negativeUpload)
                = countOf emptySessionDb (r_sessionId negativeUpload) + 1).
Proof.
  assert (Hg : passesGuards emptySessionDb negativeUpload = true)
    by (vm_compute; reflexivity).
  assert (Hnone : sessionChunks emptySessionDb (r_sessionId negativeUpload) = [])
    by (vm_compute; reflexivity).
  destruct (first_chunk_check 1 emptySessionDb negativeUpload Hg Hnone)
    as (_ & _ & _ & _ & Hstored & _).
  apply (Hstored (-3)); [reflexivity|lia].
Defined.

End Examples.

Section ReassemblyExamples.
#[local] Existing Instance wholeSeconds.
#[local] Existing Instance plainPlatform.
Import Playback.

(** Chunks fetched as 3, 0, 1 are played as 0, 1, 3. *)
Example playback_out_of_order :
  serverPlayback (ResponseOk (Some fetchedOutOfOrder))
  = {| chunks := [asPlayback chunk0; asPlayback chunk1; asPlayback chunk3];
       totalDuration := 72;
       audioUrl := Some (bytesOf "aaaabbbcc");
       error := None |}.
Proof. vm_compute. reflexivity. Qed.

(** Where the code departs from C3: a recording of one chunk that lasted
    5 seconds, which the server stores with duration 5, is reassembled
    from the local store with [totalDuration] 30. *)
Lemma five_seconds_played_as_thirty :
  ∃ r, fst (run (localOnly fiveSecondsLocal (ResponseOk (Some fiveSecondsServer)))
              (getChunksForPlayback "s1" exampleDevice)) = Resolved r
       ∧ Forall (λ c, validServer c = true) fiveSecondsServer
       ∧ totalDuration r = 30
       ∧ fold_left f64_add (durationOf <$> fiveSecondsServer) f64_zero = 5
       ∧ totalDuration r
         ≠ fold_left f64_add (durationOf <$> fiveSecondsServer) f64_zero.
Proof.
  eexists. split; [vm_compute; reflexivity|].
  split; [repeat constructor|].
  split; [reflexivity|]. split; [reflexivity|]. vm_compute. discriminate.
Qed.

Lemma reassembly_in_index_order_witness :
  (∃ r, fst (run (localOnly emptyLocal (ResponseOk (Some fetchedOutOfOrder)))
               (getChunksForPlayback "s1" exampleDevice)) = Resolved r
        ∧ error r = None
        ∧ chunks r = asPlayback <$> [chunk0; chunk1; chunk3]
        ∧ totalDuration r
          = fold_left f64_add (durationOf <$> [chunk0; chunk1; chunk3]) f64_zero
        ∧ audioUrl r = Some (concat (payload <$> [chunk0; chunk1; chunk3]))
        ∧ length (concat (payload <$> [chunk0; chunk1; chunk3]))
          = totalLength (payload <$> fetchedOutOfOrder))
  ∧ (∃ r, fst (run (mkEnv (λ sid, fst (IDB.getChunks workingBackend twoChunksLocal sid))
                      (λ _, ResponseNotOk))
                 (getChunksForPlayback "s1" exampleDevice)) = Resolved r
          ∧ error r = None
          ∧ chunks r = fromLocal <$> [local0; local1]
          ∧ totalDuration r
            = fold_left f64_add (replicate (length [local0; local1]) f64_30) f64_zero
          ∧ audioUrl r = Some (concat (localPayload <$> [local0; local1]))
          ∧ length (concat (localPayload <$> [local0; local1]))
            = totalLength (localPayload <$> IDB.getAll twoChunksLocal "s1")).
Proof.
  split.
  - apply (proj1 reassembly_in_index_order
             (localOnly emptyLocal (ResponseOk (Some fetchedOutOfOrder)))
             "s1" exampleDevice (IDB.mkChunksResult [] None) fetchedOutOfOrder
             [chunk0; chunk1; chunk3]).
    + vm_compute. reflexivity.
    + reflexivity.
    + reflexivity.
    + unfold fetchedOutOfOrder. rewrite (Permutation_cons_append [chunk0; chunk1] chunk3).
      reflexivity.
    + repeat constructor; unfold keyLt; simpl; lia.
    + repeat constructor.
    + discriminate.
  - apply (proj2 reassembly_in_index_order workingBackend twoChunksLocal
             (λ _, ResponseNotOk) "s1" exampleDevice [local0; local1]).
    + reflexivity.
    + assert (Hall : IDB.getAll twoChunksLocal "s1" = [local0; local1]
                     ∨ IDB.getAll twoChunksLocal "s1" = [local1; local0])
        by (vm_compute; auto).
      destruct Hall as [->| ->]; [reflexivity|apply perm_swap].
    + repeat constructor; unfold keyLt; simpl; lia.
    + repeat constructor.
    + discriminate.
Defined.


(** A placeholder chunk (duration 0) among the fetched ones is skipped. *)
Example playback_skips_placeholder :
  serverPlayback (ResponseOk (Some [chunk3; placeholder; chunk0; chunk1]))
  = serverPlayback (ResponseOk (Some fetchedOutOfOrder)).
Proof. vm_compute. reflexivity. Qed.

(** C4, as stated, fails for the transcription input: the only chunk of
    the session has duration 0, yet its audio is what is sent to the
    speech service, and without it the handler answers 404. *)
Lemma transcription_keeps_zero_duration_counterexample :
  ∃ c, Upload.sessionChunks zeroDurationDb "s1" = [c]
       ∧ f64_pos (Upload.duration c) = false
       ∧ Transcribe.POST (Some "key") zeroDurationDb "s1" (Some exampleDevice)
         = Transcribe.SendToSpeech (bytesOf "aaaa")
       ∧ Transcribe.POST (Some "key") emptySessionDb "s1" (Some exampleDevice)
         = Transcribe.Reply 404 "No audio chunks found for this session".
Proof.
  eexists. split; [vm_compute; reflexivity|].
  split; [reflexivity|]. split; vm_compute; reflexivity.
Qed.

Lemma unusable_chunks_excluded_witness :
  (Forall (λ p, blob p ≠ [] ∧ f64_pos (duration p) = true)
     (chunks (serverPlayback (ResponseOk (Some ([chunk3] ++ placeholder :: [chunk0])))))
   ∧ chunks (serverPlayback (ResponseOk (Some ([chunk3] ++ placeholder :: [chunk0]))))
     = chunks (serverPlayback (ResponseOk (Some ([chunk3] ++ [chunk0]))))
   ∧ totalDuration (serverPlayback (ResponseOk (Some ([chunk3] ++ placeholder :: [chunk0]))))
     = totalDuration (serverPlayback (ResponseOk (Some ([chunk3] ++ [chunk0]))))
   ∧ stream (serverPlayback (ResponseOk (Some ([chunk3] ++ placeholder :: [chunk0]))))
     = stream (serverPlayback (ResponseOk (Some ([chunk3] ++ [chunk0])))))
  ∧ (Forall (λ p, blob p ≠ [])
       (localChunks (IDB.mkChunksResult ([local0] ++ localEmptyBlob :: [local1]) None))
     ∧ fst (run (answering ([local0] ++ [local1]) ResponseNotOk)
              (getChunksForPlayback "s1" exampleDevice))
       = fst (run (answering ([local0] ++ localEmptyBlob :: [local1]) ResponseNotOk)
                (getChunksForPlayback "s1" exampleDevice)))
  ∧ (Forall (λ c, Transcribe.hasAudio c = true)
       (filter (λ c, Transcribe.hasAudio c) ([stored0] ++ storedNoAudio :: []))
     ∧ Transcribe.combinedAudio
         (filter (λ c, Transcribe.hasAudio c) ([stored0] ++ storedNoAudio :: []))
       = Transcribe.combinedAudio (filter (λ c, Transcribe.hasAudio c) ([stored0] ++ [])))
  ∧ bytesOf "aaaa"
    = Transcribe.combinedAudio
        (filter (λ c, Transcribe.hasAudio c)
           (Transcribe.orderAsc (Upload.sessionChunks zeroDurationDb "s1"))).
Proof.
  destruct unusable_chunks_excluded as (Hserver & Hlocal & Hfilter & Hinput).
  split; [|split; [|split]].
  - apply (Hserver [chunk3] placeholder [chunk0]).
    + repeat constructor.
    + right. reflexivity.
  - apply (Hlocal (answering ([local0] ++ localEmptyBlob :: [local1]) ResponseNotOk)
             (answering ([local0] ++ [local1]) ResponseNotOk) "s1" exampleDevice
             [local0] localEmptyBlob [local1] None); reflexivity.
  - apply (Hfilter [stored0] storedNoAudio []). reflexivity.
  - apply (Hinput (Some "key") zeroDurationDb "s1" (Some exampleDevice)).
    vm_compute. reflexivity.
Defined.

(** Where the code departs from C5: the browser has no [getAll] on an
    index, so the call of the local store is rejected; the server, which
    has the chunks, is not asked. *)
Lemma local_first_server_fallback_witness :
  snd (run (localBehind withoutGetAll emptyLocal (ResponseOk (Some fetchedOutOfOrder)))
         (getChunksForPlayback "s1" exampleDevice))
  = [CalledGetChunks "s1"]
  ∧ (CalledFetch (chunksUrl "s1" exampleDevice)
       ∉ snd (run (localBehind withoutGetAll emptyLocal
                     (ResponseOk (Some fetchedOutOfOrder)))
                (getChunksForPlayback "s1" exampleDevice)))
  ∧ fst (run (localBehind withoutGetAll emptyLocal (ResponseOk (Some fetchedOutOfOrder)))
           (getChunksForPlayback "s1" exampleDevice))
    = Rejected (mkThrown true "index.getAll is not a function").
Proof.
  apply (proj2 (proj2 (local_first_server_fallback
                         (localBehind withoutGetAll emptyLocal
                            (ResponseOk (Some fetchedOutOfOrder)))
                         "s1" exampleDevice))).
  reflexivity.
Defined.

(** Two local chunks with audio: the server is not asked. *)
Example local_chunks_without_server :
  snd (run (localOnly twoChunksLocal (ResponseOk (Some fetchedOutOfOrder)))
         (getChunksForPlayback "s1" exampleDevice))
  = [CalledGetChunks "s1"]
  ∧ ∃ r, fst (run (localOnly twoChunksLocal (ResponseOk (Some fetchedOutOfOrder)))
                (getChunksForPlayback "s1" exampleDevice)) = Resolved r
         ∧ stream r = bytesOf "aaaabb".
Proof. split; [vm_compute; reflexivity|]. eexists. split; vm_compute; reflexivity. Qed.

(** Local chunks with empty payloads only: the server is asked. *)
Example empty_local_chunks_fall_back :
  snd (run (answering [localEmptyBlob] ResponseNotOk)
         (getChunksForPlayback "s1" "d"))
  = [CalledGetChunks "s1"; CalledFetch "/api/sessions/s1/chunks?deviceId=d"].
Proof. vm_compute. reflexivity. Qed.

(** With an empty local store the server is asked, and an empty server
    answer gives the error result. *)
Example fallback_to_server :
  run (localOnly emptyLocal (ResponseOk (Some []))) (getChunksForPlayback "s1" "d")
  = (Resolved (failure "No chunks found"),
     [CalledGetChunks "s1"; CalledFetch "/api/sessions/s1/chunks?deviceId=d"]).
Proof. vm_compute. reflexivity. Qed.

Lemma skipped_indices_reported_witness :
  (error (serverPlayback (ResponseOk (Some fetchedOutOfOrder))) = None
   ∧ index <$> chunks (serverPlayback (ResponseOk (Some fetchedOutOfOrder))) = [0; 1; 3]
   ∧ audioUrl (serverPlayback (ResponseOk (Some fetchedOutOfOrder)))
     = Some (payload chunk0 ++ payload chunk1 ++ payload chunk3))
  ∧ (2 ∈ Validation.gaps (Validation.validateChunkSequence [0; 1; 3])
     ↔ (2 ∉ [0; 1; 3]) ∧ (∃ a b, a ∈ [0; 1; 3] ∧ b ∈ [0; 1; 3] ∧ a ≤ 2 ≤ b)).
Proof.
  destruct skipped_indices_reported as (_ & Hplay & Hgaps).
  split.
  - apply (Hplay chunk0 chunk1 chunk3 fetchedOutOfOrder); try reflexivity.
    unfold fetchedOutOfOrder. rewrite (Permutation_cons_append [chunk0; chunk1] chunk3).
    reflexivity.
  - apply (Hgaps [0; 1; 3] 2). discriminate.
Defined.

End ReassemblyExamples.

Section LocalStoreExamples.
Import IDB Recorder.

Lemma request_throw_escapes_witness :
  fst (storeChunk throwingBackend emptyLocal local0)
  = Rejected (mkThrown true "DataCloneError")
  ∧ fst (getChunks throwingBackend emptyLocal "s1")
    = Rejected (mkThrown true "DataCloneError")
  ∧ fst (deleteChunks throwingBackend emptyLocal "s1")
    = Rejected (mkThrown true "DataCloneError").
Proof.
  apply (request_throw_escapes throwingBackend emptyLocal local0 "s1"
           (mkThrown true "DataCloneError")); try reflexivity.
  right. reflexivity.
Defined.

(** The failures the code does catch: no IndexedDB at all, and a request
    that fires [error]. *)
Example store_without_indexedDB :
  fst (storeChunk
         (mkBackend false OpenFiresError None None None RequestFiresError None)
         emptyLocal local0)
  = Resolved (failed "IndexedDB not available - using server storage only").
Proof. reflexivity. Qed.

Example getChunks_open_fails :
  fst (getChunks
         (mkBackend true OpenFiresError None None None RequestFiresSuccess None)
         emptyLocal "s1")
  = Resolved (mkChunksResult [] (Some "Failed to open IndexedDB")).
Proof. reflexivity. Qed.

(** Stopping with an upload that never finishes: twenty polls, then the
    state is deleted all the same. *)
Example stop_with_stuck_upload :
  (λ r, (returned r, polls r, finishedAt r, recordingState (store r) !! "s1"))
    <$> stop 20 workingBackend stuckUpload 1000 recordingHook recordingStore
  = Some (Some (bytesOf "final"), 20%nat, 11000, None).
Proof. vm_compute. reflexivity. Qed.

(** C8, as stated, fails when the delete does not go through: the
    request fires [error], [stop] logs a warning, returns the recording
    and clears its refs, and the persisted state of the session is still
    in the store. *)
Lemma failed_delete_leaves_state_counterexample :
  ∃ r, stop 20 requestFails stuckUpload 1000 recordingHook recordingStore = Some r
       ∧ returned r = Some (bytesOf "final")
       ∧ hook r = cleared
       ∧ recordingState (store r) !! "s1"
         = Some (mkRecordingState "s1" true false 0 0 0 8 mic)
       ∧ last (console r) = Some (ConsoleWarn "Failed to delete recording state:").
Proof. eexists. split; [vm_compute; reflexivity|]. vm_compute. auto. Qed.

(** The clock and the pending upload of the example after twenty sleeps. *)
Example stuck_upload_after_twenty :
  clockAfter stuckUpload 1000 20 = 11000
  ∧ pendingAfter stuckUpload {[ 7 ]} 20 = {[ 7 ]}.
Proof. split; [reflexivity|]. vm_compute. reflexivity. Qed.

Lemma stop_deletes_state_after_bounded_wait_witness :
  ∃ r,
    stop 20 workingBackend stuckUpload 1000 recordingHook recordingStore = Some r
    ∧ (polls r ≤ 20)%nat
    ∧ finishedAt r = clockAfter stuckUpload 1000 (polls r)
    ∧ (∀ j, (j < polls r)%nat →
         pendingAfter stuckUpload (pendingChunksRef recordingHook) j ≠ ∅
         ∧ clockAfter stuckUpload 1000 j - 1000 < 10000)
    ∧ (pendingAfter stuckUpload (pendingChunksRef recordingHook) (polls r) = ∅
       ∨ 10000 ≤ finishedAt r - 1000)
    ∧ (∀ d, (∀ k, elapsed (stuckUpload k) ≤ d) → finishedAt r - 1000 < 10000 + d)
    ∧ (pendingAfter stuckUpload (pendingChunksRef recordingHook) (polls r) ≠ ∅ →
         ConsoleWarn
           (stillPendingWarning
              (pendingAfter stuckUpload (pendingChunksRef recordingHook) (polls r)))
           ∈ console r)
    ∧ audioChunks (store r) = audioChunks recordingStore
    ∧ (∀ other, other ≠ "s1" →
         recordingState (store r) !! other = recordingState recordingStore !! other)
    ∧ (∀ res, fst (deleteRecordingState workingBackend recordingStore "s1") = Resolved res →
         returned r = Some (bytesOf "final")
         ∧ hook r = cleared
         ∧ (success res = true → recordingState (store r) !! "s1" = None)
         ∧ (success res = false →
              recordingState (store r) = recordingState recordingStore
              ∧ last (console r) = Some (ConsoleWarn "Failed to delete recording state:")))
    ∧ (healthy workingBackend recordingStore = true →
         returned r = Some (bytesOf "final")
         ∧ hook r = cleared
         ∧ recordingState (store r) !! "s1" = None).
Proof.
  apply (stop_deletes_state_after_bounded_wait 20 workingBackend stuckUpload 1000
           recordingHook recordingStore (Some (bytesOf "final")) "s1").
  - reflexivity.
  - reflexivity.
  - intros k. simpl. lia.
  - lia.
Defined.

End LocalStoreExamples.

(** ** More about the sequence validation *)

Section MoreValidationFacts.
Import Validation ChunkValidation.

Lemma mathMax_spec x xs :
  (mathMax x xs = x ∨ mathMax x xs ∈ xs)
  ∧ x ≤ mathMax x xs
  ∧ ∀ y, y ∈ xs → y ≤ mathMax x xs.
Proof.
  unfold mathMax. revert x. induction xs as [|a xs IH]; intros x; simpl.
  - split; [auto|]. split; [lia|]. intros y Hy. inversion Hy.
  - destruct (IH (Z.max x a)) as (Hmem & Hle & Hall).
    split; [|split].
    + destruct Hmem as [Hm|Hm].
      * rewrite Hm. destruct (Z.max_spec x a) as [[_ ->]|[_ ->]]; [right; left|auto].
      * right. right. exact Hm.
    + lia.
    + intros y Hy. apply elem_of_cons in Hy as [->|Hy]; [lia|auto].
Qed.


(** X1: the expected next index is one past the [lastIndex] of the
    validation report (0 for no chunks); it is larger than every stored
    index, and its predecessor is a stored index. *)
Theorem expected_next_is_past_last l :
  getExpectedNextChunkIndex l = lastIndex (validateChunkSequence l) + 1
  ∧ (∀ x, x ∈ l → x < getExpectedNextChunkIndex l)
  ∧ (l ≠ [] → getExpectedNextChunkIndex l - 1 ∈ l).
Proof.
  destruct l as [|x xs]; [split; [reflexivity|]; split; [intros y Hy; inversion Hy|]; congruence|].
  destruct (mathMax_spec x xs) as (Hmem & Hle & Hall).
  assert (Hin : mathMax x xs ∈ x :: xs) by (destruct Hmem as [->|Hm]; [left|right; exact Hm]).
  assert (Hub : ∀ y, y ∈ x :: xs → y ≤ mathMax x xs).
  { intros y Hy. apply elem_of_cons in Hy as [->|Hy]; auto. }
  destruct (validate_report (x :: xs)) as (lo & hi & Hlo & Hhi & Hb & -> & _); [discriminate|].
  simpl. split; [|split].
  - pose proof (Hub hi Hhi). pose proof (Hb _ Hin). lia.
  - intros y Hy. specialize (Hub y Hy). lia.
  - intros _. replace (mathMax x xs + 1 - 1) with (mathMax x xs) by lia. exact Hin.
Qed.

(** X2: a list of indices is reported valid exactly when it is a run of
    consecutive integers without repetition, in any order; [expectedCount]
    and [actualCount] then agree. *)
Theorem valid_iff_consecutive l :
  (isValid (validateChunkSequence l) = true
   ↔ ∃ lo, l ≡ₚ seqZ lo (Z.of_nat (length l)))
  ∧ (isValid (validateChunkSequence l) = true →
       expectedCount (validateChunkSequence l) = actualCount (validateChunkSequence l)).
Proof.
  destruct (decide (l = [])) as [->|Hne].
  { split; [|reflexivity]. split; [exists 0; reflexivity|reflexivity]. }
  assert (Hfwd : isValid (validateChunkSequence l) = true →
                 ∃ lo hi, l ≡ₚ seqZ lo (hi - lo + 1)
                          ∧ expectedCount (validateChunkSequence l) = hi - lo + 1
                          ∧ actualCount (validateChunkSequence l) = Z.of_nat (length l)).
  { intros Hv. apply (valid_spec l Hne) in Hv as [Hnd Hconv].
    destruct (validate_report l Hne) as (lo & hi & Hlo & Hhi & Hb & -> & _).
    exists lo, hi. simpl. split; [|auto].
    apply NoDup_Permutation; [exact Hnd|apply NoDup_seqZ|].
    intros g. rewrite elem_of_seqZ. split.
    - intros Hg. specialize (Hb g Hg). lia.
    - intros Hg. apply Hconv. exists lo, hi. repeat split; auto; lia. }
  split; [split|].
  - intros Hv. destruct (Hfwd Hv) as (lo & hi & Hp & _). exists lo.
    rewrite (Permutation_length Hp), length_seqZ.
    assert (0 ≤ hi - lo + 1).
    { destruct (Z_lt_le_dec (hi - lo + 1) 0) as [Hneg|]; [|assumption].
      rewrite seqZ_nil in Hp by lia. apply Permutation_nil_r in Hp. contradiction. }
    rewrite Z2Nat.id by assumption. exact Hp.
  - intros [lo Hp]. apply (valid_spec l Hne). split.
    + rewrite Hp. apply NoDup_seqZ.
    + intros g (a & b & Ha & Hb & Hab). rewrite Hp in Ha, Hb |- *.
      rewrite elem_of_seqZ in *. lia.
  - intros Hv. destruct (Hfwd Hv) as (lo & hi & Hp & -> & ->).
    rewrite (Permutation_length Hp), length_seqZ.
    destruct (Z_lt_le_dec (hi - lo + 1) 0) as [Hneg|Hpos].
    + rewrite seqZ_nil in Hp by lia. apply Permutation_nil_r in Hp. contradiction.
    + rewrite Z2Nat.id; lia.
Qed.

End MoreValidationFacts.

(** ** More about the upload handler *)

Section MoreUploadFacts.
Context `{F : Float64} `{P : Platform}.
Import Upload.

Lemma POST_unguarded now db req :
  passesGuards db req = false →
  db_after (POST now db req) = db ∧ accepted (POST now db req) = false.
Proof.
  unfold passesGuards, POST, accepted.
  destruct (r_chunk req); [|auto].
  destruct (or_null (r_chunkIndex req)); [|auto].
  destruct (or_null (r_deviceId req)) as [dev|]; [|auto].
  destruct (uuid_ok dev); simpl; [|auto].
  destruct (users db !! dev) as [user|]; [|auto].
  destruct (findSession db (r_sessionId req) user); [|auto].
  intros Hx. apply bool_decide_eq_false in Hx. exfalso. apply Hx. eauto.
Qed.

(** Either nothing is written, or the database is what [upsert] returns. *)
Lemma POST_outcome now db req :
  (accepted (POST now db req) = false ∧ db_after (POST now db req) = db)
  ∨ (accepted (POST now db req) = true
     ∧ passesGuards db req = true
     ∧ db_after (POST now db req)
       = snd (upsert now db (r_sessionId req) (requestIndex req) (requestPayload req)
                (requestDuration req) (r_transcript req))).
Proof.
  destruct (passesGuards db req) eqn:Hg.
  - destruct (POST_cases now db req Hg) as [(err & _ & ->)|(_ & ->)]; [left|right]; auto.
  - left. destruct (POST_unguarded now db req Hg). auto.
Qed.

(** X3: an upload that is not accepted, whatever the reason, leaves the
    database as it was. *)
Theorem refused_upload_writes_nothing now db req :
  accepted (POST now db req) = false → db_after (POST now db req) = db.
Proof.
  intros Hacc. destruct (POST_outcome now db req) as [[_ Hdb]|[Hacc' _]]; [exact Hdb|].
  congruence.
Qed.

(** X4: a device whose user does not own the session gets 404 and writes
    nothing, whatever chunk it sends. *)
Theorem foreign_session_is_not_found now db req chunk idx dev user s :
  r_chunk req = Some chunk →
  or_null (r_chunkIndex req) = Some idx →
  or_null (r_deviceId req) = Some dev →
  uuid_ok dev = true →
  users db !! dev = Some user →
  sessions db !! r_sessionId req = Some s →
  userId s ≠ user →
  POST now db req = mkResult (ErrorResponse 404 "Session not found") db [].
Proof.
  intros Hc Hi Hd Hu Huser Hs Hne. unfold POST.
  rewrite Hc, Hi, Hd, Hu, Huser. simpl. unfold findSession. rewrite Hs.
  destruct (decide (userId s = user)); [contradiction|reflexivity].
Qed.


Lemma upsert_frame now db sid idx data dur text :
  let db' := snd (upsert now db sid idx data dur text) in
  users db' = users db
  ∧ (∀ k, k ≠ chunkId sid idx → audioChunks db' !! k = audioChunks db !! k)
  ∧ dom (audioChunks db') = {[chunkId sid idx]} ∪ dom (audioChunks db)
  ∧ (∀ sid', sid' ≠ sid → sessions db' !! sid' = sessions db !! sid')
  ∧ (∀ sid', (userId <$> sessions db' !! sid') = (userId <$> sessions db !! sid'))
  ∧ (∀ sid', countOf db sid' ≤ countOf db' sid').
Proof.
  unfold upsert. destruct (audioChunks db !! chunkId sid idx) as [o|] eqn:Hl; simpl.
  - split; [reflexivity|]. split; [intros k Hk; apply lookup_insert_ne; auto|].
    split; [apply dom_insert_L|]. split; [auto|]. split; [auto|].
    intros sid'. unfold countOf. simpl. lia.
  - split; [reflexivity|]. split; [intros k Hk; apply lookup_insert_ne; auto|].
    split; [apply dom_insert_L|].
    split; [intros sid' Hne; apply lookup_alter_ne; auto|]. split.
    + intros sid'. rewrite lookup_alter. destruct (decide (sid = sid')) as [->|]; [|auto].
      destruct (sessions db !! sid'); reflexivity.
    + intros sid'. unfold countOf. simpl. rewrite lookup_alter.
      destruct (decide (sid = sid')) as [->|]; [|lia].
      destruct (sessions db !! sid'); simpl; lia.
Qed.

(** X5: one upload touches at most the record under its derived id and
    the row of its own session.  No stored chunk disappears, no
    [chunksCount] goes down, and the owner of a session never changes. *)
Theorem upload_frame now db req :
  let db' := db_after (POST now db req) in
  users db' = users db
  ∧ (∀ k, k ≠ requestId req → audioChunks db' !! k = audioChunks db !! k)
  ∧ dom (audioChunks db) ⊆ dom (audioChunks db')
  ∧ (∀ sid, sid ≠ r_sessionId req → sessions db' !! sid = sessions db !! sid)
  ∧ (∀ sid, (userId <$> sessions db' !! sid) = (userId <$> sessions db !! sid))
  ∧ (∀ sid, countOf db sid ≤ countOf db' sid).
Proof.
  intros db'. unfold db'.
  destruct (POST_outcome now db req) as [[_ ->]|(_ & _ & ->)].
  - repeat split; auto. intros; lia.
  - destruct (upsert_frame now db (r_sessionId req) (requestIndex req)
                (requestPayload req) (requestDuration req) (r_transcript req))
      as (Hu & Hk & Hdom & Hs & Hown & Hcount).
    split; [exact Hu|]. split; [exact Hk|]. split; [|auto].
    rewrite Hdom. apply union_subseteq_r.
Qed.

Lemma indicesIn_insert_same (m : gmap string AudioChunk) sid cid o c :
  m !! cid = Some o →
  sessionId c = sessionId o →
  chunkIndex c = chunkIndex o →
  indicesIn sid (map_to_list (<[cid := c]> m)) ≡ₚ indicesIn sid (map_to_list m).
Proof.
  intros Hl Hs Hi.
  etransitivity;
    [apply indicesIn_perm; rewrite <- insert_delete_eq;
     apply map_to_list_insert, lookup_delete_eq|].
  etransitivity; [|apply indicesIn_perm, (map_to_list_delete m cid o Hl)].
  rewrite !indicesIn_cons, Hs, Hi. reflexivity.
Qed.

Lemma sessionChunks_length db sid :
  length (sessionChunks db sid) = length (indicesIn sid (map_to_list (audioChunks db))).
Proof. unfold sessionChunks, indicesIn. rewrite length_fmap. reflexivity. Qed.

(** X6: if every [chunksCount] equals the number of chunks stored for its
    session, it still does after any upload. *)
Theorem upload_keeps_counts now db req :
  countsMatch db → countsMatch (db_after (POST now db req)).
Proof.
  intros Hinv.
  destruct (POST_outcome now db req) as [[_ ->]|(_ & Hg & ->)]; [exact Hinv|].
  set (sid := r_sessionId req). set (idx := requestIndex req).
  destruct (guards_session db req Hg) as [ss Hss]. fold sid in Hss.
  intros sid' s'. rewrite sessionChunks_length.
  destruct (audioChunks db !! chunkId sid idx) as [o|] eqn:Hl.
  - rewrite (upsert_existing _ _ _ _ _ _ _ o Hl). simpl. intros Hs'.
    rewrite (Hinv sid' s' Hs'), sessionChunks_length. f_equal.
    symmetry. apply Permutation_length, (indicesIn_insert_same _ _ _ o); auto.
  - rewrite (upsert_fresh _ _ _ _ _ _ _ Hl). simpl.
    rewrite (Permutation_length (indicesIn_perm sid' _ _ (map_to_list_insert _ _ _ Hl))).
    rewrite indicesIn_cons. simpl. rewrite lookup_alter.
    destruct (decide (sid = sid')) as [<-|Hne].
    + rewrite Hss. simpl. intros Hs'. injection Hs' as <-. simpl.
      rewrite (Hinv sid ss Hss), sessionChunks_length.
      destruct (decide (sid = sid)); [|contradiction]. simpl. lia.
    + intros Hs'. rewrite (Hinv sid' s' Hs'), sessionChunks_length.
      destruct (decide (sid = sid')); [contradiction|]. reflexivity.
Qed.

Lemma sessionChunks_spec db sid c :
  c ∈ sessionChunks db sid ↔ sessionId c = sid ∧ ∃ k, audioChunks db !! k = Some c.
Proof.
  unfold sessionChunks. rewrite list_elem_of_filter, list_elem_of_fmap. split.
  - intros [Hs [[k c'] [-> Hin]]]. split; [exact Hs|].
    exists k. apply elem_of_map_to_list in Hin. exact Hin.
  - intros [Hs [k Hk]]. split; [exact Hs|].
    exists (k, c). split; [reflexivity|]. apply elem_of_map_to_list. exact Hk.
Qed.

Lemma upsert_wellKeyed now db sid idx data dur text :
  wellKeyed db → wellKeyed (snd (upsert now db sid idx data dur text)).
Proof.
  intros Hinv k c. destruct (audioChunks db !! chunkId sid idx) as [o|] eqn:Hl.
  - rewrite (upsert_existing _ _ _ _ _ _ _ o Hl). simpl. rewrite lookup_insert.
    destruct (decide (chunkId sid idx = k)) as [<-|]; [|apply Hinv].
    intros Hc. injection Hc as <-. simpl. apply (Hinv _ _ Hl).
  - rewrite (upsert_fresh _ _ _ _ _ _ _ Hl). simpl. rewrite lookup_insert.
    destruct (decide (chunkId sid idx = k)) as [<-|]; [|apply Hinv].
    intros Hc. injection Hc as <-. simpl. auto.
Qed.

(** X7: if every chunk record sits under its own id, the id derived from
    its session and index, it still does after any upload. *)
Theorem upload_keeps_keys now db req :
  wellKeyed db → wellKeyed (db_after (POST now db req)).
Proof.
  intros Hinv.
  destruct (POST_outcome now db req) as [[_ ->]|(_ & _ & ->)]; [exact Hinv|].
  apply upsert_wellKeyed, Hinv.
Qed.

End MoreUploadFacts.

(** ** Numbers written and read back *)

Section NumberText.

Lemma digitVal_pretty d :
  (d < 10)%N → digitVal (pretty_N_char d) = Some (Z.of_N d).
Proof.
  intros Hd.
  assert (d = 0 ∨ d = 1 ∨ d = 2 ∨ d = 3 ∨ d = 4 ∨ d = 5 ∨ d = 6 ∨ d = 7
          ∨ d = 8 ∨ d = 9)%N as Hcases by lia.
  repeat (destruct Hcases as [->|Hcases]; [reflexivity|]). subst. reflexivity.
Qed.

Lemma digits_pretty_go x s :
  (0 < x)%N → digits (pretty_N_go x s) None = digits s (Some (Z.of_N x)).
Proof.
  revert s. induction (N.lt_wf_0 x) as [x _ IH]; intros s Hx.
  rewrite pretty_N_go_step by exact Hx.
  assert (Hmod : (x `mod` 10 < 10)%N) by (apply N.mod_lt; lia).
  assert (Hdm : Z.of_N x = 10 * Z.of_N (x `div` 10) + Z.of_N (x `mod` 10)).
  { rewrite (N.div_mod x 10) at 1 by lia. lia. }
  destruct (decide (x `div` 10 = 0)%N) as [Hz|Hnz].
  - rewrite Hz, pretty_N_go_0. simpl. rewrite (digitVal_pretty _ Hmod).
    f_equal. f_equal. rewrite Hz in Hdm. rewrite Hdm. reflexivity.
  - rewrite IH; [|apply N.div_lt; lia|apply N.neq_0_lt_0; exact Hnz].
    simpl. rewrite (digitVal_pretty _ Hmod). f_equal. f_equal. symmetry. exact Hdm.
Qed.

Lemma pretty_go_head x s :
  (0 < x)%N → ∃ d rest, (d < 10)%N ∧ pretty_N_go x s = String (pretty_N_char d) rest.
Proof.
  revert s. induction (N.lt_wf_0 x) as [x _ IH]; intros s Hx.
  rewrite pretty_N_go_step by exact Hx.
  destruct (decide (x `div` 10 = 0)%N) as [Hz|Hnz].
  - rewrite Hz, pretty_N_go_0. exists (x `mod` 10)%N, s.
    split; [apply N.mod_lt; lia|reflexivity].
  - apply IH; [apply N.div_lt; lia|apply N.neq_0_lt_0; exact Hnz].
Qed.

Lemma parseInt_digit_head d rest :
  (d < 10)%N →
  parseInt (String (pretty_N_char d) rest)
  = match digits (String (pretty_N_char d) rest) None with
    | None => NaN
    | Some n => Int n
    end.
Proof.
  intros Hd.
  assert (d = 0 ∨ d = 1 ∨ d = 2 ∨ d = 3 ∨ d = 4 ∨ d = 5 ∨ d = 6 ∨ d = 7
          ∨ d = 8 ∨ d = 9)%N as Hcases by lia.
  repeat (destruct Hcases as [->|Hcases]; [reflexivity|]). subst. reflexivity.
Qed.

Lemma parseInt_pretty_pos p : parseInt (pretty_N_go (N.pos p) "") = Int (Z.pos p).
Proof.
  destruct (pretty_go_head (N.pos p) "") as (d & rest & Hd & Heq); [lia|].
  pose proof (digits_pretty_go (N.pos p) "") as Hdig.
  rewrite Heq in Hdig |- *. rewrite (parseInt_digit_head d rest Hd), Hdig by lia.
  reflexivity.
Qed.

Lemma parseInt_show n : parseInt (show n) = n.
Proof.
  destruct n as [|[|p|p]]; try reflexivity.
  - apply parseInt_pretty_pos.
  - assert (Hshow : show (Int (Z.neg p)) = String "-" (pretty_N_go (N.pos p) ""))
      by reflexivity.
    rewrite Hshow.
    pose proof (digits_pretty_go (N.pos p) "") as Hdig.
    revert Hdig. generalize (pretty_N_go (N.pos p) ""). intros t Hdig.
    unfold parseInt. simpl. rewrite Hdig by lia. reflexivity.
Qed.

Lemma show_cons n : ∃ a s, show n = String a s.
Proof.
  destruct n as [|[|p|p]].
  - eexists _, _. reflexivity.
  - eexists _, _. reflexivity.
  - destruct (pretty_go_head (N.pos p) "") as (d & rest & _ & Heq); [lia|].
    exists (pretty_N_char d), rest. exact Heq.
  - exists "-"%char, (pretty_N_go (N.pos p) ""). reflexivity.
Qed.

Lemma show_inj a b : show a = show b → a = b.
Proof. intros Heq. rewrite <- (parseInt_show a), <- (parseInt_show b), Heq. reflexivity. Qed.

Lemma append_cancel (s x y : string) : s +:+ x = s +:+ y → x = y.
Proof. induction s as [|a s IH]; simpl; [auto|]. intros Heq. injection Heq as Heq. auto. Qed.

End NumberText.

Section ChunkIds.
Context `{F : Float64} `{P : Platform}.
Import Upload.

Lemma chunkId_inj sid a b : chunkId sid a = chunkId sid b → a = b.
Proof.
  unfold chunkId. intros Heq.
  apply append_cancel in Heq. injection Heq as Heq. apply show_inj, Heq.
Qed.

(** X8: within a session the derived id tells the index: two uploads
    meet in one record only when the handler parsed the same index out
    of both, and an index written with [toString()] is parsed back as
    itself. *)
Theorem same_record_same_index req1 req2 :
  r_sessionId req2 = r_sessionId req1 →
  (requestId req1 = requestId req2 ↔ requestIndex req1 = requestIndex req2)
  ∧ (∀ n, r_chunkIndex req1 = Some (show n) → requestIndex req1 = n).
Proof.
  intros Hs. split; [split|].
  - unfold requestId. rewrite Hs. apply chunkId_inj.
  - unfold requestId. rewrite Hs. intros ->. reflexivity.
  - intros n Hn. unfold requestIndex. rewrite Hn. apply parseInt_show.
Qed.

End ChunkIds.

(** ** More about the local store *)

Section MoreLocalStoreFacts.
Import IDB.

Lemma healthy_guarded {R : Type} b s useIndex (onCatch : string → R) executor :
  healthy b s = true →
  available b = true
  ∧ request b = RequestFiresSuccess
  ∧ cursorFailsAt b = None
  ∧ ∃ s1, guarded b s useIndex onCatch executor = executor s1
          ∧ db s1 = true
          ∧ audioChunks s1 = audioChunks s
          ∧ recordingState s1 = recordingState s.
Proof.
  unfold healthy. rewrite !andb_true_iff, !bool_decide_eq_true.
  intros [[[[[[Ha Ho] Ht] Hs] Hi] Hr] Hc].
  split; [exact Ha|]. split; [destruct (request b); try discriminate; reflexivity|].
  split; [exact Hc|].
  unfold guarded, initDB. rewrite Ht, Hs, Hi.
  destruct (db s) eqn:Hdb; simpl.
  - exists s. destruct useIndex; auto.
  - simpl in Ho. destruct (open b); try discriminate.
    eexists. split; [destruct useIndex; reflexivity|]. auto.
Qed.

Lemma healthy_opened b s s1 :
  healthy b s = true → db s1 = true → healthy b s1 = true.
Proof.
  unfold healthy. rewrite !andb_true_iff. intros [[[[[[Ha _] Ht] Hs] Hi] Hr] Hc] ->.
  auto 10.
Qed.

Lemma storeChunk_unfinished b s chunk :
  fst (storeChunk b s chunk) ≠ Resolved succeeded →
  audioChunks (snd (storeChunk b s chunk)) = audioChunks s.
Proof.
  unfold storeChunk, guarded.
  destruct (isIndexedDBAvailable b); simpl; [|auto].
  destruct (initDB_contents b s) as [Ha Hr].
  destruct (initDB b s) as [[[]|e] s1]; simpl in *; [|auto].
  destruct (transaction b); simpl; [auto|].
  destruct (objectStore b); simpl; [auto|].
  destruct (request b); simpl; auto.
  intros Hne. exfalso. apply Hne. reflexivity.
Qed.

Lemma storeChunk_stored b s chunk res :
  fst (storeChunk b s chunk) = Resolved res →
  success res = true →
  audioChunks (snd (storeChunk b s chunk)) = <[id chunk := chunk]> (audioChunks s).
Proof.
  unfold storeChunk, guarded.
  destruct (isIndexedDBAvailable b); simpl; [|intros [= <-]; discriminate].
  destruct (initDB_contents b s) as [Ha Hr].
  destruct (initDB b s) as [[[]|e] s1]; simpl in *; [|intros [= <-]; discriminate].
  destruct (transaction b); simpl; [intros [= <-]; discriminate|].
  destruct (objectStore b); simpl; [intros [= <-]; discriminate|].
  destruct (request b); simpl; try (intros [= <-]; discriminate).
  intros _ _. rewrite Ha. reflexivity.
Qed.

(** X9: the two object stores are independent, and reading writes
    nothing: [getChunks] and [getRecordingState] leave every record as it
    was, the chunk operations never touch a recording state, and the
    recording-state operations never touch a chunk. *)
Theorem reads_write_nothing b s chunk st sid :
  (audioChunks (snd (getChunks b s sid)) = audioChunks s
   ∧ recordingState (snd (getChunks b s sid)) = recordingState s)
  ∧ (audioChunks (snd (getRecordingState b s sid)) = audioChunks s
     ∧ recordingState (snd (getRecordingState b s sid)) = recordingState s)
  ∧ recordingState (snd (storeChunk b s chunk)) = recordingState s
  ∧ recordingState (snd (deleteChunks b s sid)) = recordingState s
  ∧ audioChunks (snd (saveRecordingState b s st)) = audioChunks s
  ∧ audioChunks (snd (deleteRecordingState b s sid)) = audioChunks s.
Proof.
  unfold getChunks, getRecordingState, storeChunk, deleteChunks, saveRecordingState,
    deleteRecordingState.
  destruct (isIndexedDBAvailable b); simpl; [|auto 10].
  repeat split;
    (apply guarded_contents; [auto|]; intros s1 Ha Hr;
     destruct (request b); simpl; auto;
     try (destruct (cursorDelete _ _ _ _); simpl; auto)).
Qed.

(** X10: a write of one record is all or nothing.  Unless the promise
    resolves with [success: true], the stores hold what they held
    before, whichever call of the browser failed. *)
Theorem failed_write_changes_nothing b s chunk st sid :
  (fst (storeChunk b s chunk) ≠ Resolved succeeded →
     audioChunks (snd (storeChunk b s chunk)) = audioChunks s)
  ∧ (fst (saveRecordingState b s st) ≠ Resolved succeeded →
       recordingState (snd (saveRecordingState b s st)) = recordingState s)
  ∧ (fst (deleteRecordingState b s sid) ≠ Resolved succeeded →
       recordingState (snd (deleteRecordingState b s sid)) = recordingState s).
Proof.
  unfold storeChunk, saveRecordingState, deleteRecordingState, guarded.
  destruct (isIndexedDBAvailable b); simpl; [|auto].
  destruct (initDB_contents b s) as [Ha Hr].
  destruct (initDB b s) as [[[]|e] s1]; simpl in *; [|auto].
  destruct (transaction b); simpl; [auto|].
  destruct (objectStore b); simpl; [auto|].
  destruct (request b); simpl; auto.
  repeat split; intros Hne; exfalso; apply Hne; reflexivity.
Qed.

Lemma getAll_spec s sid c :
  c ∈ getAll s sid ↔ sessionId c = sid ∧ ∃ k, audioChunks s !! k = Some c.
Proof.
  unfold getAll. rewrite list_elem_of_filter, list_elem_of_fmap. split.
  - intros [Hs [[k c'] [-> Hin]]]. split; [exact Hs|].
    exists k. apply elem_of_map_to_list in Hin. exact Hin.
  - intros [Hs [k Hk]]. split; [exact Hs|].
    exists (k, c). split; [reflexivity|]. apply elem_of_map_to_list. exact Hk.
Qed.

(** X11: on a working store, a chunk that was stored is among the chunks
    read back for its session.  The list read back holds chunks of that
    session only, in ascending index order, and still holds every chunk
    of the session that sat under another id. *)
Theorem stored_chunk_is_read_back b s chunk :
  healthy b s = true →
  ∃ s1 l,
    storeChunk b s chunk = (Resolved succeeded, s1)
    ∧ fst (getChunks b s1 (sessionId chunk)) = Resolved (mkChunksResult l None)
    ∧ chunk ∈ l
    ∧ Forall (λ c, sessionId c = sessionId chunk) l
    ∧ StronglySorted (keyLe chunkIndex) l
    ∧ (∀ k c, k ≠ id chunk → audioChunks s !! k = Some c →
              sessionId c = sessionId chunk → c ∈ l).
Proof.
  intros Hb.
  destruct (healthy_guarded b s false failed
              (λ s1, match request b with
                     | RequestThrows e => (Rejected e, s1)
                     | RequestFiresSuccess =>
                         (Resolved succeeded,
                          {| db := db s1;
                             audioChunks := <[id chunk := chunk]> (audioChunks s1);
                             recordingState := recordingState s1 |})
                     | RequestFiresError =>
                         (Resolved
                            (failed "IndexedDB storage failed - using server storage only"),
                          s1)
                     end) Hb)
    as (Hav & Hreq & _ & s1 & Hg & Hdb & Ha & Hr).
  unfold storeChunk, isIndexedDBAvailable. rewrite Hav. simpl. rewrite Hg, Hreq.
  eexists. eexists. split; [reflexivity|].
  split.
  { apply getChunks_healthy. apply (healthy_opened b s); [exact Hb|exact Hdb]. }
  assert (Hin : ∀ c, c ∈ jsSort (λ a b, chunkIndex a - chunkIndex b)
                         (getAll {| db := db s1;
                                    audioChunks := <[id chunk := chunk]> (audioChunks s1);
                                    recordingState := recordingState s1 |}
                                 (sessionId chunk))
                     ↔ sessionId c = sessionId chunk
                       ∧ ∃ k, <[id chunk := chunk]> (audioChunks s) !! k = Some c).
  { intros c. rewrite jsSort_perm, getAll_spec. simpl. rewrite Ha. reflexivity. }
  split; [|split; [|split]].
  - apply Hin. split; [reflexivity|]. exists (id chunk). apply lookup_insert_eq.
  - apply Forall_forall. intros c Hc. apply Hin in Hc. apply Hc.
  - apply jsSort_sorted.
  - intros k c Hk Hl Hs. apply Hin. split; [exact Hs|]. exists k.
    rewrite lookup_insert_ne by auto. exact Hl.
Qed.

(** X12: on a working store, a saved recording state is read back as it
    was saved, and after [deleteRecordingState] nothing is read back for
    that session. *)
Theorem recording_state_round_trip b s st :
  healthy b s = true →
  ∃ s1 s2,
    saveRecordingState b s st = (Resolved succeeded, s1)
    ∧ fst (getRecordingState b s1 (rs_sessionId st))
      = Resolved (mkStateResult (Some st) None)
    ∧ deleteRecordingState b s1 (rs_sessionId st) = (Resolved succeeded, s2)
    ∧ fst (getRecordingState b s2 (rs_sessionId st))
      = Resolved (mkStateResult None None)
    ∧ (∀ other, other ≠ rs_sessionId st →
         recordingState s2 !! other = recordingState s !! other).
Proof.
  intros Hb.
  assert (Hget : ∀ s' sid, db s' = true →
            fst (getRecordingState b s' sid)
            = Resolved (mkStateResult (recordingState s' !! sid) None)).
  { intros s' sid Hdb.
    pose proof (healthy_opened b s s' Hb Hdb) as Hb'.
    destruct (healthy_guarded b s' false (λ msg, mkStateResult None (Some msg))
                (λ s1, match request b with
                       | RequestThrows e => (Rejected e, s1)
                       | RequestFiresSuccess =>
                           (Resolved (mkStateResult (recordingState s1 !! sid) None), s1)
                       | RequestFiresError =>
                           (Resolved
                              (mkStateResult None (Some "Failed to get recording state")),
                            s1)
                       end) Hb')
      as (Hav & Hreq & _ & s1 & Hg & _ & _ & Hr).
    unfold getRecordingState, isIndexedDBAvailable. rewrite Hav. simpl.
    rewrite Hg, Hreq. simpl. rewrite Hr. reflexivity. }
  destruct (healthy_guarded b s false failed
              (λ s1, match request b with
                     | RequestThrows e => (Rejected e, s1)
                     | RequestFiresSuccess =>
                         (Resolved succeeded,
                          {| db := db s1; audioChunks := audioChunks s1;
                             recordingState :=
                               <[rs_sessionId st := st]> (recordingState s1) |})
                     | RequestFiresError =>
                         (Resolved (failed "Failed to save recording state"), s1)
                     end) Hb)
    as (Hav & Hreq & _ & s1 & Hg & Hdb & Ha & Hr).
  set (s1' := {| db := db s1; audioChunks := audioChunks s1;
                 recordingState := <[rs_sessionId st := st]> (recordingState s1) |}).
  assert (Hb1 : healthy b s1' = true) by (apply (healthy_opened b s); auto).
  destruct (deleteRecordingState_healthy b s1' (rs_sessionId st) Hb1)
    as (s2 & Hdel & Hstate).
  assert (Hdb2 : db s2 = true).
  { revert Hdel. unfold deleteRecordingState, isIndexedDBAvailable, guarded, initDB.
    rewrite Hav. simpl. rewrite Hdb.
    destruct (transaction b); [intros [= _ <-]; exact Hdb|].
    destruct (objectStore b); [intros [= _ <-]; exact Hdb|].
    rewrite Hreq. intros [= <-]. exact Hdb. }
  exists s1', s2.
  split.
  { unfold saveRecordingState, isIndexedDBAvailable. rewrite Hav. simpl.
    rewrite Hg, Hreq. reflexivity. }
  split.
  { rewrite Hget by exact Hdb. simpl. rewrite lookup_insert_eq. reflexivity. }
  split; [exact Hdel|].
  split.
  { rewrite Hget by exact Hdb2. rewrite Hstate, lookup_delete_eq. reflexivity. }
  intros other Hne. rewrite Hstate. simpl.
  rewrite lookup_delete_ne, lookup_insert_ne by auto. rewrite Hr. reflexivity.
Qed.

Lemma cursorDelete_lookup keys step failAt (m : gmap string AudioChunkData) k :
  let m' := snd (cursorDelete keys step failAt m) in
  (m' !! k = m !! k ∨ (m' !! k = None ∧ k ∈ keys))
  ∧ (failAt = None → k ∈ keys → m' !! k = None)
  ∧ (failAt = None → fst (cursorDelete keys step failAt m) = true).
Proof.
  revert step m. induction keys as [|key keys IH]; intros step m; cbn [cursorDelete].
  - destruct (bool_decide _) eqn:Hf; simpl.
    + apply bool_decide_eq_true in Hf.
      split; [auto|]. split; intros ->; discriminate.
    + split; [auto|]. split; [|reflexivity].
      intros _ Hin. apply elem_of_nil in Hin. destruct Hin.
  - destruct (bool_decide _) eqn:Hf; simpl.
    + apply bool_decide_eq_true in Hf.
      split; [auto|]. split; intros ->; discriminate.
    + destruct (IH (S step) (delete key m)) as (Hl & Hn & Hok).
      split; [|split].
      * destruct Hl as [Hl|[Hl Hin]].
        -- destruct (decide (key = k)) as [->|Hne].
           ++ right. split; [rewrite Hl; apply lookup_delete_eq|set_solver].
           ++ left. rewrite Hl. apply lookup_delete_ne. exact Hne.
        -- right. split; [exact Hl|set_solver].
      * intros Hnone Hin. apply elem_of_cons in Hin as [->|Hin]; [|auto].
        destruct Hl as [Hl|[Hl _]]; [|exact Hl].
        rewrite Hl. apply lookup_delete_eq.
      * exact Hok.
Qed.

Lemma deleteChunks_lookup b s sid k :
  let s1 := snd (deleteChunks b s sid) in
  audioChunks s1 !! k = audioChunks s !! k
  ∨ (audioChunks s1 !! k = None ∧ k ∈ id <$> getAll s sid).
Proof.
  unfold deleteChunks. destruct (isIndexedDBAvailable b); cbn [negb snd]; [|auto].
  apply (guarded_contents b s true failed _
           (λ s', audioChunks s' !! k = audioChunks s !! k
                  ∨ (audioChunks s' !! k = None ∧ k ∈ id <$> getAll s sid))).
  - intros s0 -> _. auto.
  - intros s0 Ha _.
    assert (Hget : getAll s0 sid = getAll s sid)
      by (unfold getAll; rewrite Ha; reflexivity).
    destruct (request b); cbn [snd]; try (left; rewrite Ha; reflexivity).
    pose proof (cursorDelete_lookup (id <$> getAll s0 sid) 0 (cursorFailsAt b)
                  (audioChunks s0) k) as (Hd & _ & _).
    cbv zeta in Hd.
    destruct (cursorDelete (id <$> getAll s0 sid) 0 (cursorFailsAt b) (audioChunks s0))
      as [[] m]; cbn [snd audioChunks] in *.
    + rewrite <- Hget, <- Ha. exact Hd.
    + left. rewrite Ha. reflexivity.
Qed.

(** X13: [deleteChunks] never removes or changes a chunk of another
    session and never adds one, whatever the browser does on the way.
    On a working store it removes every chunk of the session: nothing is
    read back for it afterwards. *)
Theorem deleteChunks_only_own_session b s sid :
  keyedById s →
  let s1 := snd (deleteChunks b s sid) in
  (∀ k c, audioChunks s !! k = Some c → sessionId c ≠ sid →
          audioChunks s1 !! k = Some c)
  ∧ (∀ k c, audioChunks s1 !! k = Some c → audioChunks s !! k = Some c)
  ∧ (healthy b s = true →
       fst (deleteChunks b s sid) = Resolved succeeded
       ∧ getAll s1 sid = []
       ∧ fst (getChunks b s1 sid) = Resolved (mkChunksResult [] None)).
Proof.
  intros Hkey s1.
  assert (Hkeys : ∀ s0 k, audioChunks s0 = audioChunks s →
            k ∈ id <$> getAll s0 sid →
            ∃ c, audioChunks s !! k = Some c ∧ sessionId c = sid).
  { intros s0 k Ha Hin. apply list_elem_of_fmap in Hin as (c & -> & Hc).
    apply getAll_spec in Hc as [Hs [k' Hk']]. rewrite Ha in Hk'.
    exists c. rewrite (Hkey _ _ Hk'). auto. }
  split; [|split].
  - intros k c Hl Hs.
    destruct (deleteChunks_lookup b s sid k) as [Hd|[_ Hin]]; [unfold s1; congruence|].
    destruct (Hkeys s k eq_refl Hin) as (c' & Hc' & Hs').
    rewrite Hl in Hc'. injection Hc' as <-. contradiction.
  - intros k c Hl.
    destruct (deleteChunks_lookup b s sid k) as [Hd|[Hd _]]; unfold s1 in Hl; congruence.
  - intros Hb.
    destruct (healthy_guarded b s true failed
                (λ s1, match request b with
                       | RequestThrows e => (Rejected e, s1)
                       | RequestFiresError =>
                           (Resolved (failed "Failed to delete chunks from IndexedDB"), s1)
                       | RequestFiresSuccess =>
                           let '(ok, m) :=
                             cursorDelete (id <$> getAll s1 sid) 0 (cursorFailsAt b)
                               (audioChunks s1) in
                           (Resolved
                              (if ok then succeeded
                               else failed "Failed to delete chunks from IndexedDB"),
                            {| db := db s1;
                               audioChunks := if ok then m else audioChunks s1;
                               recordingState := recordingState s1 |})
                       end) Hb)
      as (Hav & Hreq & Hcur & s0 & Hg & Hdb & Ha & Hr).
    assert (Hrun : deleteChunks b s sid
                   = (Resolved succeeded,
                      {| db := db s0;
                         audioChunks :=
                           snd (cursorDelete (id <$> getAll s0 sid) 0 None (audioChunks s0));
                         recordingState := recordingState s0 |})).
    { unfold deleteChunks, isIndexedDBAvailable. rewrite Hav. cbn [negb].
      rewrite Hg, Hreq, Hcur.
      pose proof (cursorDelete_lookup (id <$> getAll s0 sid) 0 None
                    (audioChunks s0) sid) as (_ & _ & Hok).
      destruct (cursorDelete (id <$> getAll s0 sid) 0 None (audioChunks s0)) as [ok m].
      cbn [fst snd] in *. rewrite (Hok eq_refl). reflexivity. }
    assert (Hempty : getAll s1 sid = []).
    { unfold s1. rewrite Hrun. simpl.
      apply elem_of_nil_inv. intros c Hc. apply getAll_spec in Hc as [Hs [k Hk]].
      simpl in Hk.
      pose proof (cursorDelete_lookup (id <$> getAll s0 sid) 0 None
                    (audioChunks s0) k) as (Hd & Hn & _).
      destruct Hd as [Hd|[Hd _]]; [|rewrite Hd in Hk; discriminate].
      rewrite Hd, Ha in Hk.
      rewrite Hn in Hd; [rewrite Ha, Hk in Hd; discriminate|reflexivity|].
      apply list_elem_of_fmap. exists c. split; [symmetry; apply (Hkey _ _ Hk)|].
      apply getAll_spec. split; [exact Hs|]. exists k. rewrite Ha. exact Hk. }
    split; [rewrite Hrun; reflexivity|]. split; [exact Hempty|].
    rewrite getChunks_healthy.
    + rewrite Hempty. reflexivity.
    + apply (healthy_opened b s); [exact Hb|]. unfold s1. rewrite Hrun. exact Hdb.
Qed.

(** [deleteChunks] is all or nothing: unless it resolves with
    [success: true], the chunks are the ones that were there before. *)
Lemma deleteChunks_unfinished b s sid :
  fst (deleteChunks b s sid) ≠ Resolved succeeded →
  audioChunks (snd (deleteChunks b s sid)) = audioChunks s.
Proof.
  unfold deleteChunks, guarded.
  destruct (isIndexedDBAvailable b); simpl; [|auto].
  destruct (initDB_contents b s) as [Ha Hr].
  destruct (initDB b s) as [[[]|e] s1]; simpl in *; [|auto].
  destruct (transaction b); simpl; [auto|].
  destruct (objectStore b); simpl; [auto|].
  destruct (index b); simpl; [auto|].
  destruct (request b); simpl; auto.
  destruct (cursorDelete _ _ _ _) as [[] m]; simpl; [|auto].
  intros Hne. exfalso. apply Hne. reflexivity.
Qed.

(** A cursor that fails after the first record: the failure is reported
    and both chunks are still in the store. *)
Example failed_cursor_rolls_back :
  fst (deleteChunks cursorBreaks twoChunksLocal "s1")
  = Resolved (failed "Failed to delete chunks from IndexedDB")
  ∧ audioChunks (snd (deleteChunks cursorBreaks twoChunksLocal "s1"))
    = audioChunks twoChunksLocal.
Proof. vm_compute. split; reflexivity. Qed.

End MoreLocalStoreFacts.

(** ** More about [stop] *)

Section MoreStopFacts.
Import Recorder.

(** X14: whatever happens, [stop] leaves the locally cached chunks
    alone and touches no recording state but the one of its session.
    It either gives up, returning [null] with the recorder and the
    session id still in the hook, or it returns what the recorder
    returned and clears the hook. *)
Theorem stop_gives_up_or_clears fuel b env now h s :
  (∀ k, 500 ≤ elapsed (env k)) →
  (20 ≤ fuel)%nat →
  ∃ r,
    stop fuel b env now h s = Some r
    ∧ IDB.audioChunks (store r) = IDB.audioChunks s
    ∧ (∀ other, or_null (sessionIdRef h) ≠ Some other →
         IDB.recordingState (store r) !! other = IDB.recordingState s !! other)
    ∧ ((returned r = None
        ∧ recorderRef (hook r) = recorderRef h
        ∧ sessionIdRef (hook r) = sessionIdRef h)
       ∨ (recorderRef h = Some (Resolved (returned r)) ∧ hook r = cleared)).
Proof.
  intros Htick Hfuel. unfold stop.
  destruct (recorderRef h) as [[finalBlob|e]|] eqn:Hrec;
    try (eexists; split; [reflexivity|]; simpl; auto 10).
  destruct (waitForPending_bounded env now Htick 20 fuel 0 now (pendingChunksRef h) [])
    as (w & -> & _ & _); [exact Hfuel|unfold maxWaitTime; lia|].
  destruct (or_null (sessionIdRef h)) as [sid|] eqn:Hsid.
  - pose proof (deleteRecordingState_frame b s sid) as [Hchunks Hstates].
    destruct (IDB.deleteRecordingState b s sid) as [[r|e] s1];
      (eexists; split; [reflexivity|]); simpl in *;
      (split; [exact Hchunks|]); (split; [intros other Hne; apply Hstates; congruence|]);
      auto.
  - eexists. split; [reflexivity|]. simpl. auto.
Qed.

(** X15: what [stop] does when the state cannot be deleted depends on
    how the failure arrives.  A failure reported in the result only
    costs a warning: the final blob is returned and the hook cleared.
    A rejected promise (the request call raised) reaches the [catch] of
    [stop]: [null] is returned although the recorder had stopped, and
    the hook keeps its recorder, its session id and the persisted
    state. *)
Theorem stop_when_delete_fails fuel b env now h s finalBlob sid :
  recorderRef h = Some (Resolved finalBlob) →
  or_null (sessionIdRef h) = Some sid →
  (∀ k, 500 ≤ elapsed (env k)) →
  (20 ≤ fuel)%nat →
  ∃ r,
    stop fuel b env now h s = Some r
    ∧ (∀ res, fst (IDB.deleteRecordingState b s sid) = Resolved res →
         returned r = finalBlob
         ∧ hook r = cleared
         ∧ (IDB.success res = false →
              last (console r) = Some (ConsoleWarn "Failed to delete recording state:")))
    ∧ (∀ e, fst (IDB.deleteRecordingState b s sid) = Rejected e →
         returned r = None
         ∧ recorderRef (hook r) = Some (Resolved finalBlob)
         ∧ sessionIdRef (hook r) = sessionIdRef h
         ∧ IDB.recordingState (store r) = IDB.recordingState s
         ∧ last (console r) = Some (ConsoleError "Error stopping recording:")).
Proof.
  intros Hrec Hsid Htick Hfuel. unfold stop. rewrite Hrec, Hsid.
  destruct (waitForPending_bounded env now Htick 20 fuel 0 now (pendingChunksRef h) [])
    as (w & -> & _ & _); [exact Hfuel|unfold maxWaitTime; lia|].
  pose proof (deleteRecordingState_unfinished b s sid) as Hrej.
  destruct (IDB.deleteRecordingState b s sid) as [[res|e] s1];
    (eexists; split; [reflexivity|]); simpl in *.
  - split; [|intros e He; discriminate].
    intros res' [= <-]. split; [reflexivity|]. split; [reflexivity|].
    intros ->. simpl. apply last_snoc.
  - split; [intros res He; discriminate|].
    intros e' _. split; [reflexivity|]. split; [reflexivity|]. split; [reflexivity|].
    split; [apply Hrej; discriminate|apply last_snoc].
Qed.

End MoreStopFacts.

(** ** More about reassembly *)

Section MorePlaybackFacts.
Context `{F : Float64} `{P : Platform}.
Import Playback.

Lemma promiseAll_undecodable cs :
  Exists (λ c, decodes c = false) cs → ∃ e, promiseAll cs = inl e.
Proof.
  induction 1 as [c cs Hc|c cs _ [e IH]]; simpl.
  - unfold decodes in Hc. unfold fromServer.
    destruct (s_audioData c) as [[|a d]|]; try discriminate.
    destruct (atob (String a d)) as [e|]; [eauto|discriminate].
  - destruct (fromServer c); [eauto|]. rewrite IH. eauto.
Qed.

(** X16: one chunk whose audio data does not decode fails the whole
    reassembly from the server: the result carries an error and neither
    chunks nor audio, however many other chunks are fine. *)
Theorem undecodable_chunk_fails_all cs c :
  c ∈ cs →
  decodes c = false →
  ∃ msg, serverPlayback (ResponseOk (Some cs)) = failure msg.
Proof.
  intros Hin Hc. unfold serverPlayback. simpl.
  destruct cs as [|c0 cs0] eqn:Hcs; [apply elem_of_nil in Hin; destruct Hin|].
  rewrite <- Hcs in *. rewrite bool_decide_eq_false_2 by (rewrite Hcs; discriminate).
  destruct (promiseAll_undecodable cs) as [e ->]; [|eauto].
  apply Exists_exists. eauto.
Qed.

(** X17: a server list that is not empty but holds no playable chunk is
    not an error: the result is a success with no chunk, duration 0 and
    an empty audio stream, while an empty list is reported as
    [No chunks found]. *)
Theorem nothing_playable_is_empty_success cs :
  cs ≠ [] →
  Forall (λ c, decodes c = true) cs →
  Forall (λ c, playable (asPlayback c) = false) cs →
  serverPlayback (ResponseOk (Some cs)) = ready []
  ∧ error (ready []) = None
  ∧ audioUrl (ready []) = Some []
  ∧ serverPlayback (ResponseOk (Some [])) = failure "No chunks found".
Proof.
  intros Hne Hdec Hnone. split; [|auto].
  rewrite (serverPlayback_decodes cs Hne Hdec). f_equal.
  replace (filter (λ c, playable c) (asPlayback <$> cs)) with (@nil PlaybackChunk);
    [reflexivity|].
  symmetry. clear Hne Hdec. induction Hnone as [|c cs Hc _ IH]; [reflexivity|].
  rewrite fmap_cons, filter_cons. destruct (decide (playable (asPlayback c))) as [Hy|_].
  - rewrite Hc in Hy. destruct Hy.
  - exact IH.
Qed.

Lemma serverPlayback_shape o :
  let r := serverPlayback o in
  (is_Some (error r) ∧ chunks r = [] ∧ audioUrl r = None ∧ totalDuration r = f64_zero)
  ∨ (error r = None
     ∧ audioUrl r = Some (combinedBlob (chunks r))
     ∧ totalDuration r = sumDurations (chunks r)
     ∧ Forall (λ p, playable p = true) (chunks r)
     ∧ StronglySorted (keyLe index) (chunks r)).
Proof.
  cbv zeta. unfold serverPlayback.
  destruct o as [e| |data]; simpl; try solve [left; simpl; eauto 10].
  destruct (bool_decide _); [left; simpl; eauto 10|].
  destruct (promiseAll _) as [e|converted]; [left; simpl; eauto 10|].
  right.
  assert (Hr : ∀ b : bool,
            (if b then ready (jsSort (λ a b, index a - index b)
                                (filter (λ c, playable c) converted))
             else ready (jsSort (λ a b, index a - index b)
                           (filter (λ c, playable c) converted)))
            = ready (jsSort (λ a b, index a - index b)
                       (filter (λ c, playable c) converted)))
    by (intros []; reflexivity).
  rewrite Hr. simpl. split; [reflexivity|]. split; [reflexivity|]. split; [reflexivity|].
  split.
  - apply Forall_forall. intros p Hp. rewrite jsSort_perm in Hp.
    apply list_elem_of_filter in Hp as [Hp _]. destruct (playable p); [reflexivity|destruct Hp].
  - apply jsSort_sorted.
Qed.

Lemma run_shape env sid dev r :
  fst (run env (getChunksForPlayback sid dev)) = Resolved r →
  (is_Some (error r) ∧ chunks r = [] ∧ audioUrl r = None ∧ totalDuration r = f64_zero)
  ∨ (error r = None
     ∧ audioUrl r = Some (combinedBlob (chunks r))
     ∧ totalDuration r = sumDurations (chunks r)
     ∧ Forall (λ p, blob p ≠ []) (chunks r)
     ∧ ((∃ lr, indexedDB env sid = Resolved lr ∧ chunks r = localChunks lr
               ∧ chunks r ≠ [])
        ∨ (Forall (λ p, playable p = true) (chunks r)
           ∧ StronglySorted (keyLe index) (chunks r)))).
Proof.
  rewrite run_getChunksForPlayback.
  destruct (indexedDB env sid) as [lr|e]; [|discriminate].
  destruct (bool_decide _) eqn:Hlen; simpl; intros [= <-].
  - right. simpl. split; [reflexivity|]. split; [reflexivity|]. split; [reflexivity|].
    split; [apply localChunks_have_bytes|]. left. exists lr.
    split; [reflexivity|]. split; [reflexivity|].
    apply bool_decide_eq_true in Hlen. intros Hnil. rewrite Hnil in Hlen.
    simpl in Hlen. lia.
  - destruct (serverPlayback_shape (server env (chunksUrl sid dev)))
      as [Herr|(He & Hu & Ht & Hp & Hs)]; [left; exact Herr|right].
    split; [exact He|]. split; [exact Hu|]. split; [exact Ht|].
    split; [|right; auto].
    eapply Forall_impl; [exact Hp|]. intros p Hpl. unfold playable in Hpl.
    apply andb_true_iff in Hpl as [Hl _]. apply bool_decide_eq_true in Hl.
    intros Hnil. rewrite Hnil in Hl. simpl in Hl. lia.
Qed.

(** X18: whatever the local store and the server answer, a result of
    [getChunksForPlayback] is of one of two kinds: an error without
    chunks and without audio, or chunks with non-empty blobs whose
    concatenation, in the order of the list, is the audio behind the
    URL, and whose durations add up to the total duration.  Chunks that
    came from the server are in ascending index order and all have a
    positive duration. *)
Theorem playback_result_is_consistent env sid dev r :
  fst (run env (getChunksForPlayback sid dev)) = Resolved r →
  (is_Some (error r) ∧ chunks r = [] ∧ audioUrl r = None ∧ totalDuration r = f64_zero)
  ∨ (error r = None
     ∧ stream r = concat (blob <$> chunks r)
     ∧ totalDuration r = fold_left f64_add (duration <$> chunks r) f64_zero
     ∧ Forall (λ p, blob p ≠ []) (chunks r)
     ∧ (CalledFetch (chunksUrl sid dev) ∈ snd (run env (getChunksForPlayback sid dev)) →
          Forall (λ p, f64_pos (duration p) = true) (chunks r)
          ∧ StronglySorted (keyLe index) (chunks r))).
Proof.
  intros Hres. pose proof Hres as Hrun. revert Hrun.
  rewrite run_getChunksForPlayback.
  destruct (run_shape env sid dev r Hres)
    as [Herr|(He & Hu & Ht & Hb & Hkind)]; [left; exact Herr|right].
  split; [exact He|]. split; [unfold stream; rewrite Hu; reflexivity|].
  split; [rewrite Ht; apply sumDurations_fold|]. split; [exact Hb|].
  destruct Hkind as [(lr & Hlr & Hc & Hne)|[Hp Hs]].
  - rewrite Hlr. rewrite <- Hc.
    rewrite bool_decide_eq_true_2 by (destruct (chunks r); [contradiction|simpl; lia]).
    simpl. intros Hin. apply list_elem_of_singleton in Hin. discriminate.
  - intros _. split; [|exact Hs].
    eapply Forall_impl; [exact Hp|]. intros p Hpl. unfold playable in Hpl.
    apply andb_true_iff in Hpl as [_ Hd]. exact Hd.
Qed.

(** X19: the state [loadChunks] leaves behind.  Loading has ended; if an
    error is shown there are no chunks and no audio; and when there is
    an audio URL, it plays the listed chunks in the order of the list.
    A rejected [getChunks] ends as an error message without any request
    to the server. *)
Theorem loaded_state_is_consistent env sid dev :
  let settled := run env (getChunksForPlayback sid dev) in
  let st := PlaybackHook.loadChunks (fst settled) in
  PlaybackHook.isLoading st = false
  ∧ (is_Some (PlaybackHook.error st) →
       PlaybackHook.chunks st = [] ∧ PlaybackHook.audioUrl st = None
       ∧ PlaybackHook.totalDuration st = f64_zero)
  ∧ (∀ bytes, PlaybackHook.audioUrl st = Some bytes →
       bytes = combinedBlob (PlaybackHook.chunks st)
       ∧ PlaybackHook.totalDuration st = sumDurations (PlaybackHook.chunks st))
  ∧ (∀ e, indexedDB env sid = Rejected e →
       snd settled = [CalledGetChunks sid]
       ∧ PlaybackHook.error st
         = Some (if isError e then message e else "Failed to load chunks")).
Proof.
  intros settled st.
  assert (Hlast : ∀ e, indexedDB env sid = Rejected e →
            snd settled = [CalledGetChunks sid]
            ∧ PlaybackHook.error st
              = Some (if isError e then message e else "Failed to load chunks")).
  { intros e He. unfold st, settled. rewrite run_getChunksForPlayback, He. auto. }
  assert (Hfirst :
    PlaybackHook.isLoading st = false
    ∧ (is_Some (PlaybackHook.error st) →
         PlaybackHook.chunks st = [] ∧ PlaybackHook.audioUrl st = None
         ∧ PlaybackHook.totalDuration st = f64_zero)
    ∧ (∀ bytes, PlaybackHook.audioUrl st = Some bytes →
         bytes = combinedBlob (PlaybackHook.chunks st)
         ∧ PlaybackHook.totalDuration st = sumDurations (PlaybackHook.chunks st))).
  { unfold st. destruct (fst settled) as [r|e] eqn:Hres; simpl.
    - pose proof (run_shape env sid dev r Hres) as Hshape.
      destruct (truthy (error r)) eqn:Ht; simpl.
      + split; [reflexivity|]. split; [auto|]. discriminate.
      + split; [reflexivity|].
        destruct Hshape as [(Herr & Hc & Hu & Hd)|(He & Hu & Hd & _ & _)].
        * split; [auto|]. rewrite Hu. discriminate.
        * split; [intros [x Hx]; discriminate|].
          intros bytes Hb. rewrite Hu in Hb. injection Hb as <-. auto.
    - split; [reflexivity|]. split; [auto|]. discriminate. }
  destruct Hfirst as (H1 & H2 & H3). auto.
Qed.

End MorePlaybackFacts.

(** ** The chunk list, the transcription input and the transcript update *)

Section RouteFacts.
Context `{F : Float64} `{P : Platform}.
Import Upload.

Lemma db_le_trans a b c : db_le a b = true → db_le b c = true → db_le a c = true.
Proof.
  destruct a, b, c; simpl; try discriminate; try reflexivity.
  rewrite !bool_decide_eq_true. lia.
Qed.

Lemma db_le_total a b : db_le a b = false → db_le b a = true.
Proof.
  destruct a, b; simpl; try discriminate; try reflexivity.
  rewrite bool_decide_eq_false, bool_decide_eq_true. lia.
Qed.

Lemma orderAsc_perm l : Transcribe.orderAsc l ≡ₚ l.
Proof. apply jsSort_perm. Qed.

Lemma orderAsc_sorted l : StronglySorted indexLe (Transcribe.orderAsc l).
Proof.
  unfold Transcribe.orderAsc.
  induction l as [|x l IH]; [constructor|]. cbn [jsSort foldr].
  fold (jsSort (λ a b : AudioChunk,
                  if db_le (chunkIndex a) (chunkIndex b)
                  then if db_le (chunkIndex b) (chunkIndex a) then 0 else -1
                  else 1) l).
  revert IH.
  generalize (jsSort (λ a b : AudioChunk,
                        if db_le (chunkIndex a) (chunkIndex b)
                        then if db_le (chunkIndex b) (chunkIndex a) then 0 else -1
                        else 1) l).
  clear l. intros l Hs. induction Hs as [|y l Hs IH Hall]; cbn [sortInsert].
  - repeat constructor.
  - destruct (db_le (chunkIndex x) (chunkIndex y)) eqn:Hxy.
    + rewrite bool_decide_eq_true_2 by (destruct (db_le (chunkIndex y) (chunkIndex x)); lia).
      constructor; [constructor; assumption|].
      constructor; [exact Hxy|].
      eapply Forall_impl; [exact Hall|]. intros z Hz. unfold indexLe in *.
      eapply db_le_trans; eassumption.
    + rewrite bool_decide_eq_false_2 by lia.
      constructor; [exact IH|].
      rewrite sortInsert_perm. constructor; [apply db_le_total, Hxy|exact Hall].
Qed.

Lemma StronglySorted_filter_bool {A} (R : A → A → Prop) (f : A → bool) l :
  StronglySorted R l → StronglySorted R (filter (λ x, f x) l).
Proof.
  induction 1 as [|x l Hs IH Hall]; [constructor|].
  rewrite filter_cons. destruct (decide (f x)); [|exact IH].
  constructor; [exact IH|].
  apply Forall_forall. intros y Hy. apply list_elem_of_filter in Hy as [_ Hy].
  rewrite Forall_forall in Hall. auto.
Qed.

(** Under [wellKeyed], the chunks of a session have distinct indices. *)
Lemma indicesIn_NoDup sid (l : list (string * AudioChunk)) :
  NoDup l.*1 →
  Forall (λ kc, kc.1 = chunkId (sessionId kc.2) (chunkIndex kc.2)) l →
  NoDup (indicesIn sid l).
Proof.
  induction l as [|[k c] l IH]; intros Hnd Hkeys; [constructor|].
  rewrite fmap_cons in Hnd. apply NoDup_cons in Hnd as [Hk Hnd].
  apply Forall_cons in Hkeys as [Hkc Hkeys]. simpl in Hkc.
  rewrite indicesIn_cons. destruct (decide (sessionId c = sid)) as [Hs|]; [|auto].
  simpl. constructor; [|auto].
  intros Hin. apply Hk. unfold indicesIn in Hin.
  apply list_elem_of_fmap in Hin as (c' & Hi & Hin).
  apply list_elem_of_filter in Hin as [Hs' Hin].
  apply list_elem_of_fmap in Hin as ([k' c''] & -> & Hin). simpl in *.
  rewrite Forall_forall in Hkeys. pose proof (Hkeys _ Hin) as Hk'. simpl in Hk'.
  apply list_elem_of_fmap. exists (k', c''). split; [|exact Hin]. simpl.
  rewrite Hkc, Hk', Hs, Hs', Hi. reflexivity.
Qed.

Lemma session_indices_distinct db sid :
  wellKeyed db → NoDup (chunkIndex <$> sessionChunks db sid).
Proof.
  intros Hk. apply (indicesIn_NoDup sid (map_to_list (audioChunks db))).
  - apply NoDup_fst_map_to_list.
  - apply Forall_forall. intros [k c] Hin. apply elem_of_map_to_list in Hin.
    simpl. apply (Hk _ _ Hin).
Qed.

Lemma guards_spec db req :
  passesGuards db req = true →
  ∃ dev user s,
    or_null (r_deviceId req) = Some dev ∧ uuid_ok dev = true
    ∧ users db !! dev = Some user
    ∧ findSession db (r_sessionId req) user = Some s.
Proof.
  unfold passesGuards.
  destruct (r_chunk req); [|discriminate].
  destruct (or_null (r_chunkIndex req)); [|discriminate].
  destruct (or_null (r_deviceId req)) as [dev|]; [|discriminate].
  rewrite andb_true_iff. intros [Hu Hrest].
  destruct (users db !! dev) as [user|] eqn:Huser; [|discriminate].
  apply bool_decide_eq_true in Hrest as [ss Hss]. eauto 10.
Qed.

Lemma or_null_idem s t : or_null s = Some t → or_null (Some t) = Some t.
Proof. destruct s as [[|a s]|]; simpl; intros [= <-]. reflexivity. Qed.

Lemma GET_guarded db req :
  passesGuards db req = true →
  ChunkList.GET db (r_sessionId req) (r_deviceId req)
  = ChunkList.Chunks
      (ChunkList.listed <$> Transcribe.orderAsc (sessionChunks db (r_sessionId req))).
Proof.
  intros Hg. destruct (guards_spec db req Hg) as (dev & user & s & Hd & Hu & Huser & Hs).
  unfold ChunkList.GET. rewrite Hd, Hu, Huser, Hs. reflexivity.
Qed.

(** X20: the chunk list is given only to the device whose user owns the
    session.  It holds the chunks of that session and nothing else, each
    stored record once, in ascending index order; when every record
    sits under its derived id, no index occurs twice. *)
Theorem chunk_list_contents db sid deviceId l :
  ChunkList.GET db sid deviceId = ChunkList.Chunks l →
  (∃ dev user s, deviceId = Some dev ∧ users db !! dev = Some user
                 ∧ sessions db !! sid = Some s ∧ userId s = user)
  ∧ l ≡ₚ ChunkList.listed <$> sessionChunks db sid
  ∧ StronglySorted listedLe l
  ∧ (wellKeyed db → NoDup (ChunkList.l_chunkIndex <$> l)).
Proof.
  unfold ChunkList.GET.
  destruct deviceId as [[|a d]|]; simpl; try discriminate.
  destruct (uuid_ok (String a d)); simpl; [|discriminate].
  destruct (users db !! String a d) as [user|] eqn:Huser; [|discriminate].
  unfold findSession. destruct (sessions db !! sid) as [s|] eqn:Hs; [|discriminate].
  destruct (decide (userId s = user)) as [Hu|]; [|discriminate].
  intros [= <-]. split; [eauto 10|]. split; [rewrite orderAsc_perm; reflexivity|].
  split.
  - apply (StronglySorted_fmap _ indexLe); [|apply orderAsc_sorted].
    intros x y Hxy. exact Hxy.
  - intros Hk. rewrite <- list_fmap_compose.
    change (ChunkList.l_chunkIndex ∘ ChunkList.listed) with chunkIndex.
    rewrite orderAsc_perm. apply session_indices_distinct, Hk.
Qed.

(** X21: an accepted upload shows in the chunk list of its session,
    asked for by the same device right afterwards: the list has an
    element with the uploaded audio, duration and transcript, and with
    the id, index and timestamp the upload was answered with. *)
Theorem uploaded_chunk_is_listed now db req :
  accepted (POST now db req) = true →
  ownRecord db req →
  ∃ l c,
    ChunkList.GET (db_after (POST now db req)) (r_sessionId req) (r_deviceId req)
    = ChunkList.Chunks l
    ∧ c ∈ l
    ∧ ChunkList.l_audioData c = Some (requestPayload req)
    ∧ ChunkList.l_duration c = requestDuration req
    ∧ ChunkList.l_transcript c = or_null (r_transcript req)
    ∧ response (POST now db req)
      = ChunkResponse (ChunkList.l_id c) (ChunkList.l_chunkIndex c)
          (ChunkList.l_duration c) (ChunkList.l_timestamp c).
Proof.
  intros Hacc Hown.
  destruct (passesGuards db req) eqn:Hg.
  2: { destruct (POST_unguarded now db req Hg) as [_ Hno]. congruence. }
  destruct (POST_cases now db req Hg) as [(err & _ & Hr)|(_ & Hr)].
  { rewrite Hr in Hacc. discriminate. }
  rewrite Hr. cbn [db_after response]. cbv zeta.
  pose proof (passesGuards_upsert now db (r_sessionId req) (requestIndex req)
                (requestPayload req) (requestDuration req) (r_transcript req) req Hg)
    as Hg'.
  rewrite (GET_guarded _ req Hg').
  destruct (upsert_lookup now db (r_sessionId req) (requestIndex req)
              (requestPayload req) (requestDuration req) (r_transcript req))
    as (c & Hc & Hl & Hdata & Hdur).
  assert (Hmore : sessionId c = r_sessionId req
                  ∧ transcript c = or_null (r_transcript req)).
  { rewrite <- Hc. unfold upsert.
    destruct (audioChunks db !! chunkId (r_sessionId req) (requestIndex req))
      as [o|] eqn:Ho; simpl; [|auto].
    split; [apply (Hown o Ho)|reflexivity]. }
  destruct Hmore as [Hsid Htext].
  eexists. exists (ChunkList.listed c). split; [reflexivity|].
  split.
  { apply list_elem_of_fmap. exists c. split; [reflexivity|].
    rewrite orderAsc_perm. unfold sessionChunks.
    apply list_elem_of_filter. split; [exact Hsid|].
    apply list_elem_of_fmap.
    exists (chunkId (r_sessionId req) (requestIndex req), c). split; [reflexivity|].
    apply elem_of_map_to_list. exact Hl. }
  rewrite Hc. unfold summary. simpl. auto.
Qed.

(** X22: what the transcribe route hands to the speech service is the
    audio of the session's chunks that have audio data, decoded and
    concatenated in ascending index order; there is at least one such
    chunk, and the device's user owns the session. *)
Theorem transcription_input_in_index_order apiKey db sid deviceId bytes :
  Transcribe.POST apiKey db sid deviceId = Transcribe.SendToSpeech bytes →
  ∃ cs,
    bytes = concat ((λ c, fromBase64 (default EmptyString (audioData c))) <$> cs)
    ∧ cs ≠ []
    ∧ cs ≡ₚ filter (λ c, Transcribe.hasAudio c) (sessionChunks db sid)
    ∧ StronglySorted indexLe cs
    ∧ (wellKeyed db → NoDup (chunkIndex <$> cs))
    ∧ ∃ dev user s, deviceId = Some dev ∧ users db !! dev = Some user
                    ∧ sessions db !! sid = Some s ∧ userId s = user.
Proof.
  intros Hsend. pose proof (transcribe_input _ _ _ _ _ Hsend) as Hbytes.
  revert Hsend. unfold Transcribe.POST.
  destruct deviceId as [[|a d]|]; simpl; try discriminate.
  destruct (uuid_ok (String a d)); simpl; [|discriminate].
  destruct (users db !! String a d) as [user|] eqn:Huser; [|discriminate].
  unfold findSession. destruct (sessions db !! sid) as [s|] eqn:Hs; [|discriminate].
  destruct (decide (userId s = user)) as [Hu|]; [|discriminate].
  case_bool_decide as Hlen; [discriminate|].
  case_bool_decide as Hlen'; [discriminate|].
  intros _.
  exists (filter (λ c, Transcribe.hasAudio c) (Transcribe.orderAsc (sessionChunks db sid))).
  split; [exact Hbytes|].
  split; [intros Hnil; apply Hlen'; rewrite Hnil; reflexivity|].
  split; [rewrite orderAsc_perm; reflexivity|].
  split; [apply StronglySorted_filter_bool, orderAsc_sorted|].
  split; [|eauto 10].
  intros Hk. eapply sublist_NoDup; [|apply fmap_sublist, sublist_filter].
  rewrite orderAsc_perm. apply session_indices_distinct, Hk.
Qed.

End RouteFacts.

(** ** The transcript update *)

Section TranscriptUpdateFacts.
Context `{F : Float64} `{P : Platform}.
Import Upload.

Lemma accepted_spec now db req :
  accepted (POST now db req)
  = passesGuards db req
    && bool_decide (fst (checkSequence (r_sessionId req)
                           (lastChunkIndex db (r_sessionId req)) (requestIndex req))
                    = None).
Proof.
  destruct (passesGuards db req) eqn:Hg.
  - destruct (POST_cases now db req Hg) as [(err & Hchk & ->)|(Hchk & ->)];
      cbv zeta in Hchk; rewrite Hchk; reflexivity.
  - destruct (POST_unguarded now db req Hg) as [_ ->]. reflexivity.
Qed.

(** The two ways the handler ends. *)
Lemma PUT_outcome now db texts sid idxStr text dev :
  let r := TranscriptUpdate.PUT now db texts sid idxStr text dev in
  (∃ st err, TranscriptUpdate.response r = TranscriptUpdate.ErrorResponse st err
             ∧ TranscriptUpdate.db_after r = db
             ∧ TranscriptUpdate.texts_after r = texts
             ∧ (parseInt idxStr = NaN → st = 400))
  ∨ (∃ t idx existing,
       or_null text = Some t
       ∧ parseInt idxStr = Int idx
       ∧ findSession db sid (default EmptyString (users db !! default EmptyString dev))
         ≠ None
       ∧ audioChunks db !! chunkId sid (Int idx) = Some existing
       ∧ TranscriptUpdate.response r
         = TranscriptUpdate.Updated (id existing) (chunkIndex existing) (Some t)
       ∧ TranscriptUpdate.db_after r
         = mkDB (users db) (sessions db)
             (<[chunkId sid (Int idx) :=
                  mkAudioChunk (id existing) (sessionId existing) (chunkIndex existing)
                    (audioData existing) (duration existing) (Some t)
                    (timestamp existing) now]> (audioChunks db))
       ∧ (TranscriptUpdate.texts_after r = texts
          ∨ ∃ merged, TranscriptUpdate.texts_after r = <[sid := merged]> texts)).
Proof.
  cbv zeta. unfold TranscriptUpdate.PUT.
  destruct (or_null text) as [t|] eqn:Ht; [|left; eauto 10].
  destruct (or_null dev) as [d|] eqn:Hd; [|left; eauto 10].
  destruct (uuid_ok d); simpl; [|left; eauto 10].
  destruct (parseInt idxStr) as [|idx] eqn:Hidx; simpl; [left; eauto 10|].
  assert (Hdev : default EmptyString dev = d).
  { destruct dev as [[|a dv]|]; simpl in Hd; try discriminate.
    injection Hd as <-. reflexivity. }
  rewrite Hdev.
  destruct (users db !! d) as [user|]; simpl;
    [|left; do 2 eexists; repeat split; discriminate].
  destruct (findSession db sid user) as [s|] eqn:Hs;
    [|left; do 2 eexists; repeat split; discriminate].
  destruct (audioChunks db !! chunkId sid (Int idx)) as [existing|] eqn:Hl;
    [|left; do 2 eexists; repeat split; discriminate].
  right. exists t, idx, existing. simpl.
  split; [reflexivity|]. split; [reflexivity|]. split; [discriminate|].
  split; [exact Hl|]. split; [reflexivity|]. split; [reflexivity|].
  destruct (TranscriptUpdate.mergedTranscript _ _); eauto.
Qed.

(** X23: a transcript update is refused unless the chunk is already
    stored: it never creates a record.  An index that does not parse is
    refused with status 400 before any lookup, and a refused update
    changes neither the chunks nor the session transcripts.  An applied
    update answers with the stored id and index and leaves the new text
    in the record. *)
Theorem transcript_update_needs_the_chunk now db texts sid idxStr text dev :
  let r := TranscriptUpdate.PUT now db texts sid idxStr text dev in
  (∀ st err, TranscriptUpdate.response r = TranscriptUpdate.ErrorResponse st err →
     TranscriptUpdate.db_after r = db ∧ TranscriptUpdate.texts_after r = texts)
  ∧ (parseInt idxStr = NaN →
       ∃ err, TranscriptUpdate.response r = TranscriptUpdate.ErrorResponse 400 err)
  ∧ (audioChunks db !! chunkId sid (parseInt idxStr) = None →
       ∃ st err, TranscriptUpdate.response r = TranscriptUpdate.ErrorResponse st err)
  ∧ (∀ cid i t, TranscriptUpdate.response r = TranscriptUpdate.Updated cid i t →
       ∃ existing c,
         audioChunks db !! chunkId sid (parseInt idxStr) = Some existing
         ∧ cid = id existing ∧ i = chunkIndex existing ∧ t = or_null text
         ∧ audioChunks (TranscriptUpdate.db_after r) !! chunkId sid (parseInt idxStr)
           = Some c
         ∧ transcript c = t ∧ updatedAt c = now).
Proof.
  intros r. unfold r.
  destruct (PUT_outcome now db texts sid idxStr text dev)
    as [(st & err & Hr & Hdb & Htx & Hnan)
       |(t & idx & existing & Ht & Hidx & _ & Hl & Hr & Hdb & _)].
  - rewrite Hr, Hdb, Htx. split; [auto|].
    split; [intros Hn; rewrite (Hnan Hn); eauto|]. split; [eauto|]. discriminate.
  - rewrite Hr, Hdb, Hidx. split; [discriminate|].
    split; [discriminate|]. split; [rewrite Hl; discriminate|].
    intros cid i t' [= <- <- <-]. exists existing. eexists.
    split; [exact Hl|]. split; [reflexivity|]. split; [reflexivity|].
    split; [symmetry; exact Ht|]. split; [simpl; apply lookup_insert_eq|].
    simpl. auto.
Qed.

(** X24: a transcript update changes nothing but the text and the
    update time of one record, and the merged text of its session.
    Users, sessions, their counts, the set of stored ids and every
    chunk's audio, duration and index stay, so the upload handler accepts
    after it exactly the requests it accepted before. *)
Theorem transcript_update_keeps_the_rest now db texts sid idxStr text dev :
  let r := TranscriptUpdate.PUT now db texts sid idxStr text dev in
  let db' := TranscriptUpdate.db_after r in
  users db' = users db
  ∧ sessions db' = sessions db
  ∧ dom (audioChunks db') = dom (audioChunks db)
  ∧ (∀ k c', audioChunks db' !! k = Some c' →
       ∃ c, audioChunks db !! k = Some c
            ∧ id c' = id c ∧ sessionId c' = sessionId c ∧ chunkIndex c' = chunkIndex c
            ∧ audioData c' = audioData c ∧ duration c' = duration c
            ∧ timestamp c' = timestamp c)
  ∧ (∀ s, lastChunkIndex db' s = lastChunkIndex db s)
  ∧ (∀ now' req, accepted (POST now' db' req) = accepted (POST now' db req))
  ∧ (∀ other, other ≠ sid → TranscriptUpdate.texts_after r !! other = texts !! other).
Proof.
  intros r db'. unfold db', r.
  destruct (PUT_outcome now db texts sid idxStr text dev)
    as [(st & err & _ & Hdb & Htx & _)
       |(t & idx & existing & _ & _ & _ & Hl & _ & Hdb & Htx)].
  - rewrite Hdb, Htx. repeat split; eauto 10.
  - rewrite Hdb.
    assert (Hlast : ∀ s,
              lastChunkIndex
                (mkDB (users db) (sessions db)
                   (<[chunkId sid (Int idx) :=
                        mkAudioChunk (id existing) (sessionId existing)
                          (chunkIndex existing) (audioData existing) (duration existing)
                          (Some t) (timestamp existing) now]> (audioChunks db))) s
              = lastChunkIndex db s).
    { intros s. apply (lastChunkIndex_insert_same db s _ existing); auto. }
    split; [reflexivity|]. split; [reflexivity|].
    split.
    { simpl. rewrite dom_insert_L. apply (elem_of_dom_2 (audioChunks db)) in Hl.
      set_solver. }
    split.
    { intros k c'. simpl. rewrite lookup_insert.
      destruct (decide (chunkId sid (Int idx) = k)) as [<-|_].
      - intros [= <-]. exists existing. simpl. auto 10.
      - intros Hk. exists c'. auto 10. }
    split; [exact Hlast|]. split.
    { intros now' req. rewrite !accepted_spec, Hlast. reflexivity. }
    intros other Hne. destruct Htx as [->|[merged ->]]; [reflexivity|].
    apply lookup_insert_ne. auto.
Qed.

End TranscriptUpdateFacts.

(** ** The recorder's chunk callback, and what the server makes of it *)

Section CaptureFacts.
Context `{F : Float64} `{T : !Float64Text} `{P : Platform}.
Import Upload.

Lemma handleChunk_no_session b now dev server h s chunk index duration :
  or_null (Recorder.sessionIdRef h) = None →
  Capture.handleChunk b now dev server h s chunk index duration
  = Capture.mkHandled h s None
      [ConsoleError ("[useAudioRecorder] Cannot process chunk " +:+ show (Int index)
                       +:+ ": sessionId is null. Skipping chunk.")]
      [].
Proof. intros Hs. unfold Capture.handleChunk. rewrite Hs. reflexivity. Qed.

(** With a session id, the call ends in one of three ways. *)
Lemma handleChunk_session b now dev server h s chunk index duration sid :
  or_null (Recorder.sessionIdRef h) = Some sid →
  let r := Capture.handleChunk b now dev server h s chunk index duration in
  let stored := IDB.storeChunk b s (Capture.localRecord sid chunk index now) in
  Capture.hook r
  = Recorder.mkHook (Recorder.recorderRef h) (Recorder.sessionIdRef h)
      (({[index]} ∪ Recorder.pendingChunksRef h) ∖ {[index]})
  ∧ Capture.store r = snd stored
  ∧ Capture.sent r
    = match fst stored with
      | Rejected _ => None
      | Resolved _ => Some (Capture.chunkRequest sid dev chunk index duration)
      end.
Proof.
  intros Hs. cbv zeta. unfold Capture.handleChunk. rewrite Hs.
  destruct (IDB.storeChunk b s (Capture.localRecord sid chunk index now))
    as [[res|e] s1]; cbn [fst snd]; [|auto].
  destruct (server _) as [e|[] txt]; cbn; auto.
Qed.

(** X25: a chunk goes by one id.  The request [handleChunk] sends makes
    the upload handler parse the recorder's index and derive the very id
    under which the chunk was put into the local store; it carries the
    chunk's bytes, the device id and no transcript. *)
Theorem chunk_has_one_id b now dev server h s chunk index duration req :
  Capture.sent (Capture.handleChunk b now dev server h s chunk index duration)
  = Some req →
  ∃ sid,
    or_null (Recorder.sessionIdRef h) = Some sid
    ∧ r_sessionId req = sid
    ∧ requestIndex req = Int index
    ∧ requestId req = IDB.id (Capture.localRecord sid chunk index now)
    ∧ r_chunk req = Some chunk
    ∧ r_deviceId req = Some dev
    ∧ r_transcript req = None
    ∧ (∀ res, fst (IDB.storeChunk b s (Capture.localRecord sid chunk index now))
              = Resolved res →
              IDB.success res = true →
              IDB.audioChunks
                (Capture.store
                   (Capture.handleChunk b now dev server h s chunk index duration))
              !! requestId req
              = Some (Capture.localRecord sid chunk index now)).
Proof.
  destruct (or_null (Recorder.sessionIdRef h)) as [sid|] eqn:Hs.
  2: { rewrite (handleChunk_no_session _ _ _ _ _ _ _ _ _ Hs). discriminate. }
  destruct (handleChunk_session b now dev server h s chunk index duration sid Hs)
    as (_ & Hstore & Hsent).
  rewrite Hsent, Hstore.
  destruct (fst (IDB.storeChunk b s (Capture.localRecord sid chunk index now)))
    as [res|e] eqn:Hres; [|discriminate].
  intros [= <-]. exists sid.
  assert (Hidx : requestIndex (Capture.chunkRequest sid dev chunk index duration)
                 = Int index).
  { unfold requestIndex. simpl. apply (parseInt_show (Int index)). }
  split; [reflexivity|]. split; [reflexivity|]. split; [exact Hidx|].
  assert (Hid : requestId (Capture.chunkRequest sid dev chunk index duration)
                = IDB.id (Capture.localRecord sid chunk index now)).
  { unfold requestId. rewrite Hidx. reflexivity. }
  split; [exact Hid|]. split; [reflexivity|]. split; [reflexivity|].
  split; [reflexivity|].
  intros res' Hres' Hok. rewrite Hres in Hres'. injection Hres' as <-.
  rewrite (storeChunk_stored _ _ _ res Hres Hok), Hid.
  apply lookup_insert_eq.
Qed.

(** X26: [handleChunk] leaves the recorder and the session id of the
    hook alone and never adds to the pending set: when it is done, its
    index is not pending, whichever way the call went.  Without a
    session id it stores nothing and sends nothing. *)
Theorem handled_chunk_is_not_pending b now dev server h s chunk index duration :
  let r := Capture.handleChunk b now dev server h s chunk index duration in
  Recorder.recorderRef (Capture.hook r) = Recorder.recorderRef h
  ∧ Recorder.sessionIdRef (Capture.hook r) = Recorder.sessionIdRef h
  ∧ Recorder.pendingChunksRef (Capture.hook r) ⊆ Recorder.pendingChunksRef h
  ∧ (is_Some (or_null (Recorder.sessionIdRef h)) →
       Recorder.pendingChunksRef (Capture.hook r)
       = Recorder.pendingChunksRef h ∖ {[index]})
  ∧ (or_null (Recorder.sessionIdRef h) = None →
       Capture.hook r = h ∧ Capture.store r = s ∧ Capture.sent r = None
       ∧ Capture.toasts r = []).
Proof.
  intros r. unfold r.
  destruct (or_null (Recorder.sessionIdRef h)) as [sid|] eqn:Hs.
  - destruct (handleChunk_session b now dev server h s chunk index duration sid Hs)
      as (Hh & _ & _).
    rewrite Hh. simpl. split; [reflexivity|]. split; [reflexivity|].
    split; [set_solver|]. split; [intros _; set_solver|discriminate].
  - rewrite (handleChunk_no_session _ _ _ _ _ _ _ _ _ Hs). simpl.
    split; [reflexivity|]. split; [reflexivity|]. split; [reflexivity|].
    split; [intros [x Hx]; discriminate|auto].
Qed.

(** X27: whether a chunk is uploaded depends on how the local store
    fails.  A failure reported in the result does not hold the upload
    back.  A rejected promise (the request call raised) ends the call in
    its [catch]: nothing is sent to the server and nothing was stored
    locally, so the chunk is lost. *)
Theorem upload_survives_only_reported_failures
    b now dev server h s chunk index duration sid :
  or_null (Recorder.sessionIdRef h) = Some sid →
  let r := Capture.handleChunk b now dev server h s chunk index duration in
  let stored := IDB.storeChunk b s (Capture.localRecord sid chunk index now) in
  (∀ res, fst stored = Resolved res →
     Capture.sent r = Some (Capture.chunkRequest sid dev chunk index duration))
  ∧ (∀ e, fst stored = Rejected e →
       Capture.sent r = None
       ∧ IDB.audioChunks (Capture.store r) = IDB.audioChunks s
       ∧ Capture.toasts r
         = [Capture.ToastError ("Error processing chunk " +:+ show (Int (index + 1)))
              (Capture.describe e)]).
Proof.
  intros Hs r stored.
  destruct (handleChunk_session b now dev server h s chunk index duration sid Hs)
    as (_ & Hstore & Hsent).
  fold r in Hstore, Hsent. fold stored in Hstore, Hsent.
  split.
  - intros res Hres. rewrite Hsent, Hres. reflexivity.
  - intros e He. split; [rewrite Hsent, He; reflexivity|].
    split.
    + rewrite Hstore. apply storeChunk_unfinished. fold stored. rewrite He. discriminate.
    + unfold r, Capture.handleChunk. rewrite Hs.
      unfold stored in He.
      destruct (IDB.storeChunk b s (Capture.localRecord sid chunk index now))
        as [[res|e'] s1]; simpl in He; [discriminate|].
      injection He as ->. reflexivity.
Qed.

(** X28: when nothing is in flight, a handled chunk leaves nothing in
    flight, and a [stop] that follows does not wait: it polls zero times
    and finishes at the time it started waiting. *)
Theorem stop_after_handled_chunk_does_not_wait
    b now dev server h s chunk index duration fuel b' env now' s' :
  Recorder.pendingChunksRef h = ∅ →
  let h' := Capture.hook (Capture.handleChunk b now dev server h s chunk index duration) in
  Recorder.pendingChunksRef h' = ∅
  ∧ ∃ r, Recorder.stop fuel b' env now' h' s' = Some r
         ∧ Recorder.polls r = 0%nat
         ∧ Recorder.finishedAt r = now'.
Proof.
  intros Hp h'.
  assert (Hempty : Recorder.pendingChunksRef h' = ∅).
  { unfold h'. destruct (or_null (Recorder.sessionIdRef h)) as [sid|] eqn:Hs.
    - destruct (handleChunk_session b now dev server h s chunk index duration sid Hs)
        as (Hh & _ & _).
      rewrite Hh. simpl. rewrite Hp. set_solver.
    - rewrite (handleChunk_no_session _ _ _ _ _ _ _ _ _ Hs). exact Hp. }
  split; [exact Hempty|].
  assert (Hwait : Recorder.waitForPending fuel env 0 now' now' (Recorder.pendingChunksRef h') []
                  = Some (Recorder.mkWaited now' ∅ 0 [])).
  { rewrite Hempty. destruct fuel; reflexivity. }
  unfold Recorder.stop. rewrite Hwait.
  destruct (Recorder.recorderRef h') as [[finalBlob|e]|];
    try (eexists; split; [reflexivity|]; simpl; auto).
  destruct (or_null (Recorder.sessionIdRef h')) as [sid|].
  - destruct (IDB.deleteRecordingState b' s' sid) as [[res|e] s1];
      eexists; (split; [reflexivity|]); simpl; auto.
  - eexists. split; [reflexivity|]. simpl. auto.
Qed.

Lemma chunkRequest_guards db sid dev user s chunk index duration :
  or_null (Some dev) = Some dev →
  uuid_ok dev = true →
  users db !! dev = Some user →
  sessions db !! sid = Some s →
  userId s = user →
  passesGuards db (Capture.chunkRequest sid dev chunk index duration) = true.
Proof.
  intros Hd Hu Huser Hs Hown. unfold passesGuards.
  cbn [Capture.chunkRequest r_chunk r_chunkIndex r_deviceId r_sessionId].
  destruct (show_cons (Int index)) as (a & t & ->).
  destruct dev as [|a0 dv]; [discriminate Hd|]. cbn [or_null].
  rewrite Hu, Huser. simpl. apply bool_decide_eq_true.
  unfold findSession. rewrite Hs. destruct (decide (userId s = user)); [eauto|contradiction].
Qed.

(** One upload in sequence. *)
Lemma next_chunk_accepted now db sid dev user s chunk index duration (sent : Z → Request) :
  or_null (Some dev) = Some dev →
  uuid_ok dev = true →
  users db !! dev = Some user →
  sessions db !! sid = Some s →
  userId s = user →
  0 ≤ index →
  holdsPrefix db sid sent index →
  sent index = Capture.chunkRequest sid dev chunk index duration →
  let r := POST now db (sent index) in
  (∃ d, response r = ChunkResponse (chunkId sid (Int index)) (Int index) d now)
  ∧ console r = []
  ∧ users (db_after r) = users db
  ∧ (∃ s', sessions (db_after r) !! sid = Some s' ∧ userId s' = user)
  ∧ countOf (db_after r) sid = countOf db sid + 1
  ∧ holdsPrefix (db_after r) sid sent (index + 1).
Proof.
  intros Hd Hu Huser Hs Hown Hpos (Hlast & Hfresh & Hheld & Honly) Hsent. cbv zeta.
  set (req := sent index) in *.
  assert (Hsid : r_sessionId req = sid) by (rewrite Hsent; reflexivity).
  assert (Hg : passesGuards db req = true)
    by (rewrite Hsent; eapply chunkRequest_guards; eassumption).
  assert (Hidx : requestIndex req = Int index)
    by (rewrite Hsent; unfold requestIndex; simpl; apply (parseInt_show (Int index))).
  assert (Hchk : checkSequence sid (lastChunkIndex db sid) (Int index) = (None, [])).
  { rewrite Hlast. case_bool_decide as Hz.
    - subst index. reflexivity.
    - unfold checkSequence. simpl.
      rewrite bool_decide_eq_true_2 by lia. reflexivity. }
  rewrite (POST_guarded now db req Hg).
  rewrite Hsid, Hidx, Hchk.
  rewrite (upsert_fresh _ _ _ _ _ _ _ (Hfresh index ltac:(lia))).
  cbn [response console db_after users sessions audioChunks summary Upload.id
       Upload.chunkIndex Upload.duration Upload.timestamp].
  split; [eauto|]. split; [reflexivity|]. split; [reflexivity|].
  split.
  { rewrite lookup_alter_eq, Hs. simpl. eauto. }
  split; [apply (countOf_increment db sid s Hs)|].
  split; [|split; [|split]].
  - rewrite (lastChunkIndex_insert_fresh db sid); [|apply Hfresh; lia|reflexivity].
    rewrite bool_decide_eq_false_2 by lia. rewrite Hlast. simpl.
    case_bool_decide as Hz; [f_equal; f_equal; lia|].
    unfold db_max. simpl. rewrite bool_decide_eq_false_2 by lia.
    f_equal. f_equal. lia.
  - intros i Hi. simpl. rewrite lookup_insert_ne; [apply Hfresh; lia|].
    intros Heq. apply chunkId_inj in Heq. injection Heq. lia.
  - intros i Hi. simpl. destruct (decide (i = index)) as [->|Hne].
    + rewrite lookup_insert_eq. eexists. split; [reflexivity|]. simpl. auto.
    + rewrite lookup_insert_ne; [apply Hheld; lia|].
      intros Heq. apply chunkId_inj in Heq. injection Heq. lia.
  - intros c Hc. apply sessionChunks_spec in Hc as [Hcs [k Hk]]. simpl in Hk.
    apply lookup_insert_Some in Hk as [[<- <-]|[Hne Hk]].
    + exists index. split; [lia|]. simpl. apply lookup_insert_eq.
    + destruct (Honly c) as (i & Hi & Hl).
      { apply sessionChunks_spec. eauto. }
      exists i. split; [lia|]. simpl. rewrite lookup_insert_ne; [exact Hl|].
      intros Heq. apply chunkId_inj in Heq. injection Heq. lia.
Qed.

Lemma serve_in_order now db sid dev user (all : Z → list byte) (durations : Z → f64) n :
  ∀ k s,
    or_null (Some dev) = Some dev →
    uuid_ok dev = true →
    users db !! dev = Some user →
    sessions db !! sid = Some s →
    userId s = user →
    let sent := λ i, Capture.chunkRequest sid dev (all i) i (durations i) in
    holdsPrefix db sid sent (Z.of_nat k) →
    let out := serve now db (sent <$> (Z.of_nat <$> seq k n)) in
    Forall2 (λ i r, ∃ d ts, r = ChunkResponse (chunkId sid (Int i)) (Int i) d ts)
      (Z.of_nat <$> seq k n) (fst out)
    ∧ countOf (snd out) sid = countOf db sid + Z.of_nat n
    ∧ holdsPrefix (snd out) sid sent (Z.of_nat (k + n))
    ∧ users (snd out) = users db
    ∧ ∃ s', sessions (snd out) !! sid = Some s' ∧ userId s' = user.
Proof.
  revert now db. induction n as [|n IH]; intros now db k s Hd Hu Huser Hs Hown sent Hpre.
  - simpl. split; [constructor|]. split; [lia|].
    rewrite Nat.add_0_r. split; [exact Hpre|]. eauto.
  - cbn [seq fmap list_fmap serve]. cbv zeta.
    destruct (next_chunk_accepted now db sid dev user s (all (Z.of_nat k)) (Z.of_nat k)
                (durations (Z.of_nat k)) sent Hd Hu Huser Hs Hown ltac:(lia) Hpre eq_refl)
      as ((d & Hresp) & _ & Husers & (s' & Hs' & Hown') & Hcount & Hpre').
    replace (Z.of_nat k + 1) with (Z.of_nat (S k)) in Hpre' by lia.
    pose proof Huser as Huser'. rewrite <- Husers in Huser'.
    specialize (IH (now + 1) (db_after (POST now db (sent (Z.of_nat k))))
                  (S k) s' Hd Hu Huser' Hs' Hown' Hpre').
    cbv zeta in IH.
    change (list_fmap nat Z Z.of_nat (seq (S k) n)) with (Z.of_nat <$> seq (S k) n).
    change (list_fmap Z Request sent (Z.of_nat <$> seq (S k) n))
      with (sent <$> (Z.of_nat <$> seq (S k) n)).
    destruct (serve (now + 1) _ _) as [rs db'] eqn:Hserve.
    cbn [fst snd] in *. destruct IH as (Hall & Hcnt & Hfin & Hus & Hss).
    split; [constructor; [rewrite Hresp; eauto|exact Hall]|].
    split; [rewrite Hcnt, Hcount; lia|].
    replace (k + S n)%nat with (S k + n)%nat by lia.
    split; [exact Hfin|]. split; [congruence|exact Hss].
Qed.

(** X29: a recorder that sends its chunks in order gets every one of
    them accepted.  Starting from a session that holds chunks 0 to
    [k-1], the requests [handleChunk] builds for the next [n] indices,
    served one after the other, are all answered with the chunk's id and
    index; afterwards the session holds exactly chunks 0 to [k+n-1],
    each with the audio that was sent for it, and [chunksCount] has
    grown by [n]. *)
Theorem chunks_sent_in_order_are_all_stored
    now db sid dev user s (all : Z → list byte) (durations : Z → f64) (k n : nat) :
  or_null (Some dev) = Some dev →
  uuid_ok dev = true →
  users db !! dev = Some user →
  sessions db !! sid = Some s →
  userId s = user →
  let sent := λ i, Capture.chunkRequest sid dev (all i) i (durations i) in
  holdsPrefix db sid sent (Z.of_nat k) →
  let out := serve now db (sent <$> (Z.of_nat <$> seq k n)) in
  Forall2 (λ i r, ∃ d ts, r = ChunkResponse (chunkId sid (Int i)) (Int i) d ts)
    (Z.of_nat <$> seq k n) (fst out)
  ∧ countOf (snd out) sid = countOf db sid + Z.of_nat n
  ∧ holdsPrefix (snd out) sid sent (Z.of_nat (k + n))
  ∧ (∀ i, 0 ≤ i < Z.of_nat (k + n) →
       ∃ c, audioChunks (snd out) !! chunkId sid (Int i) = Some c
            ∧ audioData c = Some (toBase64 (all i))).
Proof.
  intros Hd Hu Huser Hs Hown sent Hpre out.
  destruct (serve_in_order now db sid dev user all durations n k s Hd Hu Huser Hs Hown Hpre)
    as (Hall & Hcnt & Hfin & _ & _).
  fold sent in Hall, Hcnt, Hfin. fold out in Hall, Hcnt, Hfin.
  split; [exact Hall|]. split; [exact Hcnt|]. split; [exact Hfin|].
  intros i Hi. destruct Hfin as (_ & _ & Hheld & _).
  destruct (Hheld i Hi) as (c & Hc & Ha & _). eauto.
Qed.

End CaptureFacts.

(** ** From the recorder to the player *)

Section EndToEnd.
Context `{F : Float64} `{T : !Float64Text} `{P : Platform}.
Import Upload.

Lemma serve_wellKeyed now db reqs :
  wellKeyed db → wellKeyed (snd (serve now db reqs)).
Proof.
  revert now db. induction reqs as [|req reqs IH]; intros now db Hk; [exact Hk|].
  cbn [serve]. cbv zeta.
  specialize (IH (now + 1) (db_after (POST now db req))).
  destruct (serve (now + 1) (db_after (POST now db req)) reqs) as [rs db'].
  apply IH.
  destruct (POST_outcome now db req) as [[_ ->]|(_ & _ & ->)]; [exact Hk|].
  apply upsert_wellKeyed, Hk.
Qed.

Lemma firstIndices_spec n i : i ∈ Z.of_nat <$> seq 0 n ↔ 0 ≤ i < Z.of_nat n.
Proof.
  rewrite list_elem_of_fmap. split.
  - intros (j & -> & Hj). apply elem_of_seq in Hj. lia.
  - intros Hi. exists (Z.to_nat i). split; [lia|]. apply elem_of_seq. lia.
Qed.

Lemma firstIndices_sorted k n : StronglySorted (keyLt (λ i : Z, i)) (Z.of_nat <$> seq k n).
Proof.
  revert k. induction n as [|n IH]; intros k; [constructor|].
  cbn [seq fmap list_fmap]. constructor; [apply IH|].
  apply Forall_forall. intros i Hi.
  apply list_elem_of_fmap in Hi as (j & -> & Hj). apply elem_of_seq in Hj.
  unfold keyLt. lia.
Qed.

Lemma StronglySorted_fmap_within {A B} (R1 : A → A → Prop) (R2 : B → B → Prop)
    (Q : A → Prop) (f : A → B) l :
  (∀ x y, Q x → Q y → R1 x y → R2 (f x) (f y)) →
  Forall Q l → StronglySorted R1 l → StronglySorted R2 (f <$> l).
Proof.
  intros Hf HQ Hs. induction Hs as [|x l Hs IH Hall]; [constructor|].
  apply Forall_cons in HQ as [Hx HQ]. rewrite fmap_cons.
  constructor; [apply IH, HQ|].
  apply Forall_fmap, Forall_forall. intros y Hy.
  rewrite Forall_forall in Hall, HQ. apply Hf; auto.
Qed.

(** What the records of a session that holds a prefix look like on the
    wire. *)
Lemma prefix_on_wire db sid (sent : Z → Request) (all : Z → list byte) m c :
  holdsPrefix db sid sent m →
  (∀ i, 0 ≤ i < m → survives (sent i) (all i)) →
  c ∈ sessionChunks db sid →
  let w := onWire (ChunkList.listed c) in
  chunkIndex c = Int (Playback.s_chunkIndex w)
  ∧ 0 ≤ Playback.s_chunkIndex w < m
  ∧ validServer w = true
  ∧ payload w = all (Playback.s_chunkIndex w)
  ∧ durationOf w = requestDuration (sent (Playback.s_chunkIndex w)).
Proof.
  intros (_ & _ & Hheld & Honly) Hsurv Hc. cbv zeta.
  destruct (Honly c Hc) as (i & Hi & Hl).
  destruct (Hheld i Hi) as (c' & Hl' & Hdata & Hdur & Hidx & _).
  rewrite Hl in Hl'. injection Hl' as <-.
  destruct (Hsurv i Hi) as (Hne & Hatob & Hbytes & Hpos).
  unfold onWire, validServer, decodes, payload, durationOf. simpl.
  rewrite Hidx, Hdata, Hdur.
  destruct (requestPayload (sent i)) as [|a d] eqn:Hp; [contradiction|].
  rewrite Hatob, Hpos.
  split; [reflexivity|]. split; [lia|]. split; [|auto].
  rewrite bool_decide_eq_true_2; [reflexivity|].
  destruct (all i); [contradiction|simpl; lia].
Qed.

Lemma prefix_plays_back db sid dev user s (sent : Z → Request) (all : Z → list byte) n :
  or_null (Some dev) = Some dev →
  uuid_ok dev = true →
  users db !! dev = Some user →
  sessions db !! sid = Some s →
  userId s = user →
  wellKeyed db →
  holdsPrefix db sid sent (Z.of_nat n) →
  (∀ i, 0 ≤ i < Z.of_nat n → survives (sent i) (all i)) →
  (0 < n)%nat →
  ∃ l,
    ChunkList.GET db sid (Some dev) = ChunkList.Chunks l
    ∧ let r := Playback.serverPlayback (Playback.ResponseOk (Some (onWire <$> l))) in
      Playback.error r = None
      ∧ Playback.index <$> Playback.chunks r = Z.of_nat <$> seq 0 n
      ∧ stream r = concat (all <$> (Z.of_nat <$> seq 0 n))
      ∧ Playback.totalDuration r
        = fold_left f64_add
            ((λ i, requestDuration (sent i)) <$> (Z.of_nat <$> seq 0 n)) f64_zero.
Proof.
  intros Hd Hu Huser Hs Hown Hk Hpre Hsurv Hpos.
  set (cs := Transcribe.orderAsc (sessionChunks db sid)).
  set (wire := onWire <$> (ChunkList.listed <$> cs)).
  exists (ChunkList.listed <$> cs). split.
  { unfold ChunkList.GET. rewrite Hd, Hu, Huser. simpl. unfold findSession.
    rewrite Hs. destruct (decide (userId s = user)); [reflexivity|contradiction]. }
  fold wire. cbv zeta.
  assert (Hcs : Forall (λ c, c ∈ sessionChunks db sid) cs).
  { apply Forall_forall. intros c Hc. unfold cs in Hc. rewrite orderAsc_perm in Hc.
    exact Hc. }
  assert (Hwire : Forall (λ w, 0 ≤ Playback.s_chunkIndex w < Z.of_nat n
                              ∧ validServer w = true
                              ∧ payload w = all (Playback.s_chunkIndex w)
                              ∧ durationOf w
                                = requestDuration (sent (Playback.s_chunkIndex w)))
                    wire).
  { unfold wire. rewrite <- list_fmap_compose. apply Forall_fmap.
    eapply Forall_impl; [exact Hcs|]. intros c Hc.
    destruct (prefix_on_wire db sid sent all _ c Hpre Hsurv Hc) as (_ & H1 & H2 & H3 & H4).
    simpl. auto. }
  assert (Hint : Forall (λ c, chunkIndex c
                              = Int (Playback.s_chunkIndex (onWire (ChunkList.listed c))))
                   cs).
  { eapply Forall_impl; [exact Hcs|]. intros c Hc.
    destruct (prefix_on_wire db sid sent all _ c Hpre Hsurv Hc) as (H0 & _). exact H0. }
  assert (Hidx : Playback.s_chunkIndex <$> wire
                 = (λ c, Playback.s_chunkIndex (onWire (ChunkList.listed c))) <$> cs).
  { unfold wire. rewrite <- !list_fmap_compose. reflexivity. }
  assert (Hnodup : NoDup (Playback.s_chunkIndex <$> wire)).
  { rewrite Hidx. apply (NoDup_fmap_1 Int). rewrite <- list_fmap_compose.
    assert (Heq : (Int ∘ (λ c, Playback.s_chunkIndex (onWire (ChunkList.listed c)))) <$> cs
                  = chunkIndex <$> cs).
    { apply Forall_fmap_ext_1. eapply Forall_impl; [exact Hint|].
      intros c Hc. simpl. symmetry. exact Hc. }
    rewrite Heq. unfold cs. rewrite orderAsc_perm.
    apply session_indices_distinct, Hk. }
  assert (Hsorted : StronglySorted (keyLt Playback.s_chunkIndex) wire).
  { apply keyLe_strict; [|exact Hnodup].
    unfold wire. rewrite <- list_fmap_compose.
    apply (StronglySorted_fmap_within indexLe _
             (λ c, chunkIndex c
                   = Int (Playback.s_chunkIndex (onWire (ChunkList.listed c)))));
      [|exact Hint|apply orderAsc_sorted].
    intros x y Hx Hy Hxy. unfold indexLe in Hxy. rewrite Hx, Hy in Hxy.
    simpl in Hxy. apply bool_decide_eq_true in Hxy. exact Hxy. }
  assert (Hall : Playback.s_chunkIndex <$> wire = Z.of_nat <$> seq 0 n).
  { assert (Hperm : Playback.s_chunkIndex <$> wire ≡ₚ Z.of_nat <$> seq 0 n).
    { apply NoDup_Permutation; [exact Hnodup| |].
      - apply (NoDup_fmap_2 Z.of_nat), NoDup_seq.
      - intros i. rewrite firstIndices_spec. split.
        + intros Hi. apply list_elem_of_fmap in Hi as (w & -> & Hw).
          rewrite Forall_forall in Hwire. apply (Hwire w Hw).
        + intros Hi. destruct Hpre as (_ & _ & Hheld & _).
          destruct (Hheld i Hi) as (c & Hl & _ & _ & Hci & Hcs').
          rewrite Hidx. apply list_elem_of_fmap. exists c. split.
          * unfold onWire. simpl. rewrite Hci. reflexivity.
          * unfold cs. rewrite orderAsc_perm. apply sessionChunks_spec. eauto. }
    rewrite <- (jsSort_ordered (λ i : Z, i) (Playback.s_chunkIndex <$> wire)
                  (Z.of_nat <$> seq 0 n) Hperm (firstIndices_sorted 0 n)).
    symmetry. apply jsSort_ordered; [reflexivity|].
    apply (StronglySorted_fmap _ (keyLt Playback.s_chunkIndex)); [|exact Hsorted].
    intros x y Hxy. exact Hxy. }
  assert (Hne : wire ≠ []).
  { intros Hnil. rewrite Hnil in Hall. destruct n; [lia|discriminate]. }
  destruct (server_reassembly wire wire (reflexivity _) Hsorted) as (Hr & Hsum & Hblob & _).
  { eapply Forall_impl; [exact Hwire|]. intros w Hw. apply Hw. }
  { exact Hne. }
  rewrite Hr. simpl.
  split; [reflexivity|]. split.
  { rewrite <- list_fmap_compose. exact Hall. }
  split.
  { unfold stream. simpl. rewrite Hblob. f_equal.
    rewrite <- Hall, <- list_fmap_compose.
    apply Forall_fmap_ext_1. eapply Forall_impl; [exact Hwire|]. intros w Hw. apply Hw. }
  rewrite Hsum. f_equal. rewrite <- Hall, <- list_fmap_compose.
  apply Forall_fmap_ext_1. eapply Forall_impl; [exact Hwire|]. intros w Hw. apply Hw.
Qed.

(** X30: from the recorder to the player.  When the requests
    [handleChunk] builds for chunks [k .. k+n-1] are served in order on
    a session that holds chunks [0 .. k-1], and every chunk survives the
    wire, then the chunk list of the session, reassembled by the
    playback code, has no error, lists indices [0 .. k+n-1] in order,
    and its audio is the concatenation of the recorded bytes in that
    order; the total duration is the left-to-right sum of the durations
    the handler parsed. *)
Theorem recording_plays_back_from_server
    now db sid dev user s (all : Z → list byte) (durations : Z → f64) (k n : nat) :
  or_null (Some dev) = Some dev →
  uuid_ok dev = true →
  users db !! dev = Some user →
  sessions db !! sid = Some s →
  userId s = user →
  wellKeyed db →
  let sent := λ i, Capture.chunkRequest sid dev (all i) i (durations i) in
  holdsPrefix db sid sent (Z.of_nat k) →
  (∀ i, 0 ≤ i < Z.of_nat (k + n) → survives (sent i) (all i)) →
  (0 < k + n)%nat →
  let db' := snd (serve now db (sent <$> (Z.of_nat <$> seq k n))) in
  ∃ l,
    ChunkList.GET db' sid (Some dev) = ChunkList.Chunks l
    ∧ let r := Playback.serverPlayback (Playback.ResponseOk (Some (onWire <$> l))) in
      Playback.error r = None
      ∧ Playback.index <$> Playback.chunks r = Z.of_nat <$> seq 0 (k + n)
      ∧ stream r = concat (all <$> (Z.of_nat <$> seq 0 (k + n)))
      ∧ Playback.totalDuration r
        = fold_left f64_add
            ((λ i, requestDuration (sent i)) <$> (Z.of_nat <$> seq 0 (k + n))) f64_zero.
Proof.
  intros Hd Hu Huser Hs Hown Hk sent Hpre Hsurv Hpos db'.
  destruct (serve_in_order now db sid dev user all durations n k s Hd Hu Huser Hs Hown Hpre)
    as (_ & _ & Hfin & Husers & (s' & Hs' & Hown')).
  fold sent in Hfin, Husers, Hs'. fold db' in Hfin, Husers, Hs'.
  rewrite <- Husers in Huser.
  apply (prefix_plays_back db' sid dev user s' sent all (k + n) Hd Hu Huser Hs' Hown');
    [|exact Hfin|exact Hsurv|exact Hpos].
  apply serve_wellKeyed, Hk.
Qed.

End EndToEnd.

(** ** The further statements at concrete inputs *)

Section MoreExamples.
#[local] Existing Instance wholeSeconds.
#[local] Existing Instance wholeSecondsText.
#[local] Existing Instance plainPlatform.
Import Upload.

Lemma emptySession_countsMatch : countsMatch emptySessionDb.
Proof.
  intros sid s Hs. unfold emptySessionDb in Hs. simpl in Hs.
  apply lookup_singleton_Some in Hs as [<- <-]. reflexivity.
Qed.

Lemma emptySession_wellKeyed : wellKeyed emptySessionDb.
Proof.
  intros k c Hc. unfold emptySessionDb in Hc. simpl in Hc.
  rewrite lookup_empty in Hc. discriminate.
Qed.

Lemma emptySession_holdsPrefix (sent : Z → Request) :
  holdsPrefix emptySessionDb "s1" sent 0.
Proof.
  split; [reflexivity|]. split; [intros i _; apply lookup_empty|].
  split; [intros i Hi; lia|].
  intros c Hc. apply elem_of_nil in Hc. destruct Hc.
Qed.

Lemma twoChunksLocal_keyed : keyedById twoChunksLocal.
Proof.
  intros k c Hc. unfold twoChunksLocal in Hc. simpl in Hc.
  apply lookup_insert_Some in Hc as [[<- <-]|[_ Hc]]; [reflexivity|].
  apply lookup_singleton_Some in Hc as [<- <-]. reflexivity.
Qed.

Lemma refused_upload_writes_nothing_witness :
  db_after (POST 4 threeChunksDb (uploadOf "9" "dd" "30")) = threeChunksDb.
Proof.
  apply (refused_upload_writes_nothing 4 threeChunksDb (uploadOf "9" "dd" "30")).
  vm_compute. reflexivity.
Defined.

Lemma foreign_session_is_not_found_witness :
  POST 1 twoUsersDb foreignUpload
  = mkResult (ErrorResponse 404 "Session not found") twoUsersDb [].
Proof.
  apply (foreign_session_is_not_found 1 twoUsersDb foreignUpload (bytesOf "zz") "0"
           otherDevice "u2" (mkSession "u1" 0)).
  - reflexivity.
  - reflexivity.
  - reflexivity.
  - vm_compute. reflexivity.
  - vm_compute. reflexivity.
  - vm_compute. reflexivity.
  - simpl. discriminate.
Defined.

Lemma upload_keeps_counts_witness :
  countsMatch (db_after (POST 1 emptySessionDb firstUpload)).
Proof.
  apply (upload_keeps_counts 1 emptySessionDb firstUpload).
  exact emptySession_countsMatch.
Defined.

Lemma upload_keeps_keys_witness :
  wellKeyed (db_after (POST 1 emptySessionDb firstUpload)).
Proof.
  apply (upload_keeps_keys 1 emptySessionDb firstUpload).
  exact emptySession_wellKeyed.
Defined.

Lemma same_record_same_index_witness :
  (requestId firstUpload = requestId retryUpload
   ↔ requestIndex firstUpload = requestIndex retryUpload)
  ∧ (∀ n, r_chunkIndex firstUpload = Some (show n) → requestIndex firstUpload = n).
Proof.
  apply (same_record_same_index firstUpload retryUpload). reflexivity.
Defined.

Lemma stored_chunk_is_read_back_witness :
  ∃ s1 l,
    IDB.storeChunk workingBackend emptyLocal local0 = (Resolved IDB.succeeded, s1)
    ∧ fst (IDB.getChunks workingBackend s1 (IDB.sessionId local0))
      = Resolved (IDB.mkChunksResult l None)
    ∧ local0 ∈ l
    ∧ Forall (λ c, IDB.sessionId c = IDB.sessionId local0) l
    ∧ StronglySorted (keyLe IDB.chunkIndex) l
    ∧ (∀ k c, k ≠ IDB.id local0 → IDB.audioChunks emptyLocal !! k = Some c →
              IDB.sessionId c = IDB.sessionId local0 → c ∈ l).
Proof.
  apply (stored_chunk_is_read_back workingBackend emptyLocal local0). reflexivity.
Defined.

Lemma recording_state_round_trip_witness :
  ∃ s1 s2,
    IDB.saveRecordingState workingBackend emptyLocal
      (IDB.mkRecordingState "s1" true false 0 0 0 8 IDB.mic)
    = (Resolved IDB.succeeded, s1)
    ∧ fst (IDB.getRecordingState workingBackend s1 "s1")
      = Resolved (IDB.mkStateResult
                    (Some (IDB.mkRecordingState "s1" true false 0 0 0 8 IDB.mic)) None)
    ∧ IDB.deleteRecordingState workingBackend s1 "s1" = (Resolved IDB.succeeded, s2)
    ∧ fst (IDB.getRecordingState workingBackend s2 "s1")
      = Resolved (IDB.mkStateResult None None)
    ∧ (∀ other, other ≠ "s1" →
         IDB.recordingState s2 !! other = IDB.recordingState emptyLocal !! other).
Proof.
  apply (recording_state_round_trip workingBackend emptyLocal
           (IDB.mkRecordingState "s1" true false 0 0 0 8 IDB.mic)).
  reflexivity.
Defined.

Lemma deleteChunks_only_own_session_witness :
  IDB.getAll (snd (IDB.deleteChunks workingBackend twoChunksLocal "s1")) "s1" = [].
Proof.
  apply (deleteChunks_only_own_session workingBackend twoChunksLocal "s1"
           twoChunksLocal_keyed).
  reflexivity.
Defined.

Lemma stop_gives_up_or_clears_witness :
  ∃ r,
    Recorder.stop 20 workingBackend stuckUpload 0 recordingHook recordingStore = Some r
    ∧ IDB.audioChunks (Recorder.store r) = IDB.audioChunks recordingStore
    ∧ (∀ other, or_null (Recorder.sessionIdRef recordingHook) ≠ Some other →
         IDB.recordingState (Recorder.store r) !! other
         = IDB.recordingState recordingStore !! other)
    ∧ ((Recorder.returned r = None
        ∧ Recorder.recorderRef (Recorder.hook r) = Recorder.recorderRef recordingHook
        ∧ Recorder.sessionIdRef (Recorder.hook r) = Recorder.sessionIdRef recordingHook)
       ∨ (Recorder.recorderRef recordingHook = Some (Resolved (Recorder.returned r))
          ∧ Recorder.hook r = Recorder.cleared)).
Proof.
  apply (stop_gives_up_or_clears 20 workingBackend stuckUpload 0 recordingHook
           recordingStore).
  - intros k. simpl. lia.
  - lia.
Defined.

Lemma stop_when_delete_fails_witness :
  ∃ r,
    Recorder.stop 20 throwingBackend stuckUpload 0 recordingHook recordingStore = Some r
    ∧ (∀ res, fst (IDB.deleteRecordingState throwingBackend recordingStore "s1")
              = Resolved res →
         Recorder.returned r = Some (bytesOf "final")
         ∧ Recorder.hook r = Recorder.cleared
         ∧ (IDB.success res = false →
              last (Recorder.console r)
              = Some (ConsoleWarn "Failed to delete recording state:")))
    ∧ (∀ e, fst (IDB.deleteRecordingState throwingBackend recordingStore "s1")
            = Rejected e →
         Recorder.returned r = None
         ∧ Recorder.recorderRef (Recorder.hook r) = Some (Resolved (Some (bytesOf "final")))
         ∧ Recorder.sessionIdRef (Recorder.hook r) = Recorder.sessionIdRef recordingHook
         ∧ IDB.recordingState (Recorder.store r) = IDB.recordingState recordingStore
         ∧ last (Recorder.console r) = Some (ConsoleError "Error stopping recording:")).
Proof.
  apply (stop_when_delete_fails 20 throwingBackend stuckUpload 0 recordingHook
           recordingStore (Some (bytesOf "final")) "s1").
  - reflexivity.
  - reflexivity.
  - intros k. simpl. lia.
  - lia.
Defined.

Lemma undecodable_chunk_fails_all_witness :
  ∃ msg,
    Playback.serverPlayback
      (Playback.ResponseOk (Some [chunk0; serverChunk 1 30 "b!b"; chunk3]))
    = Playback.failure msg.
Proof.
  apply (undecodable_chunk_fails_all [chunk0; serverChunk 1 30 "b!b"; chunk3]
           (serverChunk 1 30 "b!b")).
  - apply list_elem_of_further, list_elem_of_here.
  - reflexivity.
Defined.

Lemma nothing_playable_is_empty_success_witness :
  Playback.serverPlayback (Playback.ResponseOk (Some [placeholder])) = Playback.ready []
  ∧ Playback.error (Playback.ready []) = None
  ∧ Playback.audioUrl (Playback.ready []) = Some []
  ∧ Playback.serverPlayback (Playback.ResponseOk (Some []))
    = Playback.failure "No chunks found".
Proof.
  apply (nothing_playable_is_empty_success [placeholder]).
  - discriminate.
  - repeat constructor.
  - repeat constructor.
Defined.

Lemma playback_result_is_consistent_witness :
  let r := Playback.ready (Playback.fromLocal <$> [local0; local1]) in
  (is_Some (Playback.error r) ∧ Playback.chunks r = [] ∧ Playback.audioUrl r = None
   ∧ Playback.totalDuration r = f64_zero)
  ∨ (Playback.error r = None
     ∧ stream r = concat (Playback.blob <$> Playback.chunks r)
     ∧ Playback.totalDuration r
       = fold_left f64_add (Playback.duration <$> Playback.chunks r) f64_zero
     ∧ Forall (λ p, Playback.blob p ≠ []) (Playback.chunks r)
     ∧ (Playback.CalledFetch (Playback.chunksUrl "s1" exampleDevice)
          ∈ snd (Playback.run (answering [local0; local1] Playback.ResponseNotOk)
                   (Playback.getChunksForPlayback "s1" exampleDevice)) →
          Forall (λ p, f64_pos (Playback.duration p) = true) (Playback.chunks r)
          ∧ StronglySorted (keyLe Playback.index) (Playback.chunks r))).
Proof.
  apply (playback_result_is_consistent
           (answering [local0; local1] Playback.ResponseNotOk) "s1" exampleDevice).
  reflexivity.
Defined.

Lemma chunk_list_contents_witness :
  let l := ChunkList.listed <$> Transcribe.orderAsc (sessionChunks threeChunksDb "s1") in
  (∃ dev user s, Some exampleDevice = Some dev ∧ users threeChunksDb !! dev = Some user
                 ∧ sessions threeChunksDb !! "s1" = Some s ∧ userId s = user)
  ∧ l ≡ₚ ChunkList.listed <$> sessionChunks threeChunksDb "s1"
  ∧ StronglySorted listedLe l
  ∧ (wellKeyed threeChunksDb → NoDup (ChunkList.l_chunkIndex <$> l)).
Proof.
  apply (chunk_list_contents threeChunksDb "s1" (Some exampleDevice)).
  vm_compute. reflexivity.
Defined.

Lemma uploaded_chunk_is_listed_witness :
  ∃ l c,
    ChunkList.GET (db_after (POST 1 emptySessionDb firstUpload))
      (r_sessionId firstUpload) (r_deviceId firstUpload)
    = ChunkList.Chunks l
    ∧ c ∈ l
    ∧ ChunkList.l_audioData c = Some (requestPayload firstUpload)
    ∧ ChunkList.l_duration c = requestDuration firstUpload
    ∧ ChunkList.l_transcript c = or_null (r_transcript firstUpload)
    ∧ response (POST 1 emptySessionDb firstUpload)
      = ChunkResponse (ChunkList.l_id c) (ChunkList.l_chunkIndex c)
          (ChunkList.l_duration c) (ChunkList.l_timestamp c).
Proof.
  apply (uploaded_chunk_is_listed 1 emptySessionDb firstUpload).
  - vm_compute. reflexivity.
  - intros o Ho. unfold emptySessionDb in Ho. simpl in Ho.
    rewrite lookup_empty in Ho. discriminate.
Defined.

Lemma transcription_input_in_index_order_witness :
  ∃ cs,
    bytesOf "aaaabbbbcc"
    = concat ((λ c, fromBase64 (default EmptyString (audioData c))) <$> cs)
    ∧ cs ≠ []
    ∧ cs ≡ₚ filter (λ c, Transcribe.hasAudio c) (sessionChunks threeChunksDb "s1")
    ∧ StronglySorted indexLe cs
    ∧ (wellKeyed threeChunksDb → NoDup (chunkIndex <$> cs))
    ∧ ∃ dev user s, Some exampleDevice = Some dev ∧ users threeChunksDb !! dev = Some user
                    ∧ sessions threeChunksDb !! "s1" = Some s ∧ userId s = user.
Proof.
  apply (transcription_input_in_index_order (Some "key") threeChunksDb "s1"
           (Some exampleDevice) (bytesOf "aaaabbbbcc")).
  vm_compute. reflexivity.
Defined.

Lemma chunk_has_one_id_witness :
  ∃ sid,
    or_null (Recorder.sessionIdRef idleHook) = Some sid
    ∧ r_sessionId (Capture.chunkRequest "s1" exampleDevice (bytesOf "aaaa") 0 30) = sid
    ∧ requestIndex (Capture.chunkRequest "s1" exampleDevice (bytesOf "aaaa") 0 30) = Int 0
    ∧ requestId (Capture.chunkRequest "s1" exampleDevice (bytesOf "aaaa") 0 30)
      = IDB.id (Capture.localRecord sid (bytesOf "aaaa") 0 1)
    ∧ r_chunk (Capture.chunkRequest "s1" exampleDevice (bytesOf "aaaa") 0 30)
      = Some (bytesOf "aaaa")
    ∧ r_deviceId (Capture.chunkRequest "s1" exampleDevice (bytesOf "aaaa") 0 30)
      = Some exampleDevice
    ∧ r_transcript (Capture.chunkRequest "s1" exampleDevice (bytesOf "aaaa") 0 30) = None
    ∧ (∀ res, fst (IDB.storeChunk workingBackend emptyLocal
                     (Capture.localRecord sid (bytesOf "aaaa") 0 1))
              = Resolved res →
              IDB.success res = true →
              IDB.audioChunks
                (Capture.store
                   (Capture.handleChunk workingBackend 1 exampleDevice
                      (answeringWith emptySessionDb) idleHook emptyLocal
                      (bytesOf "aaaa") 0 30))
              !! requestId (Capture.chunkRequest "s1" exampleDevice (bytesOf "aaaa") 0 30)
              = Some (Capture.localRecord sid (bytesOf "aaaa") 0 1)).
Proof.
  apply (chunk_has_one_id (F:=wholeSeconds) workingBackend 1 exampleDevice (answeringWith emptySessionDb)
           idleHook emptyLocal (bytesOf "aaaa") 0 30).
  reflexivity.
Defined.

Lemma upload_survives_only_reported_failures_witness :
  (∀ res, fst (IDB.storeChunk throwingBackend emptyLocal
                 (Capture.localRecord "s1" (bytesOf "aaaa") 0 1))
          = Resolved res →
     Capture.sent (Capture.handleChunk throwingBackend 1 exampleDevice
                     (answeringWith emptySessionDb) idleHook emptyLocal
                     (bytesOf "aaaa") 0 30)
     = Some (Capture.chunkRequest "s1" exampleDevice (bytesOf "aaaa") 0 30))
  ∧ (∀ e, fst (IDB.storeChunk throwingBackend emptyLocal
                 (Capture.localRecord "s1" (bytesOf "aaaa") 0 1))
          = Rejected e →
       Capture.sent (Capture.handleChunk throwingBackend 1 exampleDevice
                       (answeringWith emptySessionDb) idleHook emptyLocal
                       (bytesOf "aaaa") 0 30)
       = None
       ∧ IDB.audioChunks
           (Capture.store (Capture.handleChunk throwingBackend 1 exampleDevice
                             (answeringWith emptySessionDb) idleHook emptyLocal
                             (bytesOf "aaaa") 0 30))
         = IDB.audioChunks emptyLocal
       ∧ Capture.toasts (Capture.handleChunk throwingBackend 1 exampleDevice
                           (answeringWith emptySessionDb) idleHook emptyLocal
                           (bytesOf "aaaa") 0 30)
         = [Capture.ToastError ("Error processing chunk " +:+ show (Int (0 + 1)))
              (Capture.describe e)]).
Proof.
  apply (upload_survives_only_reported_failures (F:=wholeSeconds) throwingBackend 1 exampleDevice
           (answeringWith emptySessionDb) idleHook emptyLocal (bytesOf "aaaa") 0 30 "s1").
  reflexivity.
Defined.

Lemma stop_after_handled_chunk_does_not_wait_witness :
  let h' := Capture.hook (Capture.handleChunk workingBackend 1 exampleDevice
                            (answeringWith emptySessionDb) idleHook emptyLocal
                            (bytesOf "aaaa") 0 30) in
  Recorder.pendingChunksRef h' = ∅
  ∧ ∃ r, Recorder.stop 0 workingBackend stuckUpload 5 h' recordingStore = Some r
         ∧ Recorder.polls r = 0%nat
         ∧ Recorder.finishedAt r = 5.
Proof.
  apply (stop_after_handled_chunk_does_not_wait (F:=wholeSeconds) workingBackend 1 exampleDevice
           (answeringWith emptySessionDb) idleHook emptyLocal (bytesOf "aaaa") 0 30
           0%nat workingBackend stuckUpload 5 recordingStore).
  reflexivity.
Defined.

Lemma chunks_sent_in_order_are_all_stored_witness :
  let sent := λ i, Capture.chunkRequest "s1" exampleDevice (bytesOf "aaaa") i 30 in
  let out := serve 1 emptySessionDb (sent <$> (Z.of_nat <$> seq 0 3)) in
  Forall2 (λ i r, ∃ d ts, r = ChunkResponse (chunkId "s1" (Int i)) (Int i) d ts)
    (Z.of_nat <$> seq 0 3) (fst out)
  ∧ countOf (snd out) "s1" = countOf emptySessionDb "s1" + Z.of_nat 3
  ∧ holdsPrefix (snd out) "s1" sent (Z.of_nat (0 + 3))
  ∧ (∀ i, 0 ≤ i < Z.of_nat (0 + 3) →
       ∃ c, audioChunks (snd out) !! chunkId "s1" (Int i) = Some c
            ∧ audioData c = Some (toBase64 (bytesOf "aaaa"))).
Proof.
  apply (chunks_sent_in_order_are_all_stored (F:=wholeSeconds) 1 emptySessionDb "s1"
           exampleDevice "u1" (mkSession "u1" 0) (λ _, bytesOf "aaaa") (λ _, 30) 0 3).
  - reflexivity.
  - vm_compute. reflexivity.
  - vm_compute. reflexivity.
  - vm_compute. reflexivity.
  - reflexivity.
  - apply emptySession_holdsPrefix.
Defined.

Lemma recording_plays_back_from_server_witness :
  let sent := λ i, Capture.chunkRequest "s1" exampleDevice (bytesOf "aaaa") i 30 in
  let db' := snd (serve 1 emptySessionDb (sent <$> (Z.of_nat <$> seq 0 3))) in
  ∃ l,
    ChunkList.GET db' "s1" (Some exampleDevice) = ChunkList.Chunks l
    ∧ let r := Playback.serverPlayback (Playback.ResponseOk (Some (onWire <$> l))) in
      Playback.error r = None
      ∧ Playback.index <$> Playback.chunks r = Z.of_nat <$> seq 0 (0 + 3)
      ∧ stream r = concat ((λ _, bytesOf "aaaa") <$> (Z.of_nat <$> seq 0 (0 + 3)))
      ∧ Playback.totalDuration r
        = fold_left f64_add
            ((λ i, requestDuration (sent i)) <$> (Z.of_nat <$> seq 0 (0 + 3))) f64_zero.
Proof.
  apply (recording_plays_back_from_server (F:=wholeSeconds) 1 emptySessionDb "s1"
           exampleDevice "u1" (mkSession "u1" 0) (λ _, bytesOf "aaaa") (λ _, 30) 0 3).
  - reflexivity.
  - vm_compute. reflexivity.
  - vm_compute. reflexivity.
  - vm_compute. reflexivity.
  - reflexivity.
  - exact emptySession_wellKeyed.
  - apply emptySession_holdsPrefix.
  - intros i _. split; [discriminate|]. split; [reflexivity|].
    split; [discriminate|reflexivity].
  - lia.
Defined.

(** Three chunks of four bytes, recorded, uploaded, listed and
    reassembled: twelve bytes and ninety seconds. *)
Example three_chunks_end_to_end :
  let sent := λ i, Capture.chunkRequest "s1" exampleDevice (bytesOf "aaaa") i 30 in
  let db' := snd (serve 1 emptySessionDb (sent <$> (Z.of_nat <$> seq 0 3))) in
  match ChunkList.GET db' "s1" (Some exampleDevice) with
  | ChunkList.Chunks l =>
      let r := Playback.serverPlayback (Playback.ResponseOk (Some (onWire <$> l))) in
      stream r = bytesOf "aaaaaaaaaaaa" ∧ Playback.totalDuration r = 90
  | ChunkList.Reply _ _ => False
  end.
Proof. vm_compute. split; reflexivity. Qed.

End MoreExamples.
